(** * tree3.js: enumeration of labeled rooted trees and the embedding matcher

    A shallow embedding of [tree-worker.js] (the embedding matcher) and of
    the two variants of [main.js] (tree enumeration, canonical keys,
    compositions, cartesian products, the worker pool and
    [isValidExtension]), with the properties of the specification stated
    and proved over these definitions. *)

From Stdlib Require Import ZArith List Bool Lia String Ascii Decimal DecimalString DecimalPos.
From stdpp Require Import base option list gmap.

Import ListNotations.
Local Open Scope Z_scope.

Set Warnings "-register-all".

(** ** Trees

    The JavaScript value [{ label: number, children: [Tree, ...] }]. Labels
    are JavaScript numbers holding integers; they are modelled as [Z]. *)

Inductive tree : Type :=
| Node (label : Z) (children : list tree).

Definition label (t : tree) : Z := match t with Node l _ => l end.
Definition children (t : tree) : list tree := match t with Node _ c => c end.

Definition leaf (l : Z) : tree := Node l [].

(** Node count: 1 plus the node counts of the children. *)
Fixpoint nodeCount (t : tree) : nat :=
  match t with
  | Node _ c => S (list_sum (List.map nodeCount c))
  end.

Definition forestCount (ts : list tree) : nat := list_sum (List.map nodeCount ts).

(** ** The embedding matcher ([tree-worker.js])

    [embeds], [rootEmbeds] and [matchChildren] call each other, and
    [matchChildren] calls itself with the same pattern children on the
    children of a target child, so the recursion is not structural in the
    pattern. The functions are embedded with a bound [fuel] on the depth of
    the call stack: [None] means the bound was reached. *)

Module Matcher.

(** [for (const x of l) { if (body x) return true; } return false;] *)
Fixpoint forSome {A : Type} (body : A -> option bool) (l : list A) : option bool :=
  match l with
  | [] => Some false
  | x :: l' =>
      match body x with
      | Some true => Some true
      | Some false => forSome body l'
      | None => None
      end
  end.

(** [for (let i = 0; i < l.length; i++) { if (body l[i] l.slice(i + 1)) return true; }
    return false;] *)
Fixpoint forSomeTail {A : Type} (body : A -> list A -> option bool) (l : list A)
  : option bool :=
  match l with
  | [] => Some false
  | x :: after =>
      match body x after with
      | Some true => Some true
      | Some false => forSomeTail body after
      | None => None
      end
  end.

(** One iteration of the loop of [matchChildren]: the two attempts at the
    target child [tchild], [after] being [tkids.slice(i + 1)]. *)
Definition matchStep (rootEmbeds : tree -> tree -> option bool)
    (matchChildren : list tree -> list tree -> option bool)
    (pkids : list tree) (first : tree) (rest : list tree)
    (tchild : tree) (after : list tree) : option bool :=
  match rootEmbeds first tchild with
  | None => None
  | Some true =>
      match matchChildren rest after with
      | None => None
      | Some true => Some true
      | Some false => matchChildren pkids (children tchild)
      end
  | Some false => matchChildren pkids (children tchild)
  end.

Fixpoint rootEmbeds (fuel : nat) (pattern target : tree) {struct fuel} : option bool :=
  match fuel with
  | O => None
  | S f =>
      if negb (label pattern =? label target) then Some false
      else
        match children pattern with
        | [] => Some true
        | _ :: _ => matchChildren f (children pattern) (children target)
        end
  end
with matchChildren (fuel : nat) (pkids tkids : list tree) {struct fuel} : option bool :=
  match fuel with
  | O => None
  | S f =>
      match pkids with
      | [] => Some true
      | first :: rest =>
          forSomeTail (matchStep (rootEmbeds f) (matchChildren f) pkids first rest) tkids
      end
  end.

Fixpoint embeds (fuel : nat) (A B : tree) {struct fuel} : option bool :=
  match fuel with
  | O => None
  | S f =>
      match rootEmbeds f A B with
      | None => None
      | Some true => Some true
      | Some false => forSome (embeds f A) (children B)
      end
  end.

(** Depth of the call stack that a call can need; it depends on the target
    only. *)
Definition embedsDepth (B : tree) : nat := 2 * nodeCount B + 2.
Definition rootEmbedsDepth (target : tree) : nat := 2 * nodeCount target + 1.
Definition matchChildrenDepth (tkids : list tree) : nat := 2 * forestCount tkids + 2.

(** The value a call returns: the functions run with a call-stack bound
    that is always enough (see [embeds_enough], [rootEmbeds_enough] and
    [matchChildren_enough]). [embedsResult] is the name [main.js] gives to
    the value it receives from the worker. *)
Definition valueOf (r : option bool) : bool :=
  match r with Some b => b | None => false end.

Definition rootEmbedsResult (pattern target : tree) : bool :=
  valueOf (rootEmbeds (rootEmbedsDepth target) pattern target).

Definition matchChildrenResult (pkids tkids : list tree) : bool :=
  valueOf (matchChildren (matchChildrenDepth tkids) pkids tkids).

Definition embedsResult (A B : tree) : bool :=
  valueOf (embeds (embedsDepth B) A B).

End Matcher.

(** ** Canonical keys ([main.js], [treeKey])

    [String(tree.label)] for an integer label is its decimal numeral, with a
    leading minus sign for a negative one. (JavaScript switches to exponent
    notation from [1e21] on; labels are taken below that.) *)

Definition String_ (l : Z) : string := NilZero.string_of_int (Z.to_int l).

(** [xs.join(sep)] *)
Definition join (sep : string) (xs : list string) : string := String.concat sep xs.

Fixpoint treeKey (t : tree) : string :=
  match t with
  | Node l [] => String_ l
  | Node l c => String_ l ++ "(" ++ join "," (List.map treeKey c) ++ ")"
  end.

(** [treeToString] differs from [treeKey] in the separator only. *)
Fixpoint treeToString (t : tree) : string :=
  match t with
  | Node l [] => String_ l
  | Node l c => String_ l ++ "(" ++ join ", " (List.map treeToString c) ++ ")"
  end.

(** Trees whose labels are all positive integers. *)
Fixpoint positiveLabels (t : tree) : bool :=
  match t with
  | Node l c => (0 <? l) && forallb positiveLabels c
  end.

(** Characters of a decimal numeral, and the characters that can follow a
    key inside a larger key. *)
Definition isDigit (c : ascii) : bool :=
  existsb (Ascii.eqb c) ["0"; "1"; "2"; "3"; "4"; "5"; "6"; "7"; "8"; "9"]%char.

Definition nonDigitStart (r : string) : Prop :=
  match r with
  | EmptyString => True
  | String c _ => isDigit c = false /\ c <> "-"%char
  end.

Definition stopStart (r : string) : Prop :=
  match r with
  | EmptyString => True
  | String c _ => c = ","%char \/ c = ")"%char
  end.

(** The digits of the numeral of an integer. *)
Definition digitsOf (z : Z) : uint :=
  match z with
  | 0 => D0 Nil
  | Z.pos p | Z.neg p => Pos.to_uint p
  end.

(** What follows the label in a key. *)
Definition keyTail (c : list tree) : string :=
  match c with
  | [] => ""
  | _ :: _ => "(" ++ join "," (List.map treeKey c) ++ ")"
  end.

(** ** Compositions and cartesian products ([main.js]) *)

(** Functions that carry a recursion bound return an [option]; they are
    chained with the bind of the option monad, [x ← m; k]. *)

(** [for (x of xs) { for (y of body x) yield y }], the body carrying a
    bound. *)
Fixpoint forYield {A B : Type} (body : A -> option (list B)) (xs : list A)
  : option (list B) :=
  match xs with
  | [] => Some []
  | x :: xs' =>
      ys ← body x;
      zs ← forYield body xs';
      Some (ys ++ zs)
  end.

(** The values of [for (let i = lo; i <= hi; i++)]. *)
Definition fromTo (lo hi : Z) : list Z := seqZ lo (hi - lo + 1).

(** [compositions(total)], a generator that its callers run to the end: the
    list of the arrays it yields, in order. [fuel] bounds the depth of the
    recursion. *)
Fixpoint compositions (fuel : nat) (total : Z) {struct fuel} : option (list (list Z)) :=
  match fuel with
  | O => None
  | S f =>
      if total =? 0 then Some [[]]
      else
        forYield
          (fun first =>
             rests ← compositions f (total - first);
             Some (List.map (fun rest => first :: rest) rests))
          (fromTo 1 total)
  end.

(** Depth that [compositions(total)] needs. *)
Definition compositionsDepth (total : Z) : nat := S (Z.to_nat total).

(** Sum of the parts of a composition. *)
Definition sumZ (xs : list Z) : Z := foldr Z.add 0 xs.

(** Number of compositions of [k]: one for 0, [2^(k-1)] from 1 on. *)
Definition compositionsCount (k : Z) : Z := if k =? 0 then 1 else 2 ^ (k - 1).

(** [cartesian(lists)]: the early return for an empty [lists] gives what the
    loop gives. *)
Definition cartesianStep {A : Type} (acc : list (list A)) (items : list A)
  : list (list A) :=
  flat_map (fun prefix => List.map (fun item => prefix ++ [item]) items) acc.

Definition cartesian {A : Type} (lists : list (list A)) : list (list A) :=
  match lists with
  | [] => [[]]
  | _ => fold_left cartesianStep lists [[]]
  end.

(** ** Tree enumeration ([main.js], [treesOfSize] and [allTrees])

    Both variants of [main.js] memoize [treesOfSize] in a table from the key
    [size + ":" + n] to the array of trees: a module-level [Map] in one
    variant, the IndexedDB object store ["treesOfSize"] in the other. The
    key is represented by the pair [(size, n)] it is built from
    ([cacheKey_inj] below: the string determines the pair). *)

Definition cacheKey (size n : Z) : string := String_ size ++ ":" ++ String_ n.

Abbreviation treeCache := (gmap (Z * Z) (list tree)).

(** The deduplication table [seen]: a [Map] (or a plain object whose keys
    are never array indices), so its values come out in insertion order. *)
Abbreviation seenTable := (list (string * tree)).

Definition seenHas (seen : seenTable) (key : string) : bool :=
  existsb (String.eqb key) (List.map fst seen).

(** [if (!seen.has(key)) seen.set(key, tree)] with [key = treeKey(tree)]. *)
Definition seenAdd (seen : seenTable) (t : tree) : seenTable :=
  let key := treeKey t in
  if seenHas seen key then seen else seen ++ [(key, t)].

Definition seenValues (seen : seenTable) : list tree := List.map snd seen.

(** [for (x of xs) body], the body updating a state and carrying a bound. *)
Fixpoint forEachM {A S : Type} (body : A -> S -> option S) (xs : list A) (s : S)
  : option S :=
  match xs with
  | [] => Some s
  | x :: xs' => s' ← body x s; forEachM body xs' s'
  end.

(** [xs.map(f)], [f] reading and updating a state. *)
Fixpoint mapM_state {A B S : Type} (f : A -> S -> option (B * S)) (xs : list A) (s : S)
  : option (list B * S) :=
  match xs with
  | [] => Some ([], s)
  | x :: xs' =>
      '(y, s1) ← f x s;
      '(ys, s2) ← mapM_state f xs' s1;
      Some (y :: ys, s2)
  end.

(** The loop over the combinations of one composition. *)
Definition addCombos (rootLabel : Z) (combos : list (list tree)) (seen : seenTable)
  : seenTable :=
  fold_left (fun seen childrenCombo => seenAdd seen (Node rootLabel childrenCombo))
    combos seen.

(** [treesOfSize(size, n)], reading and updating the table. In the
    IndexedDB variant the calls for the parts of one composition are started
    together ([Promise.all]) and interleave at their awaits; they are taken
    here one after the other, left to right. *)
Fixpoint treesOfSize (fuel : nat) (size n : Z) (cache : treeCache) {struct fuel}
  : option (list tree * treeCache) :=
  match fuel with
  | O => None
  | S f =>
      match cache !! (size, n) with
      | Some cached => Some (cached, cache)
      | None =>
          if size =? 1 then
            let result := List.map leaf (fromTo 1 n) in
            Some (result, <[(size, n) := result]> cache)
          else
            '(seen, cache1) ←
              forEachM
                (fun rootLabel st =>
                   comps ← compositions f (size - 1);
                   forEachM
                     (fun comp '(seen, c) =>
                        '(subtreeLists, c') ←
                          mapM_state (fun part => treesOfSize f part n) comp c;
                        Some (addCombos rootLabel (cartesian subtreeLists) seen, c'))
                     comps st)
                (fromTo 1 n) ([], cache);
            let result := seenValues seen in
            Some (result, <[(size, n) := result]> cache1)
      end
  end.

(** Depth that [treesOfSize(size, n)] needs. *)
Definition treesOfSizeDepth (size : Z) : nat := S (S (Z.to_nat size)).

(** Every entry is filed under the key of its tree, and no key occurs
    twice. *)
Definition seenInv (seen : seenTable) : Prop :=
  Forall (fun e => fst e = treeKey (snd e)) seen /\ NoDup (List.map fst seen).

(** *** What [treesOfSize] returns

    The value of [treesOfSize(size, n)] does not depend on what the table
    holds, as long as the table was filled by [treesOfSize] itself. To say
    so, the computation is written once more without the table:
    [treesOfSizePure] is the body of [treesOfSize] with every lookup
    missing. *)

Definition compositionsValue (total : Z) : list (list Z) :=
  default [] (compositions (compositionsDepth total) total).

Definition addCompositions (sub : Z -> list tree) (comps : list (list Z))
    (rootLabel : Z) (seen : seenTable) : seenTable :=
  fold_left
    (fun seen comp => addCombos rootLabel (cartesian (List.map sub comp)) seen)
    comps seen.

Definition addRoots (sub : Z -> list tree) (comps : list (list Z))
    (rootLabels : list Z) (seen : seenTable) : seenTable :=
  fold_left (fun seen rootLabel => addCompositions sub comps rootLabel seen)
    rootLabels seen.

(** The trees offered to the table, in the order of the three loops. *)
Definition candidates (sub : Z -> list tree) (comps : list (list Z))
    (rootLabels : list Z) : list tree :=
  flat_map
    (fun rootLabel =>
       flat_map (fun comp => List.map (Node rootLabel) (cartesian (List.map sub comp)))
         comps)
    rootLabels.

(** All labels of a tree are among [1..n]. *)
Fixpoint labelsWithin (n : Z) (t : tree) : bool :=
  match t with
  | Node l c => (1 <=? l) && (l <=? n) && forallb (labelsWithin n) c
  end.

Fixpoint treesOfSizePure (fuel : nat) (size n : Z) {struct fuel} : list tree :=
  match fuel with
  | O => []
  | S f =>
      if size =? 1 then List.map leaf (fromTo 1 n)
      else
        seenValues
          (addRoots (fun part => treesOfSizePure f part n)
             (compositionsValue (size - 1)) (fromTo 1 n) [])
  end.

Definition treesOfSizeValue (size n : Z) : list tree :=
  treesOfSizePure (Z.to_nat size) size n.

(** A table whose entries are what [treesOfSize] computes. *)
Definition cacheCoherent (cache : treeCache) : Prop :=
  forall size n ts, cache !! (size, n) = Some ts -> ts = treesOfSizeValue size n.

(** The tables that the program can have: the empty one at the start (a new
    [Map], a new object store), and the one a call of [treesOfSize] leaves. *)
Inductive cacheReachable : treeCache -> Prop :=
| reach_empty : cacheReachable ∅
| reach_call (size n : Z) (extra : nat) (cache : treeCache) ts cache' :
    cacheReachable cache ->
    treesOfSize (treesOfSizeDepth size + extra) size n cache = Some (ts, cache') ->
    cacheReachable cache'.

(** [allTrees(n)] is a generator that never ends: [while (true)] it takes
    [treesOfSize(size, n)], yields its elements in order and goes on to
    [size + 1]. [allTreesFrom] gives what it yields during the first
    [rounds] turns of that loop. *)
Fixpoint allTreesFrom (fuel : nat) (rounds : nat) (size n : Z) (cache : treeCache)
  : option (list tree * treeCache) :=
  match rounds with
  | O => Some ([], cache)
  | S k =>
      '(ts, cache1) ← treesOfSize fuel size n cache;
      '(more, cache2) ← allTreesFrom fuel k (size + 1) n cache1;
      Some (ts ++ more, cache2)
  end.

(** The variant with the in-memory [Map]. *)
Module Sync.

Definition allTrees (fuel : nat) (rounds : nat) (n : Z) (cache : treeCache)
  : option (list tree * treeCache) :=
  allTreesFrom fuel rounds 1 n cache.

End Sync.

(** The variant with the IndexedDB store. *)
Module Async.

(** The cursor visits every entry of the store; an entry counts when its key
    splits into a size and the label count [n]. *)
Definition getMaxCachedSizeForN (n : Z) (store : treeCache) : Z :=
  map_fold
    (fun key _ maxSize =>
       if (snd key =? n) && (fst key >? maxSize) then fst key else maxSize)
    0 store.

Definition startSize (n : Z) (store : treeCache) : Z :=
  let maxSize := getMaxCachedSizeForN n store in
  if maxSize >? 0 then maxSize else 1.

Definition allTrees (fuel : nat) (rounds : nat) (n : Z) (store : treeCache)
  : option (list tree * treeCache) :=
  allTreesFrom fuel rounds (startSize n store) n store.

End Async.

(** ** The worker pool and [isValidExtension] ([main.js])

    A worker is named by its index. A message posted to a worker stays in
    [inbox] until the worker has run [embeds] on it and its answer has been
    handled by [_onWorkerMessage]; which of the posted messages is answered
    next is not determined by the program. The promise returned by
    [submitEmbed] is named by the [id] of its task; [settled] holds the
    values of the promises resolved so far. *)

Module Pool.

Record msg : Type := Msg { id : Z; pattern : tree; target : tree }.

Definition worker : Type := nat.

Record WorkerPool : Type := mkPool {
  size : nat;
  workers : list worker;
  idleWorkers : list worker;
  queue : list msg;
  nextId : Z;
  callbacks : gset Z
}.

Record world : Type := mkWorld {
  pool : WorkerPool;
  inbox : list (worker * msg);
  settled : gmap Z bool
}.

(** [new WorkerPool(url, size)] *)
Definition newPool (size : nat) : world :=
  mkWorld (mkPool size (seq 0 size) (seq 0 size) [] 1 ∅) [] ∅.

(** [xs.pop()]: the last element and the array without it. *)
Definition pop {A : Type} (xs : list A) : option (list A * A) :=
  match last xs with
  | Some x => Some (removelast xs, x)
  | None => None
  end.

(** The loop of [_dispatch]; the test [queue.length === 0] before it changes
    nothing. *)
Fixpoint dispatchLoop (idle : list worker) (queue : list msg) (inbox : list (worker * msg))
  : list worker * list msg * list (worker * msg) :=
  match queue with
  | [] => (idle, [], inbox)
  | task :: queue' =>
      match pop idle with
      | None => (idle, queue, inbox)
      | Some (idle', w) => dispatchLoop idle' queue' (inbox ++ [(w, task)])
      end
  end.

Definition _dispatch (w : world) : world :=
  let p := pool w in
  let '(idle, queue', inbox') := dispatchLoop (idleWorkers p) (queue p) (inbox w) in
  mkWorld (mkPool (size p) (workers p) idle queue' (nextId p) (callbacks p))
    inbox' (settled w).

(** [resolve(result)] on the promise [i]: a promise keeps its first value. *)
Definition resolve (i : Z) (result : bool) (settled : gmap Z bool) : gmap Z bool :=
  match settled !! i with
  | Some _ => settled
  | None => <[i := result]> settled
  end.

(** [submitEmbed(pattern, target)]: the promise and the new state. *)
Definition submitEmbed (pattern target : tree) (w : world) : Z * world :=
  let p := pool w in
  let i := nextId p in
  (i, _dispatch
        (mkWorld
           (mkPool (size p) (workers p) (idleWorkers p)
              (queue p ++ [Msg i pattern target]) (i + 1) (callbacks p ∪ {[i]}))
           (inbox w) (settled w))).

(** [_onWorkerMessage(worker, e)] with [e.data = { id, result }]. *)
Definition _onWorkerMessage (wk : worker) (i : Z) (result : bool) (w : world) : world :=
  let p := pool w in
  let '(callbacks', settled') :=
    if decide (i ∈ callbacks p)
    then (callbacks p ∖ {[i]}, resolve i result (settled w))
    else (callbacks p, settled w) in
  _dispatch
    (mkWorld
       (mkPool (size p) (workers p) (idleWorkers p ++ [wk]) (queue p) (nextId p) callbacks')
       (inbox w) settled').

(** One event: the posted message at position [k] is answered. The worker
    runs [self.onmessage], that is [embeds(pattern, target)], and the pool
    handles the answer. *)
Definition deliver (k : nat) (w : world) : option world :=
  match inbox w !! k with
  | None => None
  | Some (wk, m) =>
      let result := Matcher.embedsResult (pattern m) (target m) in
      Some (_onWorkerMessage wk (id m) result
              (mkWorld (pool w) (delete k (inbox w)) (settled w)))
  end.

(** [terminate()] *)
Definition terminate (w : world) : world :=
  mkWorld (mkPool (size (pool w)) [] [] [] (nextId (pool w)) ∅) [] (settled w).

(** [await p]: events are handled until the promise is settled. The
    schedule [sched] says which posted message is answered at each event
    (taken modulo the number of posted messages); [None] when the schedule
    ends, or no message is posted, before the promise is settled. *)
Fixpoint await (sched : list nat) (p : Z) (w : world) : option (bool * world * list nat) :=
  match settled w !! p with
  | Some v => Some (v, w, sched)
  | None =>
      match sched with
      | [] => None
      | k :: sched' =>
          w' ← deliver (k mod length (inbox w))%nat w;
          await sched' p w'
      end
  end.

(** [seq.map((prev) => pool.submitEmbed(prev, t))] *)
Fixpoint submitAll (seq : list tree) (t : tree) (w : world) : list Z * world :=
  match seq with
  | [] => ([], w)
  | prev :: seq' =>
      let '(p, w1) := submitEmbed prev t w in
      let '(ps, w2) := submitAll seq' t w1 in
      (p :: ps, w2)
  end.

(** The loop that awaits the promises in order. *)
Fixpoint awaitAll (sched : list nat) (promises : list Z) (w : world)
  : option (bool * world * list nat) :=
  match promises with
  | [] => Some (true, w, sched)
  | p :: promises' =>
      '(embedsResult, w1, sched1) ← await sched p w;
      if embedsResult : bool then Some (false, w1, sched1)
      else awaitAll sched1 promises' w1
  end.

Definition isValidExtension (sched : list nat) (seq : list tree) (t : tree) (w : world)
  : option (bool * world * list nat) :=
  match seq with
  | [] => Some (true, w, sched)
  | _ :: _ =>
      let '(promises, w1) := submitAll seq t w in
      awaitAll sched promises w1
  end.

(** Tasks that are queued or posted and not answered yet. *)
Definition outstanding (w : world) : list msg :=
  queue (pool w) ++ List.map snd (inbox w).

(** The states a pool goes through: a new pool, then calls of
    [submitEmbed], answers of workers, and [terminate]. *)
Inductive reachable : world -> Prop :=
| reach_new (size : nat) : reachable (newPool size)
| reach_submit (pattern target : tree) (w : world) :
    reachable w -> reachable (snd (submitEmbed pattern target w))
| reach_deliver (k : nat) (w w' : world) :
    reachable w -> deliver k w = Some w' -> reachable w'
| reach_terminate (w : world) :
    reachable w -> reachable (terminate w).

(** Some worker is idle or at work: the pool was created with at least one
    worker and is not terminated. *)
Definition alive (w : world) : Prop :=
  idleWorkers (pool w) <> [] \/ inbox w <> [].

(** What holds of every such state. *)
Record poolInv (w : world) : Prop := mkPoolInv {
  inv_NoDup : NoDup (List.map id (outstanding w));
  inv_below : forall m, m ∈ outstanding w -> id m < nextId (pool w);
  inv_callback : forall m, m ∈ outstanding w -> id m ∈ callbacks (pool w);
  inv_pending : forall m, m ∈ outstanding w -> settled w !! id m = None;
  inv_settled : forall i v, settled w !! i = Some v -> i < nextId (pool w);
  inv_busy : queue (pool w) <> [] -> idleWorkers (pool w) = []
}.

(** The promise [p] stands for [embeds(s, t)]: it is settled with that
    value, or its task is still to be answered. *)
Definition tracked (t : tree) (w : world) (ps : Z * tree) : Prop :=
  settled w !! fst ps = Some (Matcher.embedsResult (snd ps) t) \/
  Msg (fst ps) (snd ps) t ∈ outstanding w.

End Pool.

(** ** Further notions used in the properties of the matcher *)

(** The labels of a tree, root first. *)
Fixpoint labelsOf (t : tree) : list Z :=
  match t with
  | Node l c => l :: flat_map labelsOf c
  end.

(** A tree and all the trees below it: the nodes at which [embeds] tries
    [rootEmbeds]. *)
Fixpoint subtrees (t : tree) : list tree :=
  match t with
  | Node l c => Node l c :: flat_map subtrees c
  end.

(** The string without its blanks. *)
Fixpoint removeBlanks (s : string) : string :=
  match s with
  | EmptyString => EmptyString
  | String ch s' => if Ascii.eqb ch " " then removeBlanks s' else String ch (removeBlanks s')
  end.

(** The product of the lists by recursion on them, the first list varying
    slowest; [cartesian] builds the same list from the other end
    ([cartesian_productOf]). *)
Fixpoint productOf {A : Type} (lists : list (list A)) : list (list A) :=
  match lists with
  | [] => [[]]
  | items :: lists' =>
      flat_map (fun item => List.map (cons item) (productOf lists')) items
  end.

(** ** The search: [TREE] and [backtrack] ([main.js])

    [backtrack] reads and writes the variable [best] of [TREE] and the
    array [seq], which every call shares; it fills the memo table through
    [allTrees] and uses the pool through [isValidExtension]. A call of
    [backtrack] makes a generator [allTrees(n)] of its own, whose loop
    [while (true)] is [forSizes] and whose loop over the trees of one size,
    together with the body of the [for] loop of [backtrack], is
    [forTrees]. *)

Module Search.

Record state : Type := mkState {
  best : nat;
  seq : list tree;
  cache : treeCache;
  world : Pool.world;
  sched : list nat
}.

(** How far a call has come: it has completed; or it is still in a loop
    [while (true)] after the number of turns looked at; or it is at an
    [await] that the events of the schedule do not resume. *)
Inductive outcome : Type :=
| Done (st : state)
| Running (st : state)
| Waiting (st : state).

Definition stateOf (o : outcome) : state :=
  match o with
  | Done st | Running st | Waiting st => st
  end.

(** [if (seq.length > best) best = seq.length] *)
Definition enter (st : state) : state :=
  if (best st <? length (seq st))%nat
  then mkState (length (seq st)) (seq st) (cache st) (world st) (sched st)
  else st.

(** The trees [ts] of one size go through the body of the loop of
    [backtrack], where [backtrack] stands for the recursive call:
    [seq.push(t)] before it, [seq.pop()] once it has returned. *)
Fixpoint forTrees (backtrack : state -> outcome) (ts : list tree) (st : state) : outcome :=
  match ts with
  | [] => Done st
  | t :: ts' =>
      match Pool.isValidExtension (sched st) (seq st) t (world st) with
      | None => Waiting st
      | Some (ok, w', sched') =>
          if ok : bool then
            match backtrack (mkState (best st) (seq st ++ [t]) (cache st) w' sched') with
            | Done st2 =>
                forTrees backtrack ts'
                  (mkState (best st2) (removelast (seq st2)) (cache st2) (world st2)
                     (sched st2))
            | out => out
            end
          else forTrees backtrack ts' (mkState (best st) (seq st) (cache st) w' sched')
      end
  end.

Section Variant.

(** The size at which [allTrees(n)] starts, given the table: 1 with the
    [Map], [Async.startSize] with the IndexedDB store. *)
Variable start : Z -> treeCache -> Z.
Variable n : Z.

(** [fuel] turns of the loop [while (true)] of [allTrees(n)], from [size]
    on; the calls of [backtrack] made during a turn have the turns that are
    left. [treesOfSize] is given the depth that it needs. *)
Fixpoint forSizes (fuel : nat) (size : Z) (st : state) {struct fuel} : outcome :=
  match fuel with
  | O => Running st
  | S f =>
      match treesOfSize (treesOfSizeDepth size) size n (cache st) with
      | None => Running st
      | Some (ts, cache1) =>
          match
            forTrees (fun st' => forSizes f (start n (cache st')) (enter st')) ts
              (mkState (best st) (seq st) cache1 (world st) (sched st))
          with
          | Done st2 => forSizes f (size + 1) st2
          | out => out
          end
      end
  end.

Definition backtrack (fuel : nat) (st : state) : outcome :=
  forSizes fuel (start n (cache st)) (enter st).

(** [TREE(n, pool)]: [best = 0], then [backtrack([])]. *)
Definition TREE (fuel : nat) (cache : treeCache) (w : Pool.world) (sched : list nat)
  : outcome :=
  backtrack fuel (mkState 0 [] cache w sched).

End Variant.

(** [return best], when [backtrack([])] has returned. *)
Definition returned (o : outcome) : option nat :=
  match o with
  | Done st => Some (best st)
  | _ => None
  end.

(** The call has not returned, and its state satisfies [P]. *)
Definition unfinished (P : state -> Prop) (o : outcome) : Prop :=
  match o with
  | Done _ => False
  | Running st | Waiting st => P st
  end.

(** Where the generator of the variant with the [Map] starts. *)
Definition startSync (n : Z) (cache : treeCache) : Z := 1.

(** No tree of the sequence embeds into a later one. *)
Definition bad (seq : list tree) : Prop :=
  forall (i j : nat) (s t : tree),
    (i < j)%nat -> seq !! i = Some s -> seq !! j = Some t ->
    Matcher.embedsResult s t = false.

End Search.

(* ===================================================================== *)
(** * Properties *)

(** Induction principle that also gives the hypothesis for every child. *)
Lemma tree_ind' (P : tree -> Prop) :
  (forall l c, Forall P c -> P (Node l c)) -> forall t, P t.
Proof.
  intros H. fix IH 1. intros [l c]. apply H.
  induction c as [|t c IHc]; constructor; [apply IH | exact IHc].
Qed.

(** Small runs of the embedded functions. *)
Example embeds_leaf_mismatch : Matcher.embeds 10 (leaf 1) (leaf 2) = Some false.
Proof. reflexivity. Qed.

Example embeds_leaf_into_tree : Matcher.embeds 10 (leaf 1) (Node 1 [leaf 2]) = Some true.
Proof. reflexivity. Qed.

Example embeds_skips_generation :
  Matcher.embeds 10 (Node 1 [leaf 2]) (Node 1 [Node 3 [leaf 2]]) = Some true.
Proof. reflexivity. Qed.

Example cartesian_pairs :
  cartesian [[1; 2]; [3; 4]] = [[1; 3]; [1; 4]; [2; 3]; [2; 4]]
  /\ cartesian ([] : list (list Z)) = [[]].
Proof. split; reflexivity. Qed.

Example treesOfSize_2_1 :
  fst <$> treesOfSize 5 2 1 ∅ = Some [Node 1 [leaf 1]].
Proof. vm_compute. reflexivity. Qed.

Example isValidExtension_demo :
  (fun r => fst (fst r)) <$>
    Pool.isValidExtension [5;3;1;0;0;0]%nat [leaf 2; Node 1 [leaf 1]; leaf 1] (Node 1 [leaf 3])
      (Pool.newPool 2) = Some false.
Proof. vm_compute. reflexivity. Qed.

Example getMax_demo :
  (fun r => Async.getMaxCachedSizeForN 1 (snd r)) <$> treesOfSize 5 2 1 ∅ = Some 2.
Proof. vm_compute. reflexivity. Qed.

(** ** The embedding matcher returns *)

Section MatcherFacts.

Import Matcher.

Lemma nodeCount_children (t : tree) :
  nodeCount t = S (forestCount (children t)).
Proof. destruct t; reflexivity. Qed.

Lemma forestCount_cons (t : tree) (ts : list tree) :
  forestCount (t :: ts) = (nodeCount t + forestCount ts)%nat.
Proof. reflexivity. Qed.

Lemma nodeCount_pos (t : tree) : (1 <= nodeCount t)%nat.
Proof. destruct t; simpl; lia. Qed.

Lemma forSome_mono {A : Type} (body body' : A -> option bool) (l : list A) (b : bool) :
  (forall x c, body x = Some c -> body' x = Some c) ->
  forSome body l = Some b -> forSome body' l = Some b.
Proof.
  intros Hb. induction l as [|x l IH]; simpl; [done|].
  destruct (body x) as [[]|] eqn:E; [| |done]; rewrite (Hb _ _ E); auto.
Qed.

Lemma forSomeTail_mono {A : Type} (body body' : A -> list A -> option bool)
    (l : list A) (b : bool) :
  (forall x after c, body x after = Some c -> body' x after = Some c) ->
  forSomeTail body l = Some b -> forSomeTail body' l = Some b.
Proof.
  intros Hb. induction l as [|x l IH]; simpl; [done|].
  destruct (body x l) as [[]|] eqn:E; [| |done]; rewrite (Hb _ _ _ E); auto.
Qed.

Lemma matchStep_mono (R R' : tree -> tree -> option bool)
    (M M' : list tree -> list tree -> option bool) pkids first rest tchild after c :
  (forall p t b, R p t = Some b -> R' p t = Some b) ->
  (forall pk tk b, M pk tk = Some b -> M' pk tk = Some b) ->
  matchStep R M pkids first rest tchild after = Some c ->
  matchStep R' M' pkids first rest tchild after = Some c.
Proof.
  intros HR HM. unfold matchStep.
  destruct (R first tchild) as [[]|] eqn:E1; [| |done]; rewrite (HR _ _ _ E1).
  - destruct (M rest after) as [[]|] eqn:E2; [| |done]; rewrite (HM _ _ _ E2); auto.
  - auto.
Qed.

Lemma rootEmbeds_matchChildren_mono (fuel : nat) :
  (forall fuel' p t b, (fuel <= fuel')%nat ->
     rootEmbeds fuel p t = Some b -> rootEmbeds fuel' p t = Some b) /\
  (forall fuel' pk tk b, (fuel <= fuel')%nat ->
     matchChildren fuel pk tk = Some b -> matchChildren fuel' pk tk = Some b).
Proof.
  induction fuel as [|f [IHr IHm]]; [split; intros; discriminate|].
  split.
  - intros [|f'] p t b Hle; [lia|]. simpl.
    destruct (negb (label p =? label t)); [done|].
    destruct (children p); [done|]. apply IHm. lia.
  - intros [|f'] pk tk b Hle; [lia|]. simpl.
    destruct pk as [|first rest]; [done|].
    apply forSomeTail_mono. intros x after c.
    apply matchStep_mono; intros; [apply IHr | apply IHm]; (lia || done).
Qed.

Lemma rootEmbeds_mono fuel fuel' p t b :
  (fuel <= fuel')%nat -> rootEmbeds fuel p t = Some b -> rootEmbeds fuel' p t = Some b.
Proof. apply rootEmbeds_matchChildren_mono. Qed.

Lemma matchChildren_mono fuel fuel' pk tk b :
  (fuel <= fuel')%nat -> matchChildren fuel pk tk = Some b ->
  matchChildren fuel' pk tk = Some b.
Proof. apply rootEmbeds_matchChildren_mono. Qed.

Lemma embeds_mono fuel : forall fuel' A B b,
  (fuel <= fuel')%nat -> embeds fuel A B = Some b -> embeds fuel' A B = Some b.
Proof.
  induction fuel as [|f IH]; [intros; discriminate|].
  intros [|f'] A B b Hle; [lia|]. simpl.
  destruct (rootEmbeds f A B) as [[]|] eqn:E; [| |done];
    rewrite (rootEmbeds_mono f f' _ _ _ ltac:(lia) E); [done|].
  apply forSome_mono. intros x c. apply IH. lia.
Qed.

(** With the depth bound of the target, the loop of [matchChildren] gives a
    result. *)
Lemma forSomeTail_matchStep_total (f : nat) pkids first rest :
  (forall p t, (rootEmbedsDepth t <= f)%nat -> is_Some (rootEmbeds f p t)) ->
  (forall pk tk, (matchChildrenDepth tk <= f)%nat -> is_Some (matchChildren f pk tk)) ->
  forall tkids, (matchChildrenDepth tkids <= S f)%nat ->
  is_Some (forSomeTail (matchStep (rootEmbeds f) (matchChildren f) pkids first rest) tkids).
Proof.
  intros HR HM. unfold matchChildrenDepth, rootEmbedsDepth in *.
  induction tkids as [|tchild after IH]; intros Hd; simpl; [by eexists|].
  rewrite forestCount_cons in Hd.
  pose proof (nodeCount_pos tchild) as Hpos.
  pose proof (nodeCount_children tchild) as Hc.
  assert (is_Some (matchStep (rootEmbeds f) (matchChildren f) pkids first rest tchild after))
    as [c Hstep].
  { unfold matchStep.
    destruct (HR first tchild) as [r ->]; [lia|].
    destruct (HM pkids (children tchild)) as [m2 Hm2]; [lia|].
    destruct r; [|by rewrite Hm2].
    destruct (HM rest after) as [m1 ->]; [lia|].
    destruct m1; [by eexists | by rewrite Hm2]. }
  rewrite Hstep. destruct c; [by eexists|]. apply IH. lia.
Qed.

Lemma rootEmbeds_matchChildren_total (fuel : nat) :
  (forall p t, (rootEmbedsDepth t <= fuel)%nat -> is_Some (rootEmbeds fuel p t)) /\
  (forall pk tk, (matchChildrenDepth tk <= fuel)%nat -> is_Some (matchChildren fuel pk tk)).
Proof.
  induction fuel as [|f [IHr IHm]].
  { split; intros; unfold rootEmbedsDepth, matchChildrenDepth in *; lia. }
  split.
  - intros p t Hd. simpl.
    destruct (negb (label p =? label t)); [by eexists|].
    destruct (children p); [by eexists|].
    apply IHm. unfold rootEmbedsDepth, matchChildrenDepth in *.
    rewrite nodeCount_children in Hd. lia.
  - intros pk tk Hd. simpl. destruct pk as [|first rest]; [by eexists|].
    by apply forSomeTail_matchStep_total.
Qed.

Lemma rootEmbeds_enough fuel p t :
  (rootEmbedsDepth t <= fuel)%nat -> rootEmbeds fuel p t = Some (rootEmbedsResult p t).
Proof.
  intros Hd. unfold rootEmbedsResult.
  destruct (proj1 (rootEmbeds_matchChildren_total _) p t (Nat.le_refl _)) as [b Hb].
  rewrite Hb. simpl. by apply (rootEmbeds_mono _ _ _ _ _ Hd).
Qed.

Lemma matchChildren_enough fuel pk tk :
  (matchChildrenDepth tk <= fuel)%nat ->
  matchChildren fuel pk tk = Some (matchChildrenResult pk tk).
Proof.
  intros Hd. unfold matchChildrenResult.
  destruct (proj2 (rootEmbeds_matchChildren_total _) pk tk (Nat.le_refl _)) as [b Hb].
  rewrite Hb. simpl. by apply (matchChildren_mono _ _ _ _ _ Hd).
Qed.

Lemma forestCount_app (xs ys : list tree) :
  forestCount (xs ++ ys) = (forestCount xs + forestCount ys)%nat.
Proof. unfold forestCount. by rewrite List.map_app, list_sum_app. Qed.

Lemma nodeCount_le_forestCount (t : tree) (ts : list tree) :
  t ∈ ts -> (nodeCount t <= forestCount ts)%nat.
Proof.
  intros (xs & ys & ->)%list_elem_of_split.
  rewrite forestCount_app, forestCount_cons. lia.
Qed.

Lemma forSome_total {A : Type} (body : A -> option bool) (l : list A) :
  (forall x, x ∈ l -> is_Some (body x)) -> is_Some (forSome body l).
Proof.
  induction l as [|x l IH]; intros H; simpl; [by eexists|].
  destruct (H x) as [[] ->]; [left | by eexists |].
  apply IH. intros y Hy. apply H. by right.
Qed.

Lemma forSome_existsb {A : Type} (body : A -> option bool) (f : A -> bool) (l : list A) :
  (forall x, x ∈ l -> body x = Some (f x)) -> forSome body l = Some (existsb f l).
Proof.
  induction l as [|x l IH]; intros H; simpl; [done|].
  rewrite (H x) by left. destruct (f x); [done|].
  apply IH. intros y Hy. apply H. by right.
Qed.

Lemma forSome_true_inv {A : Type} (body : A -> option bool) (l : list A) :
  forSome body l = Some true -> exists x, x ∈ l /\ body x = Some true.
Proof.
  induction l as [|x l IH]; simpl; [done|].
  destruct (body x) as [[]|] eqn:E; [| |done].
  - intros _. exists x. split; [left | done].
  - intros (y & Hy & Hb)%IH. exists y. split; [by right | done].
Qed.

Lemma forSomeTail_true_inv {A : Type} (body : A -> list A -> option bool) (l : list A) :
  forSomeTail body l = Some true ->
  exists before x after, l = before ++ x :: after /\ body x after = Some true.
Proof.
  induction l as [|x l IH]; simpl; [done|].
  destruct (body x l) as [[]|] eqn:E; [| |done].
  - intros _. by exists [], x, l.
  - intros (before & y & after & -> & Hb)%IH. by exists (x :: before), y, after.
Qed.

Lemma embeds_total (fuel : nat) : forall A B,
  (embedsDepth B <= fuel)%nat -> is_Some (embeds fuel A B).
Proof.
  induction fuel as [|f IH]; intros A B Hd; unfold embedsDepth in *; [lia|].
  simpl. rewrite rootEmbeds_enough by (unfold rootEmbedsDepth; lia).
  destruct (rootEmbedsResult A B); [by eexists|].
  apply forSome_total. intros c Hc. apply IH.
  apply nodeCount_le_forestCount in Hc. rewrite nodeCount_children in Hd.
  unfold embedsDepth. lia.
Qed.

Lemma embeds_enough fuel A B :
  (embedsDepth B <= fuel)%nat -> embeds fuel A B = Some (embedsResult A B).
Proof.
  intros Hd. unfold embedsResult.
  destruct (embeds_total _ A B (Nat.le_refl _)) as [b Hb].
  rewrite Hb. simpl. by apply (embeds_mono _ _ _ _ _ Hd).
Qed.

(** The values satisfy the equations of the source functions. *)
Lemma rootEmbedsResult_eq (p t : tree) :
  rootEmbedsResult p t =
    if negb (label p =? label t) then false
    else match children p with
         | [] => true
         | _ :: _ => matchChildrenResult (children p) (children t)
         end.
Proof.
  unfold rootEmbedsResult, rootEmbedsDepth. rewrite Nat.add_1_r. simpl rootEmbeds.
  destruct (negb (label p =? label t)); [done|].
  destruct (children p) eqn:E; [done|].
  rewrite matchChildren_enough; [done|].
  unfold matchChildrenDepth. rewrite (nodeCount_children t). lia.
Qed.

Lemma matchChildrenResult_nil (tkids : list tree) : matchChildrenResult [] tkids = true.
Proof.
  unfold matchChildrenResult, matchChildrenDepth. by rewrite Nat.add_comm.
Qed.

Lemma matchChildrenResult_cons_nil first rest :
  matchChildrenResult (first :: rest) [] = false.
Proof. reflexivity. Qed.

Lemma matchChildrenResult_cons_cons first rest tchild after :
  matchChildrenResult (first :: rest) (tchild :: after) =
    (rootEmbedsResult first tchild && matchChildrenResult rest after)
    || matchChildrenResult (first :: rest) (children tchild)
    || matchChildrenResult (first :: rest) after.
Proof.
  pose proof (nodeCount_pos tchild) as Hpos.
  pose proof (nodeCount_children tchild) as Hc.
  unfold matchChildrenResult at 1.
  destruct (matchChildrenDepth (tchild :: after)) as [|f] eqn:Ef;
    unfold matchChildrenDepth in Ef; rewrite forestCount_cons in Ef; [lia|].
  cbn [matchChildren forSomeTail]. unfold matchStep at 1.
  rewrite rootEmbeds_enough by (unfold rootEmbedsDepth; lia).
  rewrite (matchChildren_enough f (first :: rest) (children tchild))
    by (unfold matchChildrenDepth; lia).
  assert (forSomeTail (matchStep (rootEmbeds f) (matchChildren f) (first :: rest) first rest)
            after = Some (matchChildrenResult (first :: rest) after)) as Hloop.
  { change (matchChildren (S f) (first :: rest) after
            = Some (matchChildrenResult (first :: rest) after)).
    apply matchChildren_enough. unfold matchChildrenDepth. lia. }
  destruct (rootEmbedsResult first tchild); simpl.
  - rewrite (matchChildren_enough f rest after) by (unfold matchChildrenDepth; lia).
    destruct (matchChildrenResult rest after); simpl; [done|].
    destruct (matchChildrenResult (first :: rest) (children tchild)); simpl; [done|].
    by rewrite Hloop.
  - destruct (matchChildrenResult (first :: rest) (children tchild)); simpl; [done|].
    by rewrite Hloop.
Qed.

Lemma embedsResult_eq (A B : tree) :
  embedsResult A B = rootEmbedsResult A B || existsb (embedsResult A) (children B).
Proof.
  unfold embedsResult at 1, embedsDepth.
  replace (2 * nodeCount B + 2)%nat with (S (2 * nodeCount B + 1)) by lia.
  cbn [embeds]. rewrite rootEmbeds_enough by (unfold rootEmbedsDepth; lia).
  destruct (rootEmbedsResult A B); [done|]. simpl.
  rewrite (forSome_existsb _ (embedsResult A)); [done|].
  intros c Hc. apply embeds_enough.
  apply nodeCount_le_forestCount in Hc. rewrite (nodeCount_children B).
  unfold embedsDepth. lia.
Qed.

Lemma matchChildrenResult_refl (c : list tree) :
  Forall (fun t => rootEmbedsResult t t = true) c -> matchChildrenResult c c = true.
Proof.
  induction 1 as [|t c Ht _ IH]; [apply matchChildrenResult_nil|].
  by rewrite matchChildrenResult_cons_cons, Ht, IH.
Qed.

Lemma rootEmbedsResult_refl (A : tree) : rootEmbedsResult A A = true.
Proof.
  induction A as [l c IH] using tree_ind'.
  rewrite rootEmbedsResult_eq. simpl. rewrite Z.eqb_refl. simpl.
  destruct c; [done|]. by apply matchChildrenResult_refl.
Qed.

Lemma rootEmbeds_matchChildren_count (fuel : nat) :
  (forall p t, rootEmbeds fuel p t = Some true -> (nodeCount p <= nodeCount t)%nat) /\
  (forall pk tk, matchChildren fuel pk tk = Some true ->
     (forestCount pk <= forestCount tk)%nat).
Proof.
  induction fuel as [|f [IHr IHm]]; [split; intros; discriminate|].
  split.
  - intros p t. simpl. destruct (negb (label p =? label t)); [done|].
    rewrite (nodeCount_children p), (nodeCount_children t).
    destruct (children p) eqn:E; [intros _; unfold forestCount; simpl; lia|].
    intros H%IHm. lia.
  - intros pk tk. simpl. destruct pk as [|first rest]; [intros _; unfold forestCount; simpl; lia|].
    intros (before & tchild & after & -> & Hstep)%forSomeTail_true_inv.
    rewrite forestCount_app, !forestCount_cons.
    pose proof (nodeCount_children tchild) as Hc.
    unfold matchStep in Hstep.
    assert (matchChildren f (first :: rest) (children tchild) = Some true ->
            (nodeCount first + forestCount rest
             <= forestCount before + (nodeCount tchild + forestCount after))%nat) as Hdeep.
    { intros H%IHm. rewrite forestCount_cons in H. lia. }
    destruct (rootEmbeds f first tchild) as [[]|] eqn:E1; [| by auto | done].
    destruct (matchChildren f rest after) as [[]|] eqn:E2; [| by auto | done].
    apply IHr in E1. apply IHm in E2. lia.
Qed.

End MatcherFacts.

(** C8: the three functions of the embedding matcher return a boolean for
    every pair of trees: with a call-stack bound of [embedsDepth B] (of
    [rootEmbedsDepth B], of [matchChildrenDepth (children B)]) or any larger
    one, each of them gives a result, and the same one. *)
Theorem matcher_total (A B : tree) :
  exists b r m : bool,
  forall extra : nat,
    Matcher.embeds (Matcher.embedsDepth B + extra) A B = Some b /\
    Matcher.rootEmbeds (Matcher.rootEmbedsDepth B + extra) A B = Some r /\
    Matcher.matchChildren (Matcher.matchChildrenDepth (children B) + extra)
      (children A) (children B) = Some m.
Proof.
  exists (Matcher.embedsResult A B), (Matcher.rootEmbedsResult A B),
    (Matcher.matchChildrenResult (children A) (children B)).
  intros extra. split; [|split].
  - apply embeds_enough. lia.
  - apply rootEmbeds_enough. lia.
  - apply matchChildren_enough. lia.
Qed.

(** C3: [embeds(A, A)] returns true for every tree [A]. *)
Theorem embeds_refl (A : tree) (extra : nat) :
  Matcher.embeds (Matcher.embedsDepth A + extra) A A = Some true.
Proof.
  rewrite embeds_enough by lia. f_equal.
  by rewrite embedsResult_eq, rootEmbedsResult_refl.
Qed.

(** C4: [embeds(tree(1,[leaf(2)]), tree(1,[leaf(3), leaf(2)]))] returns true
    and [embeds(tree(1,[leaf(2), leaf(3)]), tree(1,[leaf(3), leaf(2)]))]
    returns false. *)
Theorem embeds_sibling_order (extra : nat) :
  let target := Node 1 [leaf 3; leaf 2] in
  Matcher.embeds (Matcher.embedsDepth target + extra) (Node 1 [leaf 2]) target
    = Some true /\
  Matcher.embeds (Matcher.embedsDepth target + extra) (Node 1 [leaf 2; leaf 3]) target
    = Some false.
Proof.
  intros target. split; (rewrite embeds_enough by lia); reflexivity.
Qed.

(** C9: when [embeds(A, B)] returns true, [A] has at most as many nodes as
    [B]. *)
Theorem embeds_nodeCount (fuel : nat) (A B : tree) :
  Matcher.embeds fuel A B = Some true -> (nodeCount A <= nodeCount B)%nat.
Proof.
  revert A B. induction fuel as [|f IH]; intros A B; [done|]. simpl.
  destruct (Matcher.rootEmbeds f A B) as [[]|] eqn:E; [| |done].
  - intros _. by apply (rootEmbeds_matchChildren_count f).
  - intros (c & Hc & Hb)%forSome_true_inv. apply IH in Hb.
    apply nodeCount_le_forestCount in Hc. rewrite (nodeCount_children B). lia.
Qed.

Lemma embeds_nodeCount_witness :
  Matcher.embeds 10 (Node 1 [leaf 2]) (Node 1 [leaf 3; leaf 2]) = Some true /\
  (nodeCount (Node 1 [leaf 2]) <= nodeCount (Node 1 [leaf 3; leaf 2]))%nat.
Proof.
  split; [reflexivity|].
  apply (embeds_nodeCount 10 (Node 1 [leaf 2]) (Node 1 [leaf 3; leaf 2])). reflexivity.
Defined.

(** ** Compositions *)

Section CompositionFacts.

Lemma forYield_spec {A B : Type} (body : A -> option (list B)) (xs : list A)
    (g : A -> Z) (P : B -> Prop) :
  (forall x, x ∈ xs ->
     exists ys, body x = Some ys /\ Z.of_nat (length ys) = g x /\ Forall P ys) ->
  exists zs, forYield body xs = Some zs /\
             Z.of_nat (length zs) = sumZ (List.map g xs) /\ Forall P zs.
Proof.
  induction xs as [|x xs IH]; intros H; simpl.
  - by exists [].
  - destruct (H x) as (ys & -> & Hlen & HP); [left|].
    destruct IH as (zs & -> & Hlen' & HP'); [intros y Hy; apply H; by right|].
    exists (ys ++ zs). simpl. split; [done|]. split.
    + rewrite length_app. lia.
    + by apply Forall_app.
Qed.

Lemma sum_compositionsCount (m : nat) : forall a total : Z,
  total - a = Z.of_nat m - 1 ->
  sumZ (List.map (fun first => compositionsCount (total - first)) (seqZ a (Z.of_nat m)))
  = if (m =? 0)%nat then 0 else 2 ^ (Z.of_nat m - 1).
Proof.
  induction m as [|m IH]; intros a total Ha; [done|].
  rewrite seqZ_cons by lia. simpl List.map. simpl sumZ.
  replace (Z.pred (Z.of_nat (S m))) with (Z.of_nat m) by lia.
  rewrite (IH (Z.succ a) total) by lia.
  replace (total - a) with (Z.of_nat m) by lia.
  unfold compositionsCount. destruct m as [|m]; [done|].
  replace (Z.of_nat (S m) =? 0) with false by (symmetry; apply Z.eqb_neq; lia).
  simpl Nat.eqb. cbv iota.
  replace (Z.of_nat (S (S m)) - 1) with (Z.succ (Z.of_nat (S m) - 1)) by lia.
  rewrite Z.pow_succ_r by lia. lia.
Qed.

Lemma compositions_spec (fuel : nat) : forall total : Z,
  0 <= total -> (Z.to_nat total < fuel)%nat ->
  exists comps,
    compositions fuel total = Some comps /\
    Z.of_nat (length comps) = compositionsCount total /\
    Forall (fun c => Forall (fun x => 1 <= x) c /\ sumZ c = total) comps.
Proof.
  induction fuel as [|f IH]; intros total Hpos Hfuel; [lia|].
  simpl. destruct (total =? 0) eqn:E.
  - apply Z.eqb_eq in E as ->. exists [[]]. repeat split; repeat constructor.
  - apply Z.eqb_neq in E.
    destruct (forYield_spec
      (fun first => rests ← compositions f (total - first);
                    Some (List.map (fun rest => first :: rest) rests))
      (fromTo 1 total)
      (fun first => compositionsCount (total - first))
      (fun c => Forall (fun x => 1 <= x) c /\ sumZ c = total))
      as (comps & Hc & Hlen & HP).
    { intros first [H1 H2]%elem_of_seqZ.
      destruct (IH (total - first)) as (rests & -> & Hlen & HP); [lia..|].
      eexists. split; [done|]. split; [by rewrite length_map|].
      apply Forall_map. eapply Forall_impl; [exact HP|].
      intros rest [Hr Hs]. simpl. split; [constructor; [lia|done] | lia]. }
    exists comps. split; [done|]. split; [|done].
    rewrite Hlen. unfold fromTo.
    replace (total - 1 + 1) with (Z.of_nat (Z.to_nat total)) by lia.
    rewrite (sum_compositionsCount (Z.to_nat total) 1 total) by lia.
    unfold compositionsCount.
    replace (total =? 0) with false by (symmetry; apply Z.eqb_neq; lia).
    destruct (Z.to_nat total) eqn:Et; [lia|]. simpl Nat.eqb. cbv iota.
    f_equal. lia.
Qed.

End CompositionFacts.

(** C5: for [total >= 1], [compositions(total)] yields exactly
    [2^(total-1)] arrays, each of integers [>= 1] that sum to [total]; and
    [compositions(0)] yields exactly one array, the empty one. *)
Theorem compositions_count (total : Z) (extra : nat) :
  1 <= total ->
  (exists comps,
     compositions (compositionsDepth total + extra) total = Some comps /\
     Z.of_nat (length comps) = 2 ^ (total - 1) /\
     Forall (fun c => Forall (fun x => 1 <= x) c /\ sumZ c = total) comps) /\
  compositions (compositionsDepth 0 + extra) 0 = Some [[]].
Proof.
  intros Htotal. split; [|reflexivity].
  destruct (compositions_spec (compositionsDepth total + extra) total)
    as (comps & Hc & Hlen & HP); [lia | unfold compositionsDepth; lia |].
  exists comps. split; [done|]. split; [|done].
  rewrite Hlen. unfold compositionsCount.
  by replace (total =? 0) with false by (symmetry; apply Z.eqb_neq; lia).
Qed.

Lemma compositions_count_witness :
  1 <= 3 /\
  ((exists comps,
     compositions (compositionsDepth 3 + 0) 3 = Some comps /\
     Z.of_nat (length comps) = 2 ^ (3 - 1) /\
     Forall (fun c => Forall (fun x => 1 <= x) c /\ sumZ c = 3) comps) /\
   compositions (compositionsDepth 0 + 0) 0 = Some [[]]).
Proof.
  split; [lia|]. apply (compositions_count 3 0). lia.
Defined.

Example compositions_3 :
  compositions 4 3 = Some [[1; 1; 1]; [1; 2]; [2; 1]; [3]].
Proof. reflexivity. Qed.

(** ** Canonical keys determine the tree *)

Section KeyFacts.

Local Open Scope string_scope.
Local Arguments String.append !_ _ : simpl nomatch.

Lemma append_assoc (a b c : string) : (a ++ b) ++ c = a ++ (b ++ c).
Proof. induction a as [|x a IH]; simpl; [done | by rewrite IH]. Qed.

Lemma append_nil_r (a : string) : a ++ "" = a.
Proof. induction a as [|x a IH]; simpl; [done | by rewrite IH]. Qed.

Lemma append_inv_head (a b c : string) : a ++ b = a ++ c -> b = c.
Proof. induction a as [|x a IH]; simpl; [done|]. intros [= H]. auto. Qed.

Lemma String_inv_tail (c : ascii) (a b : string) : String c a = String c b -> a = b.
Proof. by intros [= ->]. Qed.

Lemma digits_prefix (d1 : uint) : forall (d2 : uint) (r1 r2 : string),
  nonDigitStart r1 -> nonDigitStart r2 ->
  NilEmpty.string_of_uint d1 ++ r1 = NilEmpty.string_of_uint d2 ++ r2 ->
  d1 = d2 /\ r1 = r2.
Proof.
  induction d1 as [|d1 IH|d1 IH|d1 IH|d1 IH|d1 IH|d1 IH|d1 IH|d1 IH|d1 IH|d1 IH];
    intros [|d2|d2|d2|d2|d2|d2|d2|d2|d2|d2] r1 r2 H1 H2; simpl; intros E;
    try done;
    try (subst; simpl in *; by destruct H1);
    try (subst; simpl in *; by destruct H2);
    try (injection E as E; destruct (IH _ _ _ H1 H2 E) as [-> ->]; done).
Qed.

Lemma digits_start (d : uint) :
  d <> Nil -> exists c s, NilEmpty.string_of_uint d = String c s /\ isDigit c = true.
Proof. destruct d; [done|..]; intros _; simpl; by eexists _, _. Qed.

Lemma String_digits (z : Z) :
  String_ z = (if (z <? 0)%Z then "-" else "") ++ NilEmpty.string_of_uint (digitsOf z).
Proof.
  destruct z as [|p|p]; [done|..]; unfold String_; simpl;
    pose proof (DecimalPos.Unsigned.to_uint_nonnil p);
    unfold NilZero.string_of_uint; by destruct (Pos.to_uint p).
Qed.

Lemma digitsOf_nonnil (z : Z) : digitsOf z <> Nil.
Proof. destruct z; [done|..]; apply DecimalPos.Unsigned.to_uint_nonnil. Qed.

Lemma digitsOf_inj (z1 z2 : Z) :
  (z1 <? 0)%Z = (z2 <? 0)%Z -> digitsOf z1 = digitsOf z2 -> z1 = z2.
Proof.
  destruct z1 as [|p1|p1], z2 as [|p2|p2]; simpl; try done; intros _ E;
    try (by apply DecimalPos.Unsigned.to_uint_inj in E as ->);
    try (by destruct (DecimalPos.Unsigned.to_uint_nonzero p2));
    try (by destruct (DecimalPos.Unsigned.to_uint_nonzero p1)).
Qed.

Lemma String_prefix (z1 z2 : Z) (r1 r2 : string) :
  nonDigitStart r1 -> nonDigitStart r2 ->
  String_ z1 ++ r1 = String_ z2 ++ r2 -> z1 = z2 /\ r1 = r2.
Proof.
  intros H1 H2. rewrite !String_digits, !append_assoc.
  destruct (digits_start _ (digitsOf_nonnil z1)) as (c1 & s1 & E1 & Hc1).
  destruct (digits_start _ (digitsOf_nonnil z2)) as (c2 & s2 & E2 & Hc2).
  destruct (z1 <? 0)%Z eqn:S1, (z2 <? 0)%Z eqn:S2; simpl.
  - intros [= E]. destruct (digits_prefix _ _ _ _ H1 H2 E) as [Hd ->].
    split; [|done]. apply digitsOf_inj; congruence.
  - rewrite E2. simpl. intros [= <- _]. done.
  - rewrite E1. simpl. intros [= -> _]. done.
  - intros E. destruct (digits_prefix _ _ _ _ H1 H2 E) as [Hd ->].
    split; [|done]. apply digitsOf_inj; congruence.
Qed.

Lemma treeKey_unfold (l : Z) (c : list tree) :
  treeKey (Node l c) = String_ l ++ keyTail c.
Proof. destruct c; simpl; [by rewrite append_nil_r | done]. Qed.

Lemma join_cons (sep x : string) (xs : list string) :
  join sep (x :: xs) = x ++ match xs with [] => "" | _ :: _ => sep ++ join sep xs end.
Proof. destruct xs; simpl; [by rewrite append_nil_r | done]. Qed.

Lemma stopStart_nonDigit (r : string) : stopStart r -> nonDigitStart r.
Proof. destruct r as [|c r]; [done|]. by intros [-> | ->]. Qed.

Lemma keyTail_nonDigit (c : list tree) (r : string) :
  stopStart r -> nonDigitStart (keyTail c ++ r).
Proof. destruct c; [apply stopStart_nonDigit | done]. Qed.

(** Keys of the children, joined and closed, determine the children. *)
Lemma joinKeys_prefix (c1 : list tree) :
  Forall (fun t1 => forall t2 r1 r2, stopStart r1 -> stopStart r2 ->
            treeKey t1 ++ r1 = treeKey t2 ++ r2 -> t1 = t2 /\ r1 = r2) c1 ->
  forall (c2 : list tree) (r1 r2 : string),
  c1 <> [] -> c2 <> [] ->
  join "," (List.map treeKey c1) ++ ")" ++ r1 = join "," (List.map treeKey c2) ++ ")" ++ r2 ->
  c1 = c2 /\ r1 = r2.
Proof.
  induction 1 as [|x1 xs1 Hx1 _ IH]; intros [|x2 xs2] r1 r2 Hn1 Hn2; try done.
  simpl List.map. rewrite !join_cons, !append_assoc. intros E.
  apply Hx1 in E as [<- E].
  - destruct xs1 as [|y1 ys1], xs2 as [|y2 ys2]; simpl in E; try done.
    + by injection E as ->.
    + injection E as E. rewrite !append_assoc in E.
      change (join "," (List.map treeKey (y1 :: ys1)) ++ ")" ++ r1
              = join "," (List.map treeKey (y2 :: ys2)) ++ ")" ++ r2) in E.
      apply IH in E as [-> ->]; done.
  - destruct xs1; simpl; auto.
  - destruct xs2; simpl; auto.
Qed.

Lemma treeKey_prefix (t1 : tree) : forall (t2 : tree) (r1 r2 : string),
  stopStart r1 -> stopStart r2 ->
  treeKey t1 ++ r1 = treeKey t2 ++ r2 -> t1 = t2 /\ r1 = r2.
Proof.
  induction t1 as [l1 c1 IH] using tree_ind'. intros [l2 c2] r1 r2 H1 H2.
  rewrite !treeKey_unfold, !append_assoc. intros E.
  apply String_prefix in E as [-> E]; [|by apply keyTail_nonDigit..].
  destruct c1 as [|x1 xs1], c2 as [|x2 xs2]; unfold keyTail in E.
  - simpl in E. by subst.
  - simpl in E. subst r1. simpl in H1. by destruct H1.
  - simpl in E. subst r2. simpl in H2. by destruct H2.
  - rewrite !append_assoc in E.
    change (String "(" (join "," (List.map treeKey (x1 :: xs1)) ++ ")" ++ r1)
            = String "(" (join "," (List.map treeKey (x2 :: xs2)) ++ ")" ++ r2)) in E.
    apply String_inv_tail in E.
    apply (joinKeys_prefix _ IH) in E as [-> ->]; done.
Qed.

Lemma treeKey_inj (t1 t2 : tree) : treeKey t1 = treeKey t2 -> t1 = t2.
Proof.
  intros E. apply (treeKey_prefix t1 t2 "" ""); [done..|].
  by rewrite !append_nil_r.
Qed.

(** The key [size + ":" + n] of the memo table determines [size] and [n]. *)
Lemma cacheKey_inj (size n size' n' : Z) :
  cacheKey size n = cacheKey size' n' -> size = size' /\ n = n'.
Proof.
  unfold cacheKey. intros E.
  apply String_prefix in E as [-> E]; [|done..].
  injection E as E.
  apply (f_equal (fun s => s ++ "")) in E.
  apply String_prefix in E as [-> _]; done.
Qed.

End KeyFacts.

(** ** The deduplication table *)

Section SeenFacts.

Lemma seenHas_spec (seen : seenTable) (key : string) :
  seenHas seen key = true <-> key ∈ List.map fst seen.
Proof.
  unfold seenHas. rewrite existsb_exists, list_elem_of_In. split.
  - by intros (k & Hk & ->%String.eqb_eq).
  - intros Hk. exists key. split; [done | apply String.eqb_refl].
Qed.

Lemma seenInv_nil : seenInv [].
Proof. split; constructor. Qed.

Lemma seenAdd_inv (seen : seenTable) (t : tree) : seenInv seen -> seenInv (seenAdd seen t).
Proof.
  intros [Hk Hn]. unfold seenAdd. destruct (seenHas seen (treeKey t)) eqn:E; [done|].
  split.
  - apply Forall_app. split; [done | by repeat constructor].
  - rewrite List.map_app. simpl. apply NoDup_app. split; [done|]. split.
    + intros k Hin ->%list_elem_of_singleton.
      apply seenHas_spec in Hin. congruence.
    + apply NoDup_singleton.
Qed.

Lemma seenInv_keys (seen : seenTable) :
  seenInv seen -> List.map fst seen = List.map treeKey (seenValues seen).
Proof.
  intros [Hk _]. unfold seenValues. rewrite List.map_map.
  induction Hk as [|e seen He _ IH]; simpl; [done | by rewrite He, IH].
Qed.

Lemma seenAdd_values (seen : seenTable) (t u : tree) :
  seenInv seen ->
  u ∈ seenValues (seenAdd seen t) <-> u ∈ seenValues seen \/ u = t.
Proof.
  intros Hinv. unfold seenAdd. destruct (seenHas seen (treeKey t)) eqn:E.
  - split; [by left|]. intros [H | ->]; [done|].
    apply seenHas_spec in E. rewrite (seenInv_keys _ Hinv) in E.
    apply list_elem_of_fmap in E as (v & Hv%treeKey_inj & Hin). by subst.
  - unfold seenValues. rewrite List.map_app, elem_of_app. simpl.
    by rewrite list_elem_of_singleton.
Qed.

Lemma addAll_inv (ts : list tree) : forall seen,
  seenInv seen -> seenInv (fold_left seenAdd ts seen).
Proof.
  induction ts as [|t ts IH]; intros seen H; simpl; [done|].
  apply IH. by apply seenAdd_inv.
Qed.

Lemma addAll_values (ts : list tree) : forall seen u,
  seenInv seen ->
  u ∈ seenValues (fold_left seenAdd ts seen) <-> u ∈ seenValues seen \/ u ∈ ts.
Proof.
  induction ts as [|t ts IH]; intros seen u H; simpl.
  - rewrite elem_of_nil. tauto.
  - rewrite IH by (by apply seenAdd_inv). rewrite seenAdd_values by done.
    rewrite elem_of_cons. tauto.
Qed.

Lemma seenValues_NoDup_keys (seen : seenTable) :
  seenInv seen -> NoDup (List.map treeKey (seenValues seen)).
Proof. intros H. rewrite <- (seenInv_keys _ H). apply H. Qed.

Lemma seenValues_NoDup (seen : seenTable) : seenInv seen -> NoDup (seenValues seen).
Proof. intros H%seenValues_NoDup_keys. by apply NoDup_fmap_1 in H. Qed.

End SeenFacts.

(** C10: on trees with positive integer labels, two trees have the same
    canonical key if and only if they are equal (same label, same number of
    children, equal children in the same order); hence the table that keeps
    the first tree of every key keeps exactly one copy of every tree it is
    given. *)
Theorem treeKey_injective (t1 t2 : tree) (ts : list tree) :
  positiveLabels t1 = true -> positiveLabels t2 = true ->
  Forall (fun t => positiveLabels t = true) ts ->
  (treeKey t1 = treeKey t2 <-> t1 = t2) /\
  (let kept := seenValues (fold_left seenAdd ts []) in
   NoDup kept /\ forall t, t ∈ kept <-> t ∈ ts).
Proof.
  intros _ _ _. split; [|split].
  - split; [apply treeKey_inj | by intros ->].
  - apply seenValues_NoDup, addAll_inv, seenInv_nil.
  - intros t. rewrite addAll_values by apply seenInv_nil.
    unfold seenValues. simpl. rewrite elem_of_nil. tauto.
Qed.

Lemma treeKey_injective_witness :
  let t1 := Node 1 [leaf 12; leaf 3] in
  let t2 := Node 1 [leaf 1; Node 2 [leaf 3]] in
  let ts := [t1; t2; t1; leaf 12] in
  (positiveLabels t1 = true /\ positiveLabels t2 = true /\
   Forall (fun t => positiveLabels t = true) ts) /\
  (treeKey t1 = treeKey t2 <-> t1 = t2) /\
  (let kept := seenValues (fold_left seenAdd ts []) in
   NoDup kept /\ forall t, t ∈ kept <-> t ∈ ts).
Proof.
  intros t1 t2 ts. split.
  - repeat split; repeat constructor.
  - apply (treeKey_injective t1 t2 ts); repeat constructor.
Defined.

Example treeKey_demo :
  treeKey (Node 1 [leaf 12; Node 2 [leaf 3]]) = "1(12,2(3))"%string.
Proof. reflexivity. Qed.

(** ** Tree enumeration *)

Section EnumerationFacts.

Lemma forYield_mono {A B : Type} (body body' : A -> option (list B)) (xs : list A) zs :
  (forall x ys, body x = Some ys -> body' x = Some ys) ->
  forYield body xs = Some zs -> forYield body' xs = Some zs.
Proof.
  intros Hb. revert zs. induction xs as [|x xs IH]; intros zs; simpl; [done|].
  destruct (body x) as [ys|] eqn:E; [|done]. rewrite (Hb _ _ E). simpl.
  destruct (forYield body xs) as [zs'|] eqn:E'; [|done].
  by rewrite (IH _ eq_refl).
Qed.

Lemma compositions_mono (fuel : nat) : forall fuel' total comps,
  (fuel <= fuel')%nat -> compositions fuel total = Some comps ->
  compositions fuel' total = Some comps.
Proof.
  induction fuel as [|f IH]; intros [|f'] total comps Hle; try done; try lia.
  simpl. destruct (total =? 0); [done|].
  apply forYield_mono. intros first ys.
  destruct (compositions f (total - first)) as [rests|] eqn:E; [|done].
  by rewrite (IH f' _ _ ltac:(lia) E).
Qed.

Lemma compositions_enough (fuel : nat) (total : Z) :
  (Z.to_nat total < fuel)%nat -> compositions fuel total = Some (compositionsValue total).
Proof.
  intros Hf. unfold compositionsValue.
  destruct (Z.le_gt_cases 0 total) as [Hpos | Hneg].
  - destruct (compositions_spec (compositionsDepth total) total Hpos)
      as (comps & Hc & _); [unfold compositionsDepth; lia|].
    rewrite Hc. simpl.
    apply (compositions_mono (compositionsDepth total)); [unfold compositionsDepth; lia | done].
  - destruct fuel as [|f]; [lia|]. unfold compositionsDepth.
    replace (Z.to_nat total) with 0%nat by lia. simpl.
    replace (total =? 0) with false by (symmetry; apply Z.eqb_neq; lia).
    unfold fromTo. by rewrite seqZ_nil by lia.
Qed.

Lemma compositionsValue_neg (total : Z) : total < 0 -> compositionsValue total = [].
Proof.
  intros H. pose proof (compositions_enough 1 total ltac:(lia)) as E. simpl in E.
  replace (total =? 0) with false in E by (symmetry; apply Z.eqb_neq; lia).
  unfold fromTo in E. rewrite seqZ_nil in E by lia. simpl in E. congruence.
Qed.

Lemma sumZ_ge (c : list Z) x :
  Forall (fun y => 1 <= y) c -> x ∈ c -> x <= sumZ c.
Proof.
  induction 1 as [|y c Hy Hc IH]; [by intros ?%elem_of_nil|].
  assert (0 <= sumZ c) by (clear -Hc; induction Hc; simpl; lia).
  intros [->|Hin]%elem_of_cons; simpl; [lia|]. apply IH in Hin. lia.
Qed.

Lemma compositionsValue_parts (total : Z) (comp : list Z) :
  comp ∈ compositionsValue total ->
  Forall (fun part => 1 <= part <= total) comp /\ sumZ comp = total.
Proof.
  destruct (Z.le_gt_cases 0 total) as [Hpos | Hneg].
  - destruct (compositions_spec (compositionsDepth total) total Hpos)
      as (comps & Hc & _ & HP); [unfold compositionsDepth; lia|].
    unfold compositionsValue. rewrite Hc. simpl. intros Hin.
    rewrite Forall_forall in HP. destruct (HP _ Hin) as [H1 H2]. split; [|done].
    apply Forall_forall. intros part Hpart. split.
    + rewrite Forall_forall in H1. by apply H1.
    + rewrite <- H2. by apply sumZ_ge.
  - rewrite compositionsValue_neg by done. by intros ?%elem_of_nil.
Qed.

Lemma fold_left_ext_in {A B : Type} (f g : A -> B -> A) (l : list B) : forall a,
  (forall a x, x ∈ l -> f a x = g a x) -> fold_left f l a = fold_left g l a.
Proof.
  induction l as [|x l IH]; intros a H; simpl; [done|].
  rewrite (H a x) by left. apply IH. intros b y Hy. apply H. by right.
Qed.

Lemma addRoots_ext (sub sub' : Z -> list tree) comps roots seen :
  (forall comp part, comp ∈ comps -> part ∈ comp -> sub part = sub' part) ->
  addRoots sub comps roots seen = addRoots sub' comps roots seen.
Proof.
  intros H. unfold addRoots. apply fold_left_ext_in. intros a rootLabel _.
  unfold addCompositions. apply fold_left_ext_in. intros b comp Hc.
  do 2 f_equal. apply map_ext_in. intros part Hp%list_elem_of_In. by apply (H comp).
Qed.

Lemma addRoots_no_comps (sub : Z -> list tree) roots seen :
  addRoots sub [] roots seen = seen.
Proof. unfold addRoots. revert seen. induction roots; intros; simpl; auto. Qed.

Lemma treesOfSizePure_stable (fuel : nat) : forall fuel' size n,
  (Z.to_nat size <= fuel)%nat -> (Z.to_nat size <= fuel')%nat ->
  treesOfSizePure fuel size n = treesOfSizePure fuel' size n.
Proof.
  assert (forall f size n, size <= 0 -> treesOfSizePure f size n = []) as Hneg.
  { intros [|f] size n Hs; [done|]. simpl.
    replace (size =? 1) with false by (symmetry; apply Z.eqb_neq; lia).
    rewrite compositionsValue_neg by lia. by rewrite addRoots_no_comps. }
  induction fuel as [|f IH]; intros fuel' size n H1 H2.
  { rewrite (Hneg fuel') by lia. done. }
  destruct fuel' as [|f']; [by rewrite Hneg by lia|].
  simpl. destruct (size =? 1); [done|]. f_equal.
  apply addRoots_ext. intros comp part Hc Hp.
  apply compositionsValue_parts in Hc as [Hc _].
  rewrite Forall_forall in Hc. specialize (Hc _ Hp). apply IH; lia.
Qed.

Lemma treesOfSizePure_value (fuel : nat) (size n : Z) :
  (Z.to_nat size <= fuel)%nat -> treesOfSizePure fuel size n = treesOfSizeValue size n.
Proof. intros H. by apply treesOfSizePure_stable. Qed.

(** The equation of the value, as the body of [treesOfSize] reads. *)
Lemma treesOfSizeValue_eq (size n : Z) :
  treesOfSizeValue size n =
    if size =? 1 then List.map leaf (fromTo 1 n)
    else seenValues
           (addRoots (fun part => treesOfSizeValue part n)
              (compositionsValue (size - 1)) (fromTo 1 n) []).
Proof.
  rewrite <- (treesOfSizePure_value (S (Z.to_nat size))) by lia. simpl.
  destruct (size =? 1); [done|]. f_equal.
  apply addRoots_ext. intros comp part Hc Hp.
  apply compositionsValue_parts in Hc as [Hc _].
  rewrite Forall_forall in Hc. specialize (Hc _ Hp).
  apply treesOfSizePure_value. lia.
Qed.

Lemma forEachM_fold {A S T : Type} (body : A -> S * T -> option (S * T))
    (g : S -> A -> S) (I : T -> Prop) (xs : list A) :
  (forall x s t, x ∈ xs -> I t -> exists t', body x (s, t) = Some (g s x, t') /\ I t') ->
  forall s t, I t ->
  exists t', forEachM body xs (s, t) = Some (fold_left g xs s, t') /\ I t'.
Proof.
  induction xs as [|x xs IH]; intros H s t Ht; simpl; [by exists t|].
  destruct (H x s t) as (t1 & -> & Ht1); [left | done |]. simpl.
  apply IH; [|done]. intros y s' t' Hy. apply H. by right.
Qed.

Lemma cacheCoherent_insert (cache : treeCache) (size n : Z) :
  cacheCoherent cache -> cacheCoherent (<[(size, n) := treesOfSizeValue size n]> cache).
Proof.
  intros H size' n' ts. destruct (decide ((size, n) = (size', n'))) as [[= <- <-]|Hne].
  - rewrite lookup_insert_eq. congruence.
  - rewrite lookup_insert_ne by done. apply H.
Qed.

Lemma treesOfSize_S (f : nat) (size n : Z) (cache : treeCache) :
  treesOfSize (S f) size n cache =
    match cache !! (size, n) with
    | Some cached => Some (cached, cache)
    | None =>
        if size =? 1 then
          let result := List.map leaf (fromTo 1 n) in
          Some (result, <[(size, n) := result]> cache)
        else
          '(seen, cache1) ←
            forEachM
              (fun rootLabel st =>
                 comps ← compositions f (size - 1);
                 forEachM
                   (fun comp '(seen, c) =>
                      '(subtreeLists, c') ←
                        mapM_state (fun part => treesOfSize f part n) comp c;
                      Some (addCombos rootLabel (cartesian subtreeLists) seen, c'))
                   comps st)
              (fromTo 1 n) ([], cache);
          let result := seenValues seen in
          Some (result, <[(size, n) := result]> cache1)
    end.
Proof. reflexivity. Qed.

Lemma treesOfSize_value (fuel : nat) : forall size n cache,
  cacheCoherent cache -> (treesOfSizeDepth size <= fuel)%nat ->
  exists cache',
    treesOfSize fuel size n cache = Some (treesOfSizeValue size n, cache') /\
    cacheCoherent cache'.
Proof.
  unfold treesOfSizeDepth.
  induction fuel as [|f IH]; intros size n cache Hcoh Hfuel; [lia|].
  rewrite treesOfSize_S. destruct (cache !! (size, n)) as [cached|] eqn:Hlook.
  { exists cache. by rewrite (Hcoh _ _ _ Hlook). }
  rewrite (treesOfSizeValue_eq size n). destruct (size =? 1) eqn:Hsize.
  { eexists. split; [done|]. apply Z.eqb_eq in Hsize as ->.
    pose proof (cacheCoherent_insert cache 1 n Hcoh) as H.
    by rewrite treesOfSizeValue_eq in H. }
  set (sub := fun part => treesOfSizeValue part n).
  set (comps := compositionsValue (size - 1)).
  assert (forall comp c, comp ∈ comps -> cacheCoherent c ->
            exists c', mapM_state (fun part => treesOfSize f part n) comp c
                       = Some (List.map sub comp, c') /\ cacheCoherent c') as Hmap.
  { intros comp c [Hparts _]%compositionsValue_parts. revert c.
    induction Hparts as [|part comp Hpart _ IHc]; intros c Hc; simpl; [by exists c|].
    destruct (IH part n c Hc) as (c1 & -> & Hc1); [lia|]. simpl.
    destruct (IHc c1 Hc1) as (c2 & -> & Hc2). simpl. by exists c2. }
  pose proof (forEachM_fold
    (fun rootLabel st =>
       comps ← compositions f (size - 1);
       forEachM
         (fun comp '(seen, c) =>
            '(subtreeLists, c') ← mapM_state (fun part => treesOfSize f part n) comp c;
            Some (addCombos rootLabel (cartesian subtreeLists) seen, c'))
         comps st)
    (fun seen rootLabel => addCompositions sub comps rootLabel seen)
    cacheCoherent (fromTo 1 n)) as Hfold.
  destruct Hfold with (s := ([] : seenTable)) (t := cache)
    as (cache1 & Hloop & Hcoh1); [|done|].
  { intros rootLabel seen c _ Hc.
    rewrite compositions_enough by lia. simpl.
    apply (forEachM_fold _
      (fun seen comp => addCombos rootLabel (cartesian (List.map sub comp)) seen)
      cacheCoherent); [|done].
    intros comp seen' c' Hcomp Hc'.
    destruct (Hmap comp c' Hcomp Hc') as (c2 & -> & Hc2). simpl. by exists c2. }
  eexists. split; [rewrite Hloop; simpl; reflexivity|].
  pose proof (cacheCoherent_insert cache1 size n Hcoh1) as H.
  rewrite treesOfSizeValue_eq, Hsize in H. exact H.
Qed.

Lemma cacheCoherent_empty : cacheCoherent ∅.
Proof. intros size n ts. by rewrite lookup_empty. Qed.

Lemma cacheReachable_coherent (cache : treeCache) :
  cacheReachable cache -> cacheCoherent cache.
Proof.
  induction 1 as [|size n extra cache ts cache' _ IH Hcall];
    [apply cacheCoherent_empty|].
  destruct (treesOfSize_value (treesOfSizeDepth size + extra) size n cache IH)
    as (c & Hc & Hcoh); [lia|]. rewrite Hcall in Hc. by injection Hc as -> ->.
Qed.

Lemma fold_left_seenAdd_app (xs ys : list tree) (seen : seenTable) :
  fold_left seenAdd (xs ++ ys) seen = fold_left seenAdd ys (fold_left seenAdd xs seen).
Proof. apply fold_left_app. Qed.

Lemma addCombos_eq (rootLabel : Z) (combos : list (list tree)) : forall seen,
  addCombos rootLabel combos seen
  = fold_left seenAdd (List.map (Node rootLabel) combos) seen.
Proof. unfold addCombos. induction combos as [|c combos IH]; intros; simpl; auto. Qed.

Lemma addCompositions_eq sub (comps : list (list Z)) rootLabel : forall seen,
  addCompositions sub comps rootLabel seen
  = fold_left seenAdd
      (flat_map (fun comp => List.map (Node rootLabel) (cartesian (List.map sub comp)))
         comps) seen.
Proof.
  unfold addCompositions. induction comps as [|comp comps IH]; intros seen; simpl; [done|].
  by rewrite fold_left_seenAdd_app, IH, addCombos_eq.
Qed.

Lemma addRoots_eq sub comps (roots : list Z) : forall seen,
  addRoots sub comps roots seen = fold_left seenAdd (candidates sub comps roots) seen.
Proof.
  unfold addRoots, candidates. induction roots as [|r roots IH]; intros seen; simpl; [done|].
  by rewrite fold_left_seenAdd_app, IH, addCompositions_eq.
Qed.

(** The trees of one size are the offered trees, each kept once. *)
Lemma treesOfSizeValue_elem (size n : Z) (t : tree) :
  size <> 1 ->
  t ∈ treesOfSizeValue size n <->
  t ∈ candidates (fun part => treesOfSizeValue part n) (compositionsValue (size - 1))
        (fromTo 1 n).
Proof.
  intros Hs. rewrite treesOfSizeValue_eq.
  replace (size =? 1) with false by (symmetry; by apply Z.eqb_neq).
  rewrite addRoots_eq, addAll_values by apply seenInv_nil.
  unfold seenValues at 1. simpl. rewrite elem_of_nil. tauto.
Qed.

Lemma cartesianStep_elem {A : Type} (acc : list (list A)) (items : list A) (combo : list A) :
  combo ∈ cartesianStep acc items <->
  exists prefix item, combo = prefix ++ [item] /\ prefix ∈ acc /\ item ∈ items.
Proof.
  unfold cartesianStep. rewrite list_elem_of_In, in_flat_map. split.
  - intros (prefix & Hp%list_elem_of_In & Hin%list_elem_of_In).
    apply list_elem_of_fmap in Hin as (item & -> & Hi). by exists prefix, item.
  - intros (prefix & item & -> & Hp & Hi). exists prefix.
    split; [by apply list_elem_of_In|]. apply list_elem_of_In.
    apply list_elem_of_fmap. by exists item.
Qed.

Lemma fold_cartesianStep_elem {A : Type} (lists : list (list A)) :
  forall (acc : list (list A)) (combo : list A),
  combo ∈ fold_left cartesianStep lists acc <->
  exists prefix suffix,
    combo = prefix ++ suffix /\ prefix ∈ acc /\ Forall2 (fun x l => x ∈ l) suffix lists.
Proof.
  induction lists as [|items lists IH]; intros acc combo; simpl.
  - split.
    + intros H. exists combo, []. by rewrite app_nil_r.
    + intros (prefix & suffix & -> & Hp & ->%Forall2_nil_inv_r). by rewrite app_nil_r.
  - rewrite IH. split.
    + intros (prefix & suffix & -> & Hp & Hs).
      apply cartesianStep_elem in Hp as (prefix' & item & -> & Hp' & Hi).
      exists prefix', (item :: suffix). rewrite <- app_assoc. split; [done|].
      split; [done|]. by constructor.
    + intros (prefix & suffix & -> & Hp & Hs).
      apply Forall2_cons_inv_r in Hs as (item & suffix' & Hi & Hs' & ->).
      exists (prefix ++ [item]), suffix'. rewrite <- app_assoc. split; [done|].
      split; [|done]. apply cartesianStep_elem. by exists prefix, item.
Qed.

Lemma cartesian_elem {A : Type} (lists : list (list A)) (combo : list A) :
  combo ∈ cartesian lists <-> Forall2 (fun x l => x ∈ l) combo lists.
Proof.
  assert (combo ∈ fold_left cartesianStep lists [[]]
          <-> Forall2 (fun x l => x ∈ l) combo lists) as H.
  { rewrite fold_cartesianStep_elem. split.
    - by intros (prefix & suffix & -> & ->%list_elem_of_singleton & Hs).
    - intros Hs. exists [], combo. split; [done|]. split; [by left | done]. }
  destruct lists; [|exact H]. simpl in *. exact H.
Qed.

Lemma Forall2_map_right {A B C : Type} (P : A -> C -> Prop) (f : B -> C)
    (xs : list A) (ys : list B) :
  Forall2 P xs (List.map f ys) <-> Forall2 (fun x y => P x (f y)) xs ys.
Proof.
  revert xs. induction ys as [|y ys IH]; intros xs; simpl.
  - split; intros ->%Forall2_nil_inv_r; constructor.
  - split.
    + intros (x & xs' & Hx & Hxs & ->)%Forall2_cons_inv_r. constructor; [done|].
      by apply IH.
    + intros (x & xs' & Hx & Hxs & ->)%Forall2_cons_inv_r. constructor; [done|].
      by apply IH.
Qed.

Lemma candidates_elem sub comps roots (t : tree) :
  t ∈ candidates sub comps roots <->
  exists rootLabel comp combo,
    t = Node rootLabel combo /\ rootLabel ∈ roots /\ comp ∈ comps /\
    Forall2 (fun x part => x ∈ sub part) combo comp.
Proof.
  unfold candidates. rewrite list_elem_of_In, in_flat_map. split.
  - intros (r & Hr%list_elem_of_In & (comp & Hc%list_elem_of_In & Hin)%in_flat_map).
    apply list_elem_of_In in Hin. apply list_elem_of_fmap in Hin as (combo & -> & Hcombo).
    apply cartesian_elem in Hcombo.
    apply (proj1 (Forall2_map_right (fun x l => x ∈ l) sub combo comp)) in Hcombo.
    by exists r, comp, combo.
  - intros (r & comp & combo & -> & Hr & Hc & Hcombo). exists r.
    split; [by apply list_elem_of_In|]. apply in_flat_map. exists comp.
    split; [by apply list_elem_of_In|]. apply list_elem_of_In, list_elem_of_fmap.
    exists combo. split; [done|].
    apply cartesian_elem.
    by apply (proj2 (Forall2_map_right (fun x l => x ∈ l) sub combo comp)).
Qed.

(** Induction on the size: the parts of a composition of [size - 1] are
    smaller than [size]. *)
Lemma size_ind (P : Z -> Prop) :
  (forall size, (forall part, 1 <= part < size -> P part) -> P size) ->
  forall size, P size.
Proof.
  intros H size.
  assert (forall (k : nat) size, (Z.to_nat size <= k)%nat -> P size) as Hk.
  { induction k as [|k IH]; intros s Hs; apply H; intros part Hp; [lia|].
    apply IH. lia. }
  by apply (Hk (Z.to_nat size)).
Qed.

Lemma sumZ_forestCount (sub : Z -> list tree) (combo : list tree) (comp : list Z) :
  Forall2 (fun x part => x ∈ sub part /\ Z.of_nat (nodeCount x) = part) combo comp ->
  Z.of_nat (forestCount combo) = sumZ comp.
Proof.
  induction 1 as [|x part combo comp [_ Hx] _ IH]; [done|].
  rewrite forestCount_cons. simpl. lia.
Qed.

Lemma treesOfSizeValue_nodeCount (n : Z) : forall size t,
  t ∈ treesOfSizeValue size n -> Z.of_nat (nodeCount t) = size.
Proof.
  induction size as [size IH] using size_ind. intros t.
  destruct (decide (size = 1)) as [->|Hs].
  - rewrite treesOfSizeValue_eq. simpl. by intros (l & -> & _)%list_elem_of_fmap.
  - rewrite treesOfSizeValue_elem by done.
    intros (r & comp & combo & -> & _ & Hcomp & Hcombo)%candidates_elem.
    apply compositionsValue_parts in Hcomp as [Hparts Hsum].
    rewrite nodeCount_children. simpl children.
    rewrite Nat2Z.inj_succ.
    rewrite (sumZ_forestCount (fun part => treesOfSizeValue part n) combo comp); [lia|].
    clear Hsum. induction Hcombo as [|x part combo comp Hx _ IHc]; constructor.
    + split; [done|]. apply Forall_cons in Hparts as [Hp _]. apply IH; [lia | done].
    + apply IHc. by apply Forall_cons in Hparts as [_ ?].
Qed.

Lemma treesOfSizeValue_labels (n : Z) : forall size t,
  t ∈ treesOfSizeValue size n -> labelsWithin n t = true.
Proof.
  induction size as [size IH] using size_ind. intros t.
  destruct (decide (size = 1)) as [->|Hs].
  - rewrite treesOfSizeValue_eq. simpl.
    intros (l & -> & Hl%elem_of_seqZ)%list_elem_of_fmap. simpl.
    rewrite andb_true_r. apply andb_true_iff. split; [apply Z.leb_le | apply Z.leb_le]; lia.
  - rewrite treesOfSizeValue_elem by done.
    intros (r & comp & combo & -> & Hr%elem_of_seqZ & Hcomp & Hcombo)%candidates_elem.
    apply compositionsValue_parts in Hcomp as [Hparts _].
    simpl. apply andb_true_iff. split.
    + apply andb_true_iff. split; apply Z.leb_le; lia.
    + apply forallb_forall. intros x Hx%list_elem_of_In.
      clear Hr. induction Hcombo as [|y part combo comp Hy _ IHc];
        [by apply elem_of_nil in Hx|].
      apply Forall_cons in Hparts as [Hp Hparts].
      apply elem_of_cons in Hx as [->|Hx]; [apply (IH part); [lia | done] | by apply IHc].
Qed.

Lemma leaf_key_inj (l1 l2 : Z) : treeKey (leaf l1) = treeKey (leaf l2) -> l1 = l2.
Proof. by intros [=]%treeKey_inj. Qed.

Lemma treesOfSizeValue_NoDup_keys (size n : Z) :
  NoDup (List.map treeKey (treesOfSizeValue size n)).
Proof.
  rewrite treesOfSizeValue_eq. destruct (size =? 1).
  - rewrite List.map_map. apply (NoDup_fmap_2_strong (fun l => treeKey (leaf l))).
    + intros l1 l2 _ _. apply leaf_key_inj.
    + apply NoDup_seqZ.
  - rewrite addRoots_eq. apply seenValues_NoDup_keys, addAll_inv, seenInv_nil.
Qed.

Lemma Forall2_exists {A B : Type} (P : A -> B -> Prop) (ys : list B) :
  Forall (fun y => exists x, P x y) ys -> exists xs, Forall2 P xs ys.
Proof.
  induction 1 as [|y ys [x Hx] _ [xs Hxs]]; [by exists [] | exists (x :: xs); by constructor].
Qed.

Lemma compositionsValue_nonempty (total : Z) :
  0 <= total -> exists comp, comp ∈ compositionsValue total.
Proof.
  intros Hpos.
  destruct (compositions_spec (compositionsDepth total) total Hpos)
    as (comps & Hc & Hlen & _); [unfold compositionsDepth; lia|].
  unfold compositionsValue. rewrite Hc. simpl.
  destruct comps as [|comp comps]; [|exists comp; by left].
  simpl in Hlen. unfold compositionsCount in Hlen.
  destruct (total =? 0) eqn:E; [lia|]. apply Z.eqb_neq in E.
  assert (0 < 2 ^ (total - 1)) by (apply Z.pow_pos_nonneg; lia). lia.
Qed.

Lemma treesOfSizeValue_nonempty (n : Z) : 1 <= n -> forall size,
  1 <= size -> exists t, t ∈ treesOfSizeValue size n.
Proof.
  intros Hn. induction size as [size IH] using size_ind. intros Hsize.
  destruct (decide (size = 1)) as [->|Hs].
  - exists (leaf 1). rewrite treesOfSizeValue_eq. simpl.
    apply list_elem_of_fmap. exists 1. split; [done|]. apply elem_of_seqZ. lia.
  - destruct (compositionsValue_nonempty (size - 1)) as [comp Hcomp]; [lia|].
    pose proof (compositionsValue_parts _ _ Hcomp) as [Hparts _].
    destruct (Forall2_exists (fun x part => x ∈ treesOfSizeValue part n) comp)
      as [combo Hcombo].
    { eapply Forall_impl; [exact Hparts|]. intros part Hp. simpl in Hp. apply IH; lia. }
    exists (Node 1 combo). apply treesOfSizeValue_elem; [done|].
    apply candidates_elem. exists 1, comp, combo. split; [done|].
    split; [apply elem_of_seqZ; lia | done].
Qed.

End EnumerationFacts.

(** C2: for [size >= 1] and [n >= 1], every tree that [treesOfSize(size, n)]
    returns has exactly [size] nodes, and no two trees of the returned array
    have the same canonical key. The memo table is any table the program can
    have: empty, or left by earlier calls. *)
Theorem treesOfSize_nodes_keys (size n : Z) (extra : nat) (cache : treeCache) :
  1 <= size -> 1 <= n -> cacheReachable cache ->
  exists ts cache',
    treesOfSize (treesOfSizeDepth size + extra) size n cache = Some (ts, cache') /\
    Forall (fun t => Z.of_nat (nodeCount t) = size) ts /\
    NoDup (List.map treeKey ts).
Proof.
  intros _ _ Hreach%cacheReachable_coherent.
  destruct (treesOfSize_value (treesOfSizeDepth size + extra) size n cache Hreach)
    as (cache' & Hcall & _); [lia|].
  exists (treesOfSizeValue size n), cache'. split; [done|]. split.
  - apply Forall_forall. intros t. apply treesOfSizeValue_nodeCount.
  - apply treesOfSizeValue_NoDup_keys.
Qed.

Lemma treesOfSize_nodes_keys_witness :
  (1 <= 3 /\ 1 <= 2 /\ cacheReachable ∅) /\
  exists ts cache',
    treesOfSize (treesOfSizeDepth 3 + 0) 3 2 ∅ = Some (ts, cache') /\
    Forall (fun t => Z.of_nat (nodeCount t) = 3) ts /\
    NoDup (List.map treeKey ts).
Proof.
  split; [split; [lia | split; [lia | constructor]]|].
  apply (treesOfSize_nodes_keys 3 2 0 ∅); [lia | lia | constructor].
Defined.

Example treesOfSize_3_1 :
  fst <$> treesOfSize 5 3 1 ∅ = Some [Node 1 [leaf 1; leaf 1]; Node 1 [Node 1 [leaf 1]]].
Proof. vm_compute. reflexivity. Qed.

(** ** The worker pool *)

Section PoolFacts.

Import Pool.

Lemma pop_None {A : Type} (xs : list A) : pop xs = None -> xs = [].
Proof. unfold pop. destruct (last xs) eqn:E; [done|]. intros _. by apply last_None. Qed.

Lemma dispatchLoop_spec (queue : list msg) : forall idle inbox idle' queue' inbox',
  dispatchLoop idle queue inbox = (idle', queue', inbox') ->
  (exists moved, queue = List.map snd moved ++ queue' /\ inbox' = inbox ++ moved) /\
  (queue' = [] \/ idle' = []) /\
  (idle <> [] \/ inbox <> [] -> idle' <> [] \/ inbox' <> []).
Proof.
  induction queue as [|task queue IH]; intros idle inbox idle' queue' inbox'; simpl.
  { intros [= <- <- <-]. split; [exists []; split; [done | by rewrite app_nil_r]|]. split; [by left | done]. }
  destruct (pop idle) as [[idle1 wk]|] eqn:Hpop.
  - intros (Hmoved & Hq & Hlive)%IH. destruct Hmoved as (moved & -> & ->).
    split; [exists ((wk, task) :: moved); by rewrite <- app_assoc|].
    split; [done|]. intros _. apply Hlive. right. by destruct inbox.
  - intros [= <- <- <-]. apply pop_None in Hpop as ->.
    split; [exists []; split; [done | by rewrite app_nil_r]|]. split; [by right | done].
Qed.

Lemma dispatch_fields (w : world) :
  nextId (pool (_dispatch w)) = nextId (pool w) /\
  callbacks (pool (_dispatch w)) = callbacks (pool w) /\
  settled (_dispatch w) = settled w.
Proof.
  unfold _dispatch.
  by destruct (dispatchLoop (idleWorkers (pool w)) (queue (pool w)) (inbox w)) as [[? ?] ?].
Qed.

Lemma dispatch_outstanding (w : world) : outstanding (_dispatch w) ≡ₚ outstanding w.
Proof.
  unfold _dispatch, outstanding.
  destruct (dispatchLoop (idleWorkers (pool w)) (queue (pool w)) (inbox w))
    as [[idle' queue'] inbox'] eqn:E.
  apply dispatchLoop_spec in E as ((moved & -> & ->) & _). simpl.
  rewrite List.map_app, <- !app_assoc.
  rewrite (Permutation_app_comm (List.map snd moved) (queue' ++ List.map snd (inbox w))).
  by rewrite <- app_assoc.
Qed.

Lemma dispatch_live (w : world) :
  (alive w -> alive (_dispatch w)) /\
  (queue (pool (_dispatch w)) <> [] -> idleWorkers (pool (_dispatch w)) = []).
Proof.
  unfold alive, _dispatch.
  destruct (dispatchLoop (idleWorkers (pool w)) (queue (pool w)) (inbox w))
    as [[idle' queue'] inbox'] eqn:E.
  apply dispatchLoop_spec in E as (_ & Hq & Hlive). simpl.
  split; [done|]. by destruct Hq.
Qed.

(** The invariant, from a list that the outstanding tasks are a permutation
    of. *)
Lemma poolInv_intro (w : world) (out : list msg) :
  outstanding w ≡ₚ out ->
  NoDup (List.map id out) ->
  (forall m, m ∈ out -> id m < nextId (pool w)) ->
  (forall m, m ∈ out -> id m ∈ callbacks (pool w)) ->
  (forall m, m ∈ out -> settled w !! id m = None) ->
  (forall i v, settled w !! i = Some v -> i < nextId (pool w)) ->
  (queue (pool w) <> [] -> idleWorkers (pool w) = []) ->
  poolInv w.
Proof.
  intros Hperm Hnd H1 H2 H3 H4 H6. split; try done.
  - by rewrite (Permutation_map id Hperm).
  - intros m Hm. apply H1. by rewrite <- Hperm.
  - intros m Hm. apply H2. by rewrite <- Hperm.
  - intros m Hm. apply H3. by rewrite <- Hperm.
Qed.

Lemma newPool_inv (size : nat) : poolInv (newPool size).
Proof.
  split; simpl; try done; try (by constructor);
    intros m Hm; by apply elem_of_nil in Hm.
Qed.

Lemma terminate_inv (w : world) : poolInv w -> poolInv (terminate w).
Proof.
  intros Hinv. split; simpl; try done; try (by constructor);
    try (intros m Hm; by apply elem_of_nil in Hm).
  apply Hinv.
Qed.

Lemma submitEmbed_spec (s t : tree) (w : world) :
  poolInv w ->
  fst (submitEmbed s t w) = nextId (pool w) /\
  poolInv (snd (submitEmbed s t w)) /\
  outstanding (snd (submitEmbed s t w)) ≡ₚ Msg (nextId (pool w)) s t :: outstanding w /\
  settled (snd (submitEmbed s t w)) = settled w /\
  (alive w -> alive (snd (submitEmbed s t w))).
Proof.
  intros Hinv. unfold submitEmbed. simpl.
  set (w1 := mkWorld _ (inbox w) (settled w)).
  assert (outstanding w1 ≡ₚ Msg (nextId (pool w)) s t :: outstanding w) as Hout.
  { unfold outstanding, w1. simpl. rewrite <- app_assoc. simpl.
    by rewrite <- Permutation_middle. }
  destruct (dispatch_fields w1) as (Hn & Hc & Hs).
  destruct (dispatch_live w1) as [Hlive Hbusy].
  split; [done|].
  split; [|split; [by rewrite dispatch_outstanding | split; [by rewrite Hs | exact Hlive]]].
  apply (poolInv_intro _ (Msg (nextId (pool w)) s t :: outstanding w));
    rewrite ?Hn, ?Hc, ?Hs; simpl; try done.
  - by rewrite dispatch_outstanding.
  - constructor; [|apply Hinv]. intros (m & Hid & Hm)%list_elem_of_fmap.
    apply (inv_below w Hinv) in Hm. simpl in Hid. lia.
  - intros m [->|Hm]%elem_of_cons; simpl; [lia|].
    apply (inv_below w Hinv) in Hm. lia.
  - intros m [->|Hm]%elem_of_cons; simpl; apply elem_of_union;
      [right; by apply elem_of_singleton | left; by apply Hinv].
  - intros m [->|Hm]%elem_of_cons; simpl; [|by apply Hinv].
    destruct (settled w !! nextId (pool w)) as [v|] eqn:E; [|done].
    apply (inv_settled w Hinv) in E. lia.
  - intros i v Hi. apply (inv_settled w Hinv) in Hi. lia.
Qed.

Lemma deliver_spec (k : nat) (w w' : world) :
  poolInv w -> deliver k w = Some w' ->
  exists wk m,
    inbox w !! k = Some (wk, m) /\
    poolInv w' /\
    m :: outstanding w' ≡ₚ outstanding w /\
    settled w' = <[id m := Matcher.embedsResult (pattern m) (target m)]> (settled w) /\
    alive w'.
Proof.
  intros Hinv. unfold deliver.
  destruct (inbox w !! k) as [[wk m]|] eqn:Hk; [|done]. intros [= <-].
  exists wk, m. split; [done|].
  assert (m ∈ outstanding w) as Hm.
  { unfold outstanding. apply elem_of_app. right. apply list_elem_of_fmap.
    exists (wk, m). split; [done|]. by eapply list_elem_of_lookup_2. }
  assert (m :: queue (pool w) ++ List.map snd (delete k (inbox w)) ≡ₚ outstanding w) as Hout.
  { unfold outstanding. rewrite (delete_Permutation (inbox w) k (wk, m)) at 2 by done.
    simpl. by rewrite <- Permutation_middle. }
  unfold _onWorkerMessage. simpl.
  destruct (decide (id m ∈ callbacks (pool w))) as [Hcb|Hcb];
    [|by destruct Hcb; apply Hinv].
  unfold resolve. rewrite (inv_pending w Hinv m Hm).
  set (w1 := mkWorld _ (delete k (inbox w)) _).
  destruct (dispatch_fields w1) as (Hn & Hc & Hs).
  destruct (dispatch_live w1) as [Hlive Hbusy].
  assert (alive w1) as Halive by (left; simpl; by destruct (idleWorkers (pool w))).
  assert (NoDup (id m :: List.map id (queue (pool w) ++ List.map snd (delete k (inbox w)))))
    as Hnd.
  { change (NoDup (List.map id (m :: queue (pool w) ++ List.map snd (delete k (inbox w))))).
    rewrite (Permutation_map id Hout). apply (inv_NoDup w Hinv). }
  apply NoDup_cons in Hnd as [Hfresh Hnd].
  assert (forall m', m' ∈ queue (pool w) ++ List.map snd (delete k (inbox w)) ->
            m' ∈ outstanding w /\ id m' <> id m) as Hrest.
  { intros m' Hm'. split; [rewrite <- Hout; by right|].
    intros Heq. apply Hfresh. rewrite <- Heq. apply list_elem_of_fmap. by exists m'. }
  split; [|split; [by rewrite dispatch_outstanding | split; [by rewrite Hs | by apply Hlive]]].
  apply (poolInv_intro _ (queue (pool w) ++ List.map snd (delete k (inbox w))));
    rewrite ?Hn, ?Hc, ?Hs; simpl; try done.
  - by rewrite dispatch_outstanding.
  - intros m' [Hm' _]%Hrest. by apply Hinv.
  - intros m' [Hm' Hne]%Hrest. apply elem_of_difference.
    split; [by apply Hinv | by intros ?%elem_of_singleton].
  - intros m' [Hm' Hne]%Hrest. rewrite lookup_insert_ne by done. by apply Hinv.
  - intros i v. destruct (decide (i = id m)) as [->|Hne].
    + intros _. by apply Hinv.
    + rewrite lookup_insert_ne by done. apply Hinv.
Qed.

Lemma reachable_inv (w : world) : reachable w -> poolInv w.
Proof.
  induction 1 as [size | s t w _ IH | k w w' _ IH Hd | w _ IH].
  - apply newPool_inv.
  - by apply submitEmbed_spec.
  - by destruct (deliver_spec k w w' IH Hd) as (wk & m & _ & Hinv & _).
  - by apply terminate_inv.
Qed.

Lemma tracked_deliver (t : tree) (k : nat) (w w' : world) (ps : Z * tree) :
  poolInv w -> deliver k w = Some w' -> tracked t w ps -> tracked t w' ps.
Proof.
  intros Hinv Hd Htr.
  destruct (deliver_spec k w w' Hinv Hd) as (wk & m & _ & _ & Hout & Hs & _).
  assert (m ∈ outstanding w) as Hm by (rewrite <- Hout; by left).
  destruct Htr as [Hset | Hmsg].
  - left. rewrite Hs, lookup_insert_ne; [done|]. intros Heq.
    rewrite <- Heq, (inv_pending w Hinv m Hm) in Hset. done.
  - rewrite <- Hout in Hmsg. apply elem_of_cons in Hmsg as [<- | Hmsg]; [|by right].
    left. rewrite Hs. simpl. by rewrite lookup_insert_eq.
Qed.

Lemma tracked_submit (t s' t' : tree) (w : world) (ps : Z * tree) :
  poolInv w -> tracked t w ps -> tracked t (snd (submitEmbed s' t' w)) ps.
Proof.
  intros Hinv Htr. destruct (submitEmbed_spec s' t' w Hinv) as (_ & _ & Hout & Hs & _).
  destruct Htr as [Hset | Hmsg]; [left; by rewrite Hs | right].
  rewrite Hout. by right.
Qed.

Lemma inbox_nonempty (w : world) :
  poolInv w -> alive w -> outstanding w <> [] -> inbox w <> [].
Proof.
  intros Hinv Halive Hout Hin. destruct Halive as [Hidle | ?]; [|done].
  apply Hout. unfold outstanding. rewrite Hin. simpl. rewrite app_nil_r.
  destruct (queue (pool w)) eqn:Hq; [done|]. destruct Hidle.
  apply (inv_busy w Hinv). by rewrite Hq.
Qed.

Lemma await_unfold (sched : list nat) (p : Z) (w : world) :
  await sched p w =
    match settled w !! p with
    | Some v => Some (v, w, sched)
    | None =>
        match sched with
        | [] => None
        | k :: sched' =>
            w' ← deliver (k mod length (inbox w))%nat w; await sched' p w'
        end
    end.
Proof. by destruct sched. Qed.

(** [await] gives the value of the tracked promise, whatever the schedule;
    with a worker alive, it can only fail to return when the schedule has
    fewer events than there are tasks to answer. *)
Lemma await_spec (t : tree) (sched : list nat) : forall (w : world) (p : Z) (s : tree),
  poolInv w -> tracked t w (p, s) ->
  match await sched p w with
  | Some (v, w', sched') =>
      v = Matcher.embedsResult s t /\ poolInv w' /\
      (forall ps, tracked t w ps -> tracked t w' ps) /\
      (alive w -> alive w') /\
      (length sched' + length (outstanding w) = length sched + length (outstanding w'))%nat
  | None => alive w -> (length sched < length (outstanding w))%nat
  end.
Proof.
  induction sched as [|k sched IH]; intros w p s Hinv Htr; rewrite await_unfold;
    destruct (settled w !! p) as [v|] eqn:Hset.
  - destruct Htr as [Hv | Hmsg]; simpl in *.
    + split; [congruence | done].
    + apply (inv_pending w Hinv) in Hmsg. simpl in Hmsg. congruence.
  - destruct Htr as [Hv | Hmsg]; simpl in *; [congruence|]. intros _.
    destruct (outstanding w); [by apply elem_of_nil in Hmsg | simpl; lia].
  - destruct Htr as [Hv | Hmsg]; simpl in *.
    + split; [congruence | done].
    + apply (inv_pending w Hinv) in Hmsg. simpl in Hmsg. congruence.
  - assert (tracked t w (p, s)) as Htr' by done.
    destruct Htr as [Hv | Hmsg]; [simpl in Hv; congruence | simpl in Hmsg].
    destruct (deliver (k mod length (inbox w)) w) as [w1|] eqn:Hd.
    2:{ simpl. intros Halive.
        assert (inbox w <> []) as Hin.
        { apply inbox_nonempty; [done..|]. intros Hnil. rewrite Hnil in Hmsg.
          by apply elem_of_nil in Hmsg. }
        assert (k mod length (inbox w) < length (inbox w))%nat as Hlt.
        { apply Nat.mod_upper_bound. by destruct (inbox w). }
        unfold deliver in Hd. apply lookup_lt_is_Some_2 in Hlt as [[wk m] Hk].
        by rewrite Hk in Hd. }
    simpl.
    destruct (deliver_spec _ w w1 Hinv Hd) as (wk & m & _ & Hinv1 & Hout & _ & Halive1).
    apply Permutation_length in Hout. simpl in Hout.
    pose proof (tracked_deliver t _ w w1 (p, s) Hinv Hd Htr') as Htr1.
    specialize (IH w1 p s Hinv1 Htr1).
    destruct (await sched p w1) as [[[v w2] sched2]|]; simpl.
    2:{ intros _. specialize (IH Halive1). lia. }
    destruct IH as (Hv & Hinv2 & Hpres & Halive2 & Hlen). split; [done|]. split; [done|].
    split; [|split; [by intros _; apply Halive2 | lia]].
    intros ps Hps. apply Hpres. by apply (tracked_deliver t _ w w1 ps Hinv Hd).
Qed.

Lemma awaitAll_spec (t : tree) (trk : list (Z * tree)) : forall (sched : list nat) (w : world),
  poolInv w -> Forall (tracked t w) trk ->
  match awaitAll sched (List.map fst trk) w with
  | Some (b, w', sched') =>
      b = negb (existsb (fun s => Matcher.embedsResult s t) (List.map snd trk)) /\
      poolInv w' /\
      (length sched' + length (outstanding w) = length sched + length (outstanding w'))%nat
  | None => alive w -> (length sched < length (outstanding w))%nat
  end.
Proof.
  induction trk as [|[p s] trk IH]; intros sched w Hinv Htr; simpl; [done|].
  apply Forall_cons in Htr as [Hps Htr].
  pose proof (await_spec t sched w p s Hinv Hps) as Haw.
  destruct (await sched p w) as [[[v w1] sched1]|]; simpl; [|done].
  destruct Haw as (-> & Hinv1 & Hpres & Halive1 & Hlen).
  destruct (Matcher.embedsResult s t); simpl; [done|].
  assert (Forall (tracked t w1) trk) as Htr1 by (eapply Forall_impl; [exact Htr | exact Hpres]).
  specialize (IH sched1 w1 Hinv1 Htr1).
  destruct (awaitAll sched1 (List.map fst trk) w1) as [[[b w2] sched2]|].
  - destruct IH as (Hb & Hinv2 & Hlen2). split; [done|]. split; [done | lia].
  - intros Halive. specialize (IH (Halive1 Halive)). lia.
Qed.

Lemma submitAll_cons (prev : tree) (seq : list tree) (t : tree) (w : world) :
  submitAll (prev :: seq) t w =
    (fst (submitEmbed prev t w) :: fst (submitAll seq t (snd (submitEmbed prev t w))),
     snd (submitAll seq t (snd (submitEmbed prev t w)))).
Proof.
  cbn [submitAll]. destruct (submitEmbed prev t w) as [p w1]. cbn [fst snd].
  by destruct (submitAll seq t w1).
Qed.

Lemma submitAll_spec (t : tree) (seq : list tree) : forall w : world,
  poolInv w ->
  exists trk,
    fst (submitAll seq t w) = List.map fst trk /\ List.map snd trk = seq /\
    poolInv (snd (submitAll seq t w)) /\
    Forall (tracked t (snd (submitAll seq t w))) trk /\
    length (outstanding (snd (submitAll seq t w))) = (length (outstanding w) + length seq)%nat /\
    (forall ps, tracked t w ps -> tracked t (snd (submitAll seq t w)) ps) /\
    (alive w -> alive (snd (submitAll seq t w))).
Proof.
  induction seq as [|prev seq IH]; intros w Hinv.
  { exists []. split; [done|]. split; [done|]. split; [done|]. split; [done|].
    split; [simpl; lia | done]. }
  rewrite submitAll_cons. cbn [fst snd].
  pose proof (submitEmbed_spec prev t w Hinv) as (Hp & Hinv1 & Hout & Hs & Halive1).
  pose proof (fun ps => tracked_submit t prev t w ps Hinv) as Hpres.
  set (w1 := snd (submitEmbed prev t w)) in *.
  destruct (IH w1 Hinv1) as (trk & Hfst & Hsnd & Hinv2 & Htr & Hlen & Hpres2 & Halive2).
  set (w2 := snd (submitAll seq t w1)) in *.
  exists ((nextId (pool w), prev) :: trk). cbn [List.map fst snd].
  rewrite Hp, Hfst, Hsnd.
  split; [done|]. split; [done|]. split; [done|]. split; [|split; [|split]].
  - constructor; [|done]. apply Hpres2. right. cbn [fst snd]. rewrite Hout. by left.
  - apply Permutation_length in Hout. simpl in Hout. simpl. lia.
  - intros ps Hps. by apply Hpres2, Hpres.
  - intros Halive. by apply Halive2, Halive1.
Qed.

Lemma isValidExtension_spec (sched : list nat) (seq : list tree) (t : tree) (w : world) :
  poolInv w ->
  match isValidExtension sched seq t w with
  | Some (b, _, _) => b = negb (existsb (fun s => Matcher.embedsResult s t) seq)
  | None => alive w -> (length sched < length (outstanding w) + length seq)%nat
  end.
Proof.
  intros Hinv. unfold isValidExtension. destruct seq as [|s0 seq0]; [done|].
  set (seq := s0 :: seq0).
  destruct (submitAll_spec t seq w Hinv)
    as (trk & Hfst & Hsnd & Hinv1 & Htr & Hlen & _ & Halive1).
  destruct (submitAll seq t w) as [ps w1]. simpl in *. subst ps.
  pose proof (awaitAll_spec t trk sched w1 Hinv1 Htr) as Haw.
  destruct (awaitAll sched (List.map fst trk) w1) as [[[b w2] sched2]|].
  - destruct Haw as (-> & _). by rewrite Hsnd.
  - intros Halive. specialize (Haw (Halive1 Halive)). lia.
Qed.



End PoolFacts.




(** ** One label *)

Section OneLabel.

Lemma embedsResult_leaf (l : Z) (t : tree) :
  label t = l -> Matcher.embedsResult (leaf l) t = true.
Proof.
  intros <-. rewrite embedsResult_eq, rootEmbedsResult_eq. simpl.
  by rewrite Z.eqb_refl.
Qed.

Lemma labelsWithin_1_label (t : tree) : labelsWithin 1 t = true -> label t = 1.
Proof.
  destruct t as [l c]. simpl.
  intros [[H1%Z.leb_le H2%Z.leb_le]%andb_true_iff _]%andb_true_iff. lia.
Qed.

End OneLabel.

(** C7, as stated, fails: with [n = 1], [treesOfSize(2, 1)] is the one tree
    [1(1)], which is not a single node; [embeds(1(1), 1)] is false; and the
    sequence [1(1), 1] is a valid one of length 2. *)
Lemma single_node_counterexample :
  fst <$> treesOfSize (treesOfSizeDepth 2) 2 1 ∅ = Some [Node 1 [leaf 1]] /\
  Node 1 [leaf 1] <> leaf 1 /\
  Matcher.embeds (Matcher.embedsDepth (leaf 1)) (Node 1 [leaf 1]) (leaf 1) = Some false /\
  (fun r => fst (fst r)) <$>
    Pool.isValidExtension [0%nat] [Node 1 [leaf 1]] (leaf 1) (Pool.newPool 1) = Some true.
Proof. split; [by vm_compute|]. split; [done|]. split; by vm_compute. Qed.

(** C7, amended: with [n = 1], every tree of [treesOfSize(size, 1)] carries
    the label 1 only, and for [size = 1] it is the single node 1;
    [embeds(single node 1, t)] returns true for every such tree [t], so
    [isValidExtension] returns false for it once the single node 1 is in the
    sequence. *)
Theorem one_label_enumeration (size : Z) (extra : nat) (cache : treeCache) :
  1 <= size -> cacheReachable cache ->
  exists ts cache',
    treesOfSize (treesOfSizeDepth size + extra) size 1 cache = Some (ts, cache') /\
    (size = 1 -> ts = [leaf 1]) /\
    forall t, t ∈ ts ->
      labelsWithin 1 t = true /\
      Matcher.embeds (Matcher.embedsDepth t + extra) (leaf 1) t = Some true /\
      forall sched seq w, Pool.reachable w -> leaf 1 ∈ seq ->
        match Pool.isValidExtension sched seq t w with
        | Some (b, _, _) => b = false
        | None =>
            Pool.alive w -> (length sched < length (Pool.outstanding w) + length seq)%nat
        end.
Proof.
  intros _ Hreach%cacheReachable_coherent.
  destruct (treesOfSize_value (treesOfSizeDepth size + extra) size 1 cache Hreach)
    as (cache' & Hcall & _); [lia|].
  exists (treesOfSizeValue size 1), cache'. split; [done|]. split.
  { intros ->. by rewrite treesOfSizeValue_eq. }
  intros t Ht. pose proof (treesOfSizeValue_labels 1 size t Ht) as Hl.
  pose proof (embedsResult_leaf 1 t (labelsWithin_1_label t Hl)) as He.
  split; [done|]. split.
  - rewrite embeds_enough by lia. by rewrite He.
  - intros sched seq w Hw%reachable_inv Hin.
    pose proof (isValidExtension_spec sched seq t w Hw) as H.
    destruct (Pool.isValidExtension sched seq t w) as [[[b w'] sched']|]; [|done].
    subst b. apply negb_false_iff, existsb_exists. exists (leaf 1).
    split; [by apply list_elem_of_In | done].
Qed.

Lemma one_label_enumeration_witness :
  (1 <= 2 /\ cacheReachable ∅) /\
  exists ts cache',
    treesOfSize (treesOfSizeDepth 2 + 0) 2 1 ∅ = Some (ts, cache') /\
    (2 = 1 -> ts = [leaf 1]) /\
    forall t, t ∈ ts ->
      labelsWithin 1 t = true /\
      Matcher.embeds (Matcher.embedsDepth t + 0) (leaf 1) t = Some true /\
      forall sched seq w, Pool.reachable w -> leaf 1 ∈ seq ->
        match Pool.isValidExtension sched seq t w with
        | Some (b, _, _) => b = false
        | None =>
            Pool.alive w -> (length sched < length (Pool.outstanding w) + length seq)%nat
        end.
Proof.
  split; [split; [lia | constructor]|].
  apply (one_label_enumeration 2 0 ∅); [lia | constructor].
Defined.

(** ** The generator of all trees *)

Section AllTreesFacts.

Lemma treesOfSize_reachable_value (size n : Z) (extra : nat) (cache : treeCache) :
  cacheReachable cache ->
  fst <$> treesOfSize (treesOfSizeDepth size + extra) size n cache
  = Some (treesOfSizeValue size n).
Proof.
  intros Hreach%cacheReachable_coherent.
  destruct (treesOfSize_value (treesOfSizeDepth size + extra) size n cache Hreach)
    as (cache' & -> & _); [lia | done].
Qed.

Lemma allTreesFrom_value (n : Z) (fuel rounds : nat) : forall (size : Z) (cache : treeCache),
  cacheCoherent cache ->
  (treesOfSizeDepth (size + Z.of_nat rounds) <= fuel)%nat ->
  exists cache',
    allTreesFrom fuel rounds size n cache
    = Some (concat (List.map (fun s => treesOfSizeValue s n) (seqZ size (Z.of_nat rounds))),
            cache') /\
    cacheCoherent cache'.
Proof.
  unfold treesOfSizeDepth.
  induction rounds as [|k IH]; intros size cache Hcoh Hfuel; [by exists cache|].
  cbn [allTreesFrom].
  destruct (treesOfSize_value fuel size n cache Hcoh) as (cache1 & -> & Hcoh1);
    [unfold treesOfSizeDepth; lia|].
  cbn [mbind option_bind].
  destruct (IH (size + 1) cache1 Hcoh1) as (cache2 & -> & Hcoh2); [lia|].
  exists cache2. split; [|done]. cbn [mbind option_bind].
  rewrite (seqZ_cons size) by lia.
  replace (Z.succ size) with (size + 1) by lia.
  replace (Z.pred (Z.of_nat (S k))) with (Z.of_nat k) by lia. done.
Qed.

Lemma startSize_pos (n : Z) (store : treeCache) : 1 <= Async.startSize n store.
Proof.
  unfold Async.startSize.
  destruct (Async.getMaxCachedSizeForN n store >? 0) eqn:E; [|done].
  apply Z.gtb_lt in E. lia.
Qed.

End AllTreesFacts.

(** C6, as stated, fails for the variant with the IndexedDB store: when the
    store holds the trees of size 2 for [n = 1], [allTrees(1)] starts with
    the tree of size 2 and goes on to size 3; the single node, the tree of
    size 1, is not yielded. *)
Lemma allTrees_resume_counterexample :
  exists store,
    treesOfSize (treesOfSizeDepth 2) 2 1 ∅ = Some ([Node 1 [leaf 1]], store) /\
    fst <$> Async.allTrees (treesOfSizeDepth 3) 2 1 store
    = Some [Node 1 [leaf 1]; Node 1 [leaf 1; leaf 1]; Node 1 [Node 1 [leaf 1]]] /\
    fst <$> treesOfSize (treesOfSizeDepth 1) 1 1 ∅ = Some [leaf 1].
Proof. eexists. split; [by vm_compute|]. split; by vm_compute. Qed.

(** C6, amended: for [n >= 1], [allTrees(n)] yields the trees of
    [treesOfSize(s0, n)] in order, then those of [treesOfSize(s0 + 1, n)],
    and so on, none of these arrays being empty; [s0] is 1 in the variant
    with the in-memory table, and the start size [s0 >= 1] that the variant
    with the IndexedDB store computes from the store (1 when no size is
    stored for [n]). So every tree of [treesOfSize(s, n)] with [s >= s0]
    appears (within [s - s0 + 1] turns of the loop), the sizes in
    increasing order from [s0]. *)
Theorem allTrees_sizes_in_order (n : Z) (rounds extra : nat) (cache : treeCache) :
  1 <= n -> cacheReachable cache ->
  let yielded s0 :=
    concat (List.map (fun s => treesOfSizeValue s n) (seqZ s0 (Z.of_nat rounds))) in
  let fuel s0 := (treesOfSizeDepth (s0 + Z.of_nat rounds) + extra)%nat in
  let s0 := Async.startSize n cache in
  (exists cache', Sync.allTrees (fuel 1) rounds n cache = Some (yielded 1, cache')) /\
  (exists store', Async.allTrees (fuel s0) rounds n cache = Some (yielded s0, store')) /\
  1 <= s0 /\
  (Async.getMaxCachedSizeForN n cache = 0 -> s0 = 1) /\
  (forall s, 1 <= s ->
     treesOfSizeValue s n <> [] /\
     forall cache0 extra0, cacheReachable cache0 ->
       fst <$> treesOfSize (treesOfSizeDepth s + extra0) s n cache0
       = Some (treesOfSizeValue s n)) /\
  (forall b s t, b <= s < b + Z.of_nat rounds ->
     t ∈ treesOfSizeValue s n -> t ∈ yielded b).
Proof.
  intros Hn Hreach yielded fuel s0.
  pose proof (cacheReachable_coherent cache Hreach) as Hcoh.
  split; [|split; [|split; [|split; [|split]]]].
  - destruct (allTreesFrom_value n (fuel 1) rounds 1 cache Hcoh) as (c & Hc & _);
      [unfold fuel; lia|]. by exists c.
  - destruct (allTreesFrom_value n (fuel s0) rounds s0 cache Hcoh) as (c & Hc & _);
      [unfold fuel; lia|]. by exists c.
  - apply startSize_pos.
  - unfold s0, Async.startSize. by intros ->.
  - intros s Hs. split.
    + destruct (treesOfSizeValue_nonempty n Hn s Hs) as [t Ht].
      intros Hnil. rewrite Hnil in Ht. by apply elem_of_nil in Ht.
    + intros cache0 extra0. apply treesOfSize_reachable_value.
  - intros b s t Hs Ht. unfold yielded. apply list_elem_of_In, in_concat.
    exists (treesOfSizeValue s n). split; [|by apply list_elem_of_In].
    apply in_map_iff. exists s. split; [done|].
    apply list_elem_of_In, elem_of_seqZ. lia.
Qed.

Lemma allTrees_sizes_in_order_witness :
  (1 <= 2 /\ cacheReachable ∅) /\
  let n := 2 in
  let rounds := 2%nat in
  let extra := 0%nat in
  let cache : treeCache := ∅ in
  let yielded s0 :=
    concat (List.map (fun s => treesOfSizeValue s n) (seqZ s0 (Z.of_nat rounds))) in
  let fuel s0 := (treesOfSizeDepth (s0 + Z.of_nat rounds) + extra)%nat in
  let s0 := Async.startSize n cache in
  (exists cache', Sync.allTrees (fuel 1) rounds n cache = Some (yielded 1, cache')) /\
  (exists store', Async.allTrees (fuel s0) rounds n cache = Some (yielded s0, store')) /\
  1 <= s0 /\
  (Async.getMaxCachedSizeForN n cache = 0 -> s0 = 1) /\
  (forall s, 1 <= s ->
     treesOfSizeValue s n <> [] /\
     forall cache0 extra0, cacheReachable cache0 ->
       fst <$> treesOfSize (treesOfSizeDepth s + extra0) s n cache0
       = Some (treesOfSizeValue s n)) /\
  (forall b s t, b <= s < b + Z.of_nat rounds ->
     t ∈ treesOfSizeValue s n -> t ∈ yielded b).
Proof.
  split; [split; [lia | constructor]|].
  apply (allTrees_sizes_in_order 2 2 0 ∅); [lia | constructor].
Defined.

(** * Further properties

    ** The embedding matcher *)

Section MatcherLaws.

Import Matcher.

Lemma subtrees_unfold (t : tree) : subtrees t = t :: flat_map subtrees (children t).
Proof. by destruct t. Qed.

Lemma labelsOf_unfold (t : tree) : labelsOf t = label t :: flat_map labelsOf (children t).
Proof. by destruct t. Qed.

Lemma existsb_flat_map {A B : Type} (f : B -> bool) (g : A -> list B) (l : list A) :
  existsb f (flat_map g l) = existsb (fun x => existsb f (g x)) l.
Proof.
  induction l as [|x l IH]; simpl; [done|]. by rewrite existsb_app, IH.
Qed.

Lemma existsb_ext_in {A : Type} (f g : A -> bool) (l : list A) :
  Forall (fun x => f x = g x) l -> existsb f l = existsb g l.
Proof. induction 1 as [|x l Hx _ IH]; simpl; [done | by rewrite Hx, IH]. Qed.

(** [embeds] tries [rootEmbeds] at every node of the target. *)
Lemma embedsResult_subtrees (A B : tree) :
  embedsResult A B = existsb (rootEmbedsResult A) (subtrees B).
Proof.
  induction B as [l c IH] using tree_ind'.
  rewrite embedsResult_eq. simpl. f_equal.
  rewrite existsb_flat_map. by apply existsb_ext_in.
Qed.

Lemma rootEmbedsResult_leaf (l : Z) (t : tree) :
  rootEmbedsResult (leaf l) t = (l =? label t).
Proof. rewrite rootEmbedsResult_eq. simpl. by destruct (l =? label t). Qed.

Lemma subtrees_labels (l : Z) (B : tree) :
  existsb (fun t => l =? label t) (subtrees B) = existsb (Z.eqb l) (labelsOf B).
Proof.
  induction B as [l' c IH] using tree_ind'. simpl. f_equal.
  rewrite !existsb_flat_map. by apply existsb_ext_in.
Qed.

End MatcherLaws.

(** X1: [embeds(A, B)] returns true exactly when [rootEmbeds(A, B')] returns
    true for some node [B'] of [B] ([B] itself or a tree below it). *)
Theorem embeds_iff_rootEmbeds_somewhere (A B : tree) (extra : nat) :
  Matcher.embeds (Matcher.embedsDepth B + extra) A B = Some true <->
  exists B', B' ∈ subtrees B /\
             Matcher.rootEmbeds (Matcher.rootEmbedsDepth B' + extra) A B' = Some true.
Proof.
  rewrite embeds_enough by lia. rewrite embedsResult_subtrees. split.
  - intros [= (B' & HB' & Hr)%existsb_exists]. exists B'.
    split; [by apply list_elem_of_In|]. rewrite rootEmbeds_enough by lia. by rewrite Hr.
  - intros (B' & HB' & Hr). rewrite rootEmbeds_enough in Hr by lia.
    injection Hr as Hr. f_equal. apply existsb_exists. exists B'.
    split; [by apply list_elem_of_In | done].
Qed.

(** X2: a pattern that is a single node embeds into [B] exactly when its
    label is the label of some node of [B]. *)
Theorem embeds_single_node (l : Z) (B : tree) (extra : nat) :
  Matcher.embeds (Matcher.embedsDepth B + extra) (leaf l) B
  = Some (bool_decide (l ∈ labelsOf B)).
Proof.
  rewrite embeds_enough by lia. f_equal. rewrite embedsResult_subtrees.
  rewrite (existsb_ext_in _ (fun t => l =? label t))
    by (apply Forall_forall; intros; apply rootEmbedsResult_leaf).
  rewrite subtrees_labels.
  destruct (existsb (Z.eqb l) (labelsOf B)) eqn:E.
  - apply existsb_exists in E as (x & Hx%list_elem_of_In & ->%Z.eqb_eq).
    by rewrite bool_decide_true.
  - rewrite bool_decide_false; [done|]. intros Hin%list_elem_of_In.
    assert (existsb (Z.eqb l) (labelsOf B) = true) as E'; [|congruence].
    apply existsb_exists. exists l. split; [done | apply Z.eqb_refl].
Qed.

Section MatcherLabels.

Import Matcher.

Lemma rootEmbeds_matchChildren_labels (fuel : nat) :
  (forall p t, rootEmbeds fuel p t = Some true -> labelsOf p ⊆+ labelsOf t) /\
  (forall pk tk, matchChildren fuel pk tk = Some true ->
     flat_map labelsOf pk ⊆+ flat_map labelsOf tk).
Proof.
  induction fuel as [|f [IHr IHm]]; [split; intros; discriminate|].
  split.
  - intros p t. simpl. destruct (label p =? label t) eqn:El; [|done]. simpl.
    apply Z.eqb_eq in El. rewrite (labelsOf_unfold p), (labelsOf_unfold t), El.
    destruct (children p) eqn:E.
    + intros _. simpl. apply submseteq_skip, submseteq_nil_l.
    + intros H%IHm. by apply submseteq_skip.
  - intros pk tk. simpl. destruct pk as [|first rest]; [intros _; apply submseteq_nil_l|].
    intros (before & tchild & after & -> & Hstep)%forSomeTail_true_inv.
    rewrite flat_map_app. simpl. apply submseteq_inserts_l.
    assert (matchChildren f (first :: rest) (children tchild) = Some true ->
            labelsOf first ++ flat_map labelsOf rest
            ⊆+ labelsOf tchild ++ flat_map labelsOf after) as Hdeep.
    { intros H%IHm. simpl in H. etrans; [exact H|]. rewrite (labelsOf_unfold tchild).
      by apply submseteq_inserts_r, submseteq_cons. }
    unfold matchStep in Hstep.
    destruct (rootEmbeds f first tchild) as [[]|] eqn:E1; [| by auto | done].
    destruct (matchChildren f rest after) as [[]|] eqn:E2; [| by auto | done].
    apply submseteq_app; [by apply IHr | by apply IHm].
Qed.

Lemma labelsOf_child (c B : tree) : c ∈ children B -> labelsOf c ⊆+ labelsOf B.
Proof.
  intros (xs & ys & E)%list_elem_of_split. rewrite (labelsOf_unfold B), E, flat_map_app.
  simpl. apply submseteq_cons.
  by apply submseteq_inserts_l, submseteq_inserts_r.
Qed.

End MatcherLabels.

(** X3: when [embeds(A, B)] returns true, the labels of [A], counted with
    their multiplicities, are among the labels of [B]. *)
Theorem embeds_labels_included (fuel : nat) (A B : tree) :
  Matcher.embeds fuel A B = Some true -> labelsOf A ⊆+ labelsOf B.
Proof.
  revert A B. induction fuel as [|f IH]; intros A B; [done|]. simpl.
  destruct (Matcher.rootEmbeds f A B) as [[]|] eqn:E; [| |done].
  - intros _. by apply (rootEmbeds_matchChildren_labels f).
  - intros (c & Hc & Hb)%forSome_true_inv. apply IH in Hb.
    etrans; [exact Hb|]. by apply labelsOf_child.
Qed.

Lemma embeds_labels_included_witness :
  Matcher.embeds 10 (Node 1 [leaf 2]) (Node 1 [Node 3 [leaf 2]]) = Some true /\
  labelsOf (Node 1 [leaf 2]) ⊆+ labelsOf (Node 1 [Node 3 [leaf 2]]).
Proof.
  split; [reflexivity|].
  apply (embeds_labels_included 10 (Node 1 [leaf 2]) (Node 1 [Node 3 [leaf 2]])).
  reflexivity.
Defined.

Section MatcherMonotone.

Import Matcher.

Lemma matchChildrenResult_target_sublist (tk tk' : list tree) :
  sublist tk tk' ->
  forall pk, matchChildrenResult pk tk = true -> matchChildrenResult pk tk' = true.
Proof.
  induction 1 as [|x l1 l2 _ IH|x l1 l2 _ IH]; intros pk; [done|..];
    (destruct pk as [|first rest]; [by rewrite !matchChildrenResult_nil|]).
  - rewrite !matchChildrenResult_cons_cons.
    intros [[[Hr Hm]%andb_true_iff | Hd]%orb_true_iff | Ha]%orb_true_iff.
    + by rewrite Hr, (IH _ Hm).
    + rewrite Hd. by rewrite orb_true_r.
    + rewrite (IH _ Ha). by rewrite orb_true_r.
  - intros H%IH. rewrite matchChildrenResult_cons_cons, H. by rewrite orb_true_r.
Qed.

Lemma matchChildrenResult_pattern_sublist (n : nat) : forall tk pk pk',
  (forestCount tk <= n)%nat -> sublist pk' pk ->
  matchChildrenResult pk tk = true -> matchChildrenResult pk' tk = true.
Proof.
  induction n as [|n IH]; intros tk pk pk' Hn Hsub;
    (destruct pk' as [|f' r']; [by rewrite matchChildrenResult_nil|]);
    (destruct pk as [|first rest]; [by apply sublist_nil_r in Hsub|]);
    (destruct tk as [|tchild after]; [done|]);
    rewrite forestCount_cons in Hn; pose proof (nodeCount_pos tchild) as Hpos; [lia|].
  pose proof (nodeCount_children tchild) as Hc.
  rewrite !matchChildrenResult_cons_cons.
  intros [[[Hr Hm]%andb_true_iff | Hd]%orb_true_iff | Ha]%orb_true_iff.
  - apply sublist_cons_r in Hsub as [Hsub | (l' & [= -> ->] & Hsub)].
    + rewrite (IH after rest (f' :: r')); [by rewrite orb_true_r | lia | done |].
      apply (matchChildrenResult_target_sublist after after); [done|].
      exact Hm.
    + by rewrite Hr, (IH after rest l' ltac:(lia) Hsub Hm).
  - rewrite (IH (children tchild) (first :: rest) (f' :: r') ltac:(lia) Hsub Hd).
    by rewrite orb_true_r.
  - rewrite (IH after (first :: rest) (f' :: r') ltac:(lia) Hsub Ha).
    by rewrite orb_true_r.
Qed.

Lemma rootEmbedsResult_target_sublist (A : tree) (l : Z) (c c' : list tree) :
  sublist c c' -> rootEmbedsResult A (Node l c) = true ->
  rootEmbedsResult A (Node l c') = true.
Proof.
  intros Hsub. rewrite !rootEmbedsResult_eq. simpl.
  destruct (negb (label A =? l)); [done|]. destruct (children A); [done|].
  by apply matchChildrenResult_target_sublist.
Qed.

Lemma rootEmbedsResult_pattern_sublist (l : Z) (pk pk' : list tree) (B : tree) :
  sublist pk' pk -> rootEmbedsResult (Node l pk) B = true ->
  rootEmbedsResult (Node l pk') B = true.
Proof.
  intros Hsub. rewrite !rootEmbedsResult_eq. simpl.
  destruct (negb (l =? label B)); [done|].
  destruct pk' as [|f' r']; [done|].
  destruct pk as [|first rest]; [by apply sublist_nil_r in Hsub|].
  by apply (matchChildrenResult_pattern_sublist (forestCount (children B))).
Qed.

End MatcherMonotone.

(** X4: adding children to the root of the target, anywhere among the
    existing ones, keeps an embedding: if [embeds(A, B)] returns true and
    [B'] is [B] with more children at its root, [embeds(A, B')] returns
    true. *)
Theorem embeds_target_children_added (A : tree) (l : Z) (c c' : list tree) (extra : nat) :
  sublist c c' ->
  Matcher.embeds (Matcher.embedsDepth (Node l c) + extra) A (Node l c) = Some true ->
  Matcher.embeds (Matcher.embedsDepth (Node l c') + extra) A (Node l c') = Some true.
Proof.
  intros Hsub. rewrite !embeds_enough by lia. intros [= H]. f_equal.
  rewrite embedsResult_eq in *. simpl in *.
  apply orb_true_iff in H as [Hr | He].
  - by rewrite (rootEmbedsResult_target_sublist A l c c' Hsub Hr).
  - apply existsb_exists in He as (x & Hx%list_elem_of_In & Hx').
    apply orb_true_iff. right. apply existsb_exists. exists x.
    split; [|done]. apply list_elem_of_In. by apply (elem_of_sublist c c').
Qed.

Lemma embeds_target_children_added_witness :
  let A := Node 1 [leaf 2] in
  (sublist [leaf 2] [leaf 3; leaf 2; leaf 4] /\
   Matcher.embeds (Matcher.embedsDepth (Node 1 [leaf 2]) + 0) A (Node 1 [leaf 2])
   = Some true) /\
  Matcher.embeds (Matcher.embedsDepth (Node 1 [leaf 3; leaf 2; leaf 4]) + 0) A
    (Node 1 [leaf 3; leaf 2; leaf 4]) = Some true.
Proof.
  intros A.
  assert (sublist [leaf 2] [leaf 3; leaf 2; leaf 4]) as Hsub
    by (apply sublist_cons, sublist_skip, sublist_nil_l).
  split; [split; [exact Hsub | reflexivity]|].
  apply (embeds_target_children_added A 1 [leaf 2] [leaf 3; leaf 2; leaf 4] 0 Hsub).
  reflexivity.
Defined.

(** X5: removing children from the root of the pattern keeps an embedding:
    if [embeds(A, B)] returns true and [A'] is [A] with some of the
    children of its root left out, [embeds(A', B)] returns true. *)
Theorem embeds_pattern_children_removed (l : Z) (pk pk' : list tree) (B : tree)
    (extra : nat) :
  sublist pk' pk ->
  Matcher.embeds (Matcher.embedsDepth B + extra) (Node l pk) B = Some true ->
  Matcher.embeds (Matcher.embedsDepth B + extra) (Node l pk') B = Some true.
Proof.
  intros Hsub. rewrite !embeds_enough by lia. intros [= H]. f_equal.
  rewrite embedsResult_subtrees in *.
  apply existsb_exists in H as (B' & HB' & Hr). apply existsb_exists. exists B'.
  split; [done|]. by apply (rootEmbedsResult_pattern_sublist l pk pk').
Qed.

Lemma embeds_pattern_children_removed_witness :
  let B := Node 1 [leaf 3; Node 5 [leaf 2; leaf 4]] in
  (sublist [leaf 4] [leaf 2; leaf 4] /\
   Matcher.embeds (Matcher.embedsDepth B + 0) (Node 5 [leaf 2; leaf 4]) B = Some true) /\
  Matcher.embeds (Matcher.embedsDepth B + 0) (Node 5 [leaf 4]) B = Some true.
Proof.
  intros B.
  assert (sublist [leaf 4] [leaf 2; leaf 4]) as Hsub
    by (apply sublist_cons, sublist_skip, sublist_nil_l).
  split; [split; [exact Hsub | reflexivity]|].
  apply (embeds_pattern_children_removed 5 [leaf 2; leaf 4] [leaf 4] B 0 Hsub).
  reflexivity.
Defined.

(** ** The printed form of a tree *)

Section ToStringFacts.

Local Open Scope string_scope.
Local Arguments String.append !_ _ : simpl nomatch.

Lemma treeToString_unfold (l : Z) (c : list tree) :
  treeToString (Node l c)
  = String_ l ++ match c with
                 | [] => ""
                 | _ :: _ => "(" ++ join ", " (List.map treeToString c) ++ ")"
                 end.
Proof. destruct c; simpl; [by rewrite append_nil_r | done]. Qed.

Lemma joinToString_prefix (c1 : list tree) :
  Forall (fun t1 => forall t2 r1 r2, stopStart r1 -> stopStart r2 ->
            treeToString t1 ++ r1 = treeToString t2 ++ r2 -> t1 = t2 /\ r1 = r2) c1 ->
  forall (c2 : list tree) (r1 r2 : string),
  c1 <> [] -> c2 <> [] ->
  join ", " (List.map treeToString c1) ++ ")" ++ r1
  = join ", " (List.map treeToString c2) ++ ")" ++ r2 ->
  c1 = c2 /\ r1 = r2.
Proof.
  induction 1 as [|x1 xs1 Hx1 _ IH]; intros [|x2 xs2] r1 r2 Hn1 Hn2; try done.
  simpl List.map. rewrite !join_cons, !append_assoc. intros E.
  apply Hx1 in E as [<- E].
  - destruct xs1 as [|y1 ys1], xs2 as [|y2 ys2]; simpl in E; try done.
    + by injection E as ->.
    + rewrite !append_assoc in E.
      change (String "," (String " "
                (join ", " (List.map treeToString (y1 :: ys1)) ++ ")" ++ r1))
              = String "," (String " "
                (join ", " (List.map treeToString (y2 :: ys2)) ++ ")" ++ r2))) in E.
      do 2 apply String_inv_tail in E.
      apply IH in E as [-> ->]; done.
  - destruct xs1; simpl; auto.
  - destruct xs2; simpl; auto.
Qed.

Lemma treeToString_prefix (t1 : tree) : forall (t2 : tree) (r1 r2 : string),
  stopStart r1 -> stopStart r2 ->
  treeToString t1 ++ r1 = treeToString t2 ++ r2 -> t1 = t2 /\ r1 = r2.
Proof.
  induction t1 as [l1 c1 IH] using tree_ind'. intros [l2 c2] r1 r2 H1 H2.
  rewrite !treeToString_unfold, !append_assoc. intros E.
  apply String_prefix in E as [-> E];
    [|destruct c1; [by apply stopStart_nonDigit | done]
     |destruct c2; [by apply stopStart_nonDigit | done]].
  destruct c1 as [|x1 xs1], c2 as [|x2 xs2].
  - simpl in E. by subst.
  - simpl in E. subst r1. simpl in H1. by destruct H1.
  - simpl in E. subst r2. simpl in H2. by destruct H2.
  - rewrite !append_assoc in E.
    change (String "(" (join ", " (List.map treeToString (x1 :: xs1)) ++ ")" ++ r1)
            = String "(" (join ", " (List.map treeToString (x2 :: xs2)) ++ ")" ++ r2)) in E.
    apply String_inv_tail in E.
    apply (joinToString_prefix _ IH) in E as [-> ->]; done.
Qed.

Lemma removeBlanks_app (a b : string) :
  removeBlanks (a ++ b) = removeBlanks a ++ removeBlanks b.
Proof.
  induction a as [|ch a IH]; simpl; [done|].
  destruct (Ascii.eqb ch " "); simpl; by rewrite IH.
Qed.

Lemma removeBlanks_digits (d : uint) :
  removeBlanks (NilEmpty.string_of_uint d) = NilEmpty.string_of_uint d.
Proof. induction d; simpl; by rewrite ?IHd. Qed.

Lemma removeBlanks_String_ (z : Z) : removeBlanks (String_ z) = String_ z.
Proof.
  rewrite String_digits, removeBlanks_app, removeBlanks_digits.
  by destruct (z <? 0)%Z.
Qed.

Lemma removeBlanks_join (xs : list string) :
  removeBlanks (join ", " xs) = join "," (List.map removeBlanks xs).
Proof.
  induction xs as [|x xs IH]; [done|]. simpl List.map. rewrite !join_cons.
  rewrite removeBlanks_app. f_equal.
  destruct xs as [|y ys]; [done|].
  change (removeBlanks (", " ++ join ", " (y :: ys)))
    with (String "," (removeBlanks (join ", " (y :: ys)))).
  by rewrite IH.
Qed.

End ToStringFacts.

(** X6: the printed form determines the tree: two trees with the same
    [treeToString] are equal. *)
Theorem treeToString_injective (t1 t2 : tree) :
  treeToString t1 = treeToString t2 <-> t1 = t2.
Proof.
  split; [|by intros ->]. intros E.
  apply (treeToString_prefix t1 t2 "" ""); [done..|].
  by rewrite !append_nil_r.
Qed.

(** X7: [treeKey] is [treeToString] without its blanks. *)
Theorem treeKey_treeToString (t : tree) : treeKey t = removeBlanks (treeToString t).
Proof.
  induction t as [l c IH] using tree_ind'.
  rewrite treeKey_unfold, treeToString_unfold, removeBlanks_app, removeBlanks_String_.
  f_equal. destruct c as [|x xs]; [done|]. unfold keyTail.
  rewrite !removeBlanks_app, removeBlanks_join, List.map_map. simpl removeBlanks at 1 3.
  do 3 f_equal. apply map_ext_in. intros y Hy%list_elem_of_In.
  rewrite Forall_forall in IH. by apply IH.
Qed.

(** ** Compositions and cartesian products *)

Section CompositionLaws.

Lemma forYield_flat_map {A B : Type} (body : A -> option (list B)) (g : A -> list B)
    (xs : list A) :
  (forall x, x ∈ xs -> body x = Some (g x)) -> forYield body xs = Some (flat_map g xs).
Proof.
  induction xs as [|x xs IH]; intros H; simpl; [done|].
  rewrite (H x) by left. simpl. rewrite IH; [done|]. intros y Hy. apply H. by right.
Qed.

Lemma compositions_S (f : nat) (total : Z) :
  compositions (S f) total =
    if total =? 0 then Some [[]]
    else
      forYield
        (fun first =>
           rests ← compositions f (total - first);
           Some (List.map (fun rest => first :: rest) rests))
        (fromTo 1 total).
Proof. reflexivity. Qed.

(** The equation of the generator. *)
Lemma compositionsValue_eq (total : Z) :
  compositionsValue total =
    if total =? 0 then [[]]
    else flat_map
           (fun first => List.map (fun rest => first :: rest)
                           (compositionsValue (total - first)))
           (fromTo 1 total).
Proof.
  pose proof (compositions_enough (S (S (Z.to_nat total))) total ltac:(lia)) as E.
  rewrite compositions_S in E. destruct (total =? 0); [congruence|].
  rewrite (forYield_flat_map _
    (fun first => List.map (fun rest => first :: rest)
                    (compositionsValue (total - first)))) in E; [congruence|].
  intros first [H1 H2]%elem_of_seqZ. cbv beta.
  by rewrite compositions_enough by lia.
Qed.

Lemma sumZ_nonneg (c : list Z) : Forall (fun x => 1 <= x) c -> 0 <= sumZ c.
Proof. induction 1; simpl; lia. Qed.

Lemma compositionsValue_complete (c : list Z) :
  Forall (fun x => 1 <= x) c -> c ∈ compositionsValue (sumZ c).
Proof.
  induction 1 as [|x r Hx Hr IH].
  - rewrite compositionsValue_eq. simpl. by left.
  - pose proof (sumZ_nonneg r Hr) as Hpos. rewrite compositionsValue_eq. simpl sumZ.
    replace (x + sumZ r =? 0) with false by (symmetry; apply Z.eqb_neq; lia).
    apply list_elem_of_In, in_flat_map. exists x.
    split; [apply list_elem_of_In, elem_of_seqZ; lia|].
    apply in_map. replace (x + sumZ r - x) with (sumZ r) by lia.
    by apply list_elem_of_In.
Qed.

Lemma NoDup_flat_map_cons {A : Type} (F : A -> list (list A)) (xs : list A) :
  NoDup xs -> (forall x, x ∈ xs -> NoDup (F x)) ->
  NoDup (flat_map (fun x => List.map (fun r => x :: r) (F x)) xs).
Proof.
  induction 1 as [|x xs Hx Hxs IH]; intros HF; simpl; [constructor|].
  apply NoDup_app. split; [|split].
  - apply (NoDup_fmap_2_strong (cons x)); [by intros ?? _ _ [=] | apply HF; by left].
  - intros c (r & -> & _)%list_elem_of_fmap Hin.
    apply list_elem_of_In, in_flat_map in Hin as (y & Hy%list_elem_of_In & Hin).
    apply in_map_iff in Hin as (r' & [= -> _] & _). done.
  - apply IH. intros y Hy. apply HF. by right.
Qed.

Lemma compositionsValue_NoDup (total : Z) : NoDup (compositionsValue total).
Proof.
  assert (forall (k : nat) total, (Z.to_nat total <= k)%nat ->
            NoDup (compositionsValue total)) as H.
  { induction k as [|k IH]; intros t Ht; rewrite compositionsValue_eq;
      (destruct (t =? 0) eqn:E; [apply NoDup_singleton|]); apply Z.eqb_neq in E.
    - unfold fromTo. rewrite seqZ_nil by lia. constructor.
    - apply (NoDup_flat_map_cons (fun first => compositionsValue (t - first)));
        [apply NoDup_seqZ|].
      intros first [H1 H2]%elem_of_seqZ. apply IH. lia. }
  by apply (H (Z.to_nat total)).
Qed.

End CompositionLaws.

(** X8: [compositions(total)] yields every array of integers [>= 1] that
    sum to [total], each exactly once, and nothing else; for a negative
    [total] it yields nothing. *)
Theorem compositions_complete (total : Z) (extra : nat) :
  exists comps,
    compositions (compositionsDepth total + extra) total = Some comps /\
    NoDup comps /\
    (forall c, c ∈ comps <-> Forall (fun x => 1 <= x) c /\ sumZ c = total) /\
    (comps = [] <-> total < 0).
Proof.
  exists (compositionsValue total).
  split; [apply compositions_enough; unfold compositionsDepth; lia|].
  split; [apply compositionsValue_NoDup|]. split.
  - intros c. split.
    + intros [Hp Hs]%compositionsValue_parts. split; [|done].
      eapply Forall_impl; [exact Hp|]. simpl. lia.
    + intros [Hp <-]. by apply compositionsValue_complete.
  - split; [|apply compositionsValue_neg].
    intros Hnil. destruct (Z.le_gt_cases 0 total) as [Hpos|]; [|lia].
    destruct (compositionsValue_nonempty total Hpos) as [c Hc].
    rewrite Hnil in Hc. by apply elem_of_nil in Hc.
Qed.

Section CartesianLaws.

Context {A : Type}.

Lemma cartesianStep_cons (p : list A) (acc : list (list A)) (items : list A) :
  cartesianStep (p :: acc) items
  = List.map (fun item => p ++ [item]) items ++ cartesianStep acc items.
Proof. reflexivity. Qed.

Lemma extend_productOf (p : list A) (C : list (list A)) (items : list A) :
  flat_map (fun p' => List.map (app p') C) (List.map (fun item => p ++ [item]) items)
  = List.map (app p) (flat_map (fun item => List.map (cons item) C) items).
Proof.
  induction items as [|x items IH]; simpl; [done|].
  rewrite List.map_app, IH, List.map_map. f_equal.
  apply map_ext. intros c. by rewrite <- app_assoc.
Qed.

Lemma fold_cartesianStep_productOf (lists : list (list A)) : forall acc : list (list A),
  fold_left cartesianStep lists acc
  = flat_map (fun p => List.map (app p) (productOf lists)) acc.
Proof.
  induction lists as [|items lists IH]; intros acc; simpl.
  - induction acc as [|p acc IHacc]; simpl; [done|]. by rewrite app_nil_r, <- IHacc.
  - rewrite IH. induction acc as [|p acc IHacc]; [done|].
    rewrite cartesianStep_cons, flat_map_app, IHacc. simpl. f_equal.
    apply extend_productOf.
Qed.

Lemma cartesian_productOf (lists : list (list A)) : cartesian lists = productOf lists.
Proof.
  destruct lists as [|items lists]; [done|]. unfold cartesian.
  rewrite fold_cartesianStep_productOf. simpl. rewrite app_nil_r.
  rewrite List.map_id. done.
Qed.

Lemma length_flat_map_cons (C : list (list A)) (items : list A) :
  length (flat_map (fun item => List.map (cons item) C) items)
  = (length items * length C)%nat.
Proof.
  induction items as [|x items IH]; simpl; [done|].
  by rewrite length_app, length_map, IH.
Qed.

Lemma NoDup_flat_map_cons_const (C : list (list A)) (items : list A) :
  NoDup items -> NoDup C ->
  NoDup (flat_map (fun item => List.map (cons item) C) items).
Proof.
  induction 1 as [|x xs Hx Hxs IH]; intros HC; simpl; [constructor|].
  apply NoDup_app. split; [|split].
  - apply (NoDup_fmap_2_strong (cons x)); [by intros ?? _ _ [=] | done].
  - intros c (r & -> & _)%list_elem_of_fmap Hin.
    apply list_elem_of_In, in_flat_map in Hin as (y & Hy%list_elem_of_In & Hin).
    apply in_map_iff in Hin as (r' & [= -> _] & _). done.
  - by apply IH.
Qed.

End CartesianLaws.

(** X9: [cartesian] of no lists is the one empty tuple, and [cartesian] of
    a first list and further lists is, for each item of the first list in
    order, the tuples of the further lists with that item in front: the
    tuples come in lexicographic order, the first list varying slowest. *)
Theorem cartesian_first_slowest {A : Type} (items : list A) (lists : list (list A)) :
  cartesian ([] : list (list A)) = [[]] /\
  cartesian (items :: lists)
  = flat_map (fun item => List.map (cons item) (cartesian lists)) items.
Proof. split; [done|]. by rewrite !cartesian_productOf. Qed.

(** X10: [cartesian] returns as many tuples as the product of the lengths
    of the lists; so it returns none as soon as one list is empty. *)
Theorem cartesian_length {A : Type} (lists : list (list A)) :
  length (cartesian lists) = foldr (fun items k => (length items * k)%nat) 1%nat lists /\
  ([] ∈ lists -> cartesian lists = []).
Proof.
  assert (length (cartesian lists)
          = foldr (fun items k => (length items * k)%nat) 1%nat lists) as Hlen.
  { rewrite cartesian_productOf. induction lists as [|items lists IH]; [done|].
    simpl. by rewrite length_flat_map_cons, IH. }
  split; [done|]. intros Hin. apply length_zero_iff_nil. rewrite Hlen.
  clear Hlen. induction lists as [|items lists IH]; [by apply elem_of_nil in Hin|].
  simpl. apply elem_of_cons in Hin as [<- | Hin]; [done|]. rewrite IH by done. lia.
Qed.

(** X11: the tuples of [cartesian(lists)] are exactly the arrays that take
    one item from each list, in the order of the lists; and when no list
    has an item twice, no tuple comes twice. *)
Theorem cartesian_tuples {A : Type} (lists : list (list A)) :
  (forall combo, combo ∈ cartesian lists <-> Forall2 (fun x items => x ∈ items) combo lists) /\
  (Forall NoDup lists -> NoDup (cartesian lists)).
Proof.
  split; [intros combo; apply cartesian_elem|].
  rewrite cartesian_productOf. induction 1 as [|items lists Hi _ IH]; simpl.
  - apply NoDup_singleton.
  - by apply NoDup_flat_map_cons_const.
Qed.

(** ** Tree enumeration *)

Section EnumerationLaws.

Lemma labelsWithin_unfold (n : Z) (t : tree) :
  labelsWithin n t = true <->
  1 <= label t <= n /\ Forall (fun x => labelsWithin n x = true) (children t).
Proof.
  destruct t as [l c]. simpl. rewrite !andb_true_iff, !Z.leb_le, forallb_forall, Forall_forall.
  split.
  - intros [[? ?] Hall]. split; [lia|]. intros x Hx%list_elem_of_In. by apply Hall.
  - intros [? Hall]. split; [lia|]. intros x Hx%list_elem_of_In. by apply Hall.
Qed.

Lemma sumZ_nodeCounts (c : list tree) :
  sumZ (List.map (fun x => Z.of_nat (nodeCount x)) c) = Z.of_nat (forestCount c).
Proof.
  induction c as [|x c IH]; [done|]. rewrite forestCount_cons. simpl. lia.
Qed.

(** Every tree with labels among [1..n] is enumerated at its size. *)
Lemma treesOfSizeValue_complete (n : Z) (t : tree) :
  labelsWithin n t = true -> t ∈ treesOfSizeValue (Z.of_nat (nodeCount t)) n.
Proof.
  induction t as [l c IH] using tree_ind'.
  intros [Hl Hc]%labelsWithin_unfold. simpl in Hl, Hc.
  destruct c as [|x xs].
  - rewrite treesOfSizeValue_eq. simpl.
    apply list_elem_of_fmap. exists l. split; [done|]. apply elem_of_seqZ. lia.
  - set (c := x :: xs) in *.
    assert (1 <= forestCount c)%nat as Hpos.
    { unfold c. rewrite forestCount_cons. pose proof (nodeCount_pos x). lia. }
    rewrite nodeCount_children. simpl children.
    apply treesOfSizeValue_elem; [lia|]. apply candidates_elem.
    exists l, (List.map (fun y => Z.of_nat (nodeCount y)) c), c.
    split; [done|]. split; [apply elem_of_seqZ; lia|]. split.
    + replace (Z.of_nat (S (forestCount c)) - 1) with (Z.of_nat (forestCount c)) by lia.
      rewrite <- sumZ_nodeCounts. apply compositionsValue_complete.
      apply Forall_map, Forall_forall. intros y _. pose proof (nodeCount_pos y). simpl. lia.
    + apply Forall2_map_right. clear Hpos.
      induction c as [|y c IHc]; constructor.
      * apply Forall_cons in IH as [IHy _]. apply Forall_cons in Hc as [Hy _]. by apply IHy.
      * apply Forall_cons in IH as [_ IH]. apply Forall_cons in Hc as [_ Hc]. by apply IHc.
Qed.

Lemma treesOfSizeValue_iff (size n : Z) (t : tree) :
  t ∈ treesOfSizeValue size n <->
  Z.of_nat (nodeCount t) = size /\ labelsWithin n t = true.
Proof.
  split.
  - intros Ht. split; [by apply (treesOfSizeValue_nodeCount n) | by apply (treesOfSizeValue_labels n size)].
  - intros [<- Hl]. by apply treesOfSizeValue_complete.
Qed.

End EnumerationLaws.

(** X12: with a memo table that the program can have, [treesOfSize(size, n)]
    returns exactly the trees that have [size] nodes and all labels among
    [1..n]: every such tree is in the array, and nothing else is. The array
    is empty exactly when [size < 1] or [n < 1]. *)
Theorem treesOfSize_exactly (size n : Z) (extra : nat) (cache : treeCache) :
  cacheReachable cache ->
  exists ts cache',
    treesOfSize (treesOfSizeDepth size + extra) size n cache = Some (ts, cache') /\
    (forall t, t ∈ ts <-> Z.of_nat (nodeCount t) = size /\ labelsWithin n t = true) /\
    (ts = [] <-> size < 1 \/ n < 1).
Proof.
  intros Hreach%cacheReachable_coherent.
  destruct (treesOfSize_value (treesOfSizeDepth size + extra) size n cache Hreach)
    as (cache' & Hcall & _); [lia|].
  exists (treesOfSizeValue size n), cache'. split; [done|].
  split; [intros t; apply treesOfSizeValue_iff|]. split.
  - intros Hnil. destruct (decide (size < 1)) as [|Hs]; [by left|].
    destruct (decide (n < 1)) as [|Hn]; [by right|].
    destruct (treesOfSizeValue_nonempty n ltac:(lia) size ltac:(lia)) as [t Ht].
    rewrite Hnil in Ht. by apply elem_of_nil in Ht.
  - intros Hor. destruct (treesOfSizeValue size n) as [|t ts] eqn:E; [done|].
    assert (t ∈ treesOfSizeValue size n) as Ht by (rewrite E; by left).
    apply treesOfSizeValue_iff in Ht as [Hc Hl].
    apply labelsWithin_unfold in Hl as [Hl _].
    pose proof (nodeCount_pos t). lia.
Qed.

Lemma treesOfSize_exactly_witness :
  cacheReachable ∅ /\
  exists ts cache',
    treesOfSize (treesOfSizeDepth 3 + 0) 3 2 ∅ = Some (ts, cache') /\
    (forall t, t ∈ ts <-> Z.of_nat (nodeCount t) = 3 /\ labelsWithin 2 t = true) /\
    (ts = [] <-> 3 < 1 \/ 2 < 1).
Proof.
  split; [constructor|]. apply (treesOfSize_exactly 3 2 0 ∅). constructor.
Defined.

Section MemoLaws.

Lemma forEachM_rel {A S : Type} (R : relation S)
    (body : A -> S -> option S) (xs : list A) :
  (forall s, R s s) -> (forall a b c, R a b -> R b c -> R a c) ->
  (forall x s s', x ∈ xs -> body x s = Some s' -> R s s') ->
  forall s s', forEachM body xs s = Some s' -> R s s'.
Proof.
  intros Hrefl Htrans.
  induction xs as [|x xs IH]; intros Hb s s'; simpl.
  - intros [= ->]. apply Hrefl.
  - destruct (body x s) as [s1|] eqn:E; [|done]. simpl. intros Hrest.
    apply (Htrans _ s1); [apply (Hb x s s1); [left | done]|].
    apply IH; [|done]. intros y t t' Hy. apply Hb. by right.
Qed.

Lemma mapM_state_rel {A B S : Type} (R : relation S)
    (f : A -> S -> option (B * S)) (xs : list A) :
  (forall s, R s s) -> (forall a b c, R a b -> R b c -> R a c) ->
  (forall x s y s', x ∈ xs -> f x s = Some (y, s') -> R s s') ->
  forall s ys s', mapM_state f xs s = Some (ys, s') -> R s s'.
Proof.
  intros Hrefl Htrans.
  induction xs as [|x xs IH]; intros Hf s ys s'; simpl.
  - intros [= _ ->]. apply Hrefl.
  - destruct (f x s) as [[y s1]|] eqn:E; [|done]. simpl.
    destruct (mapM_state f xs s1) as [[ys' s2]|] eqn:E'; [|done]. simpl.
    intros [= _ <-]. apply (Htrans _ s1); [apply (Hf x s y s1); [left | done]|].
    apply (IH (fun z t w t' Hz => Hf z t w t' (list_elem_of_further _ _ _ Hz)) s1 ys' s2 E').
Qed.

(** A call keeps every entry of the table. *)
Lemma treesOfSize_grows (fuel : nat) : forall size n (cache : treeCache) ts cache',
  treesOfSize fuel size n cache = Some (ts, cache') -> cache ⊆ cache'.
Proof.
  induction fuel as [|f IH]; intros size n cache ts cache'; [done|].
  rewrite treesOfSize_S. destruct (cache !! (size, n)) as [cached|] eqn:Hlook.
  { by intros [= _ <-]. }
  destruct (size =? 1).
  { intros [= _ <-]. by apply insert_subseteq. }
  match goal with
  | |- (?loops ≫= _) = _ -> _ => destruct loops as [[seen cache1]|] eqn:Hloops
  end; [|done].
  simpl. intros [= _ <-].
  assert (cache ⊆ cache1) as Hsub.
  { apply (forEachM_rel (fun s s' : seenTable * treeCache => snd s ⊆ snd s'))
      in Hloops; [done | done | by intros a b c ??; etrans |].
    intros rootLabel s s' _.
    destruct (compositions f (size - 1)) as [comps|]; [|done]. simpl.
    apply (forEachM_rel (fun s s' : seenTable * treeCache => snd s ⊆ snd s'));
      [done | by intros a b c ??; etrans |].
    intros comp [seen0 c0] [seen1 c1] _. simpl.
    destruct (mapM_state (fun part => treesOfSize f part n) comp c0)
      as [[lists c2]|] eqn:Hmap; [|done].
    simpl. intros [= _ <-].
    apply (mapM_state_rel (⊆) (fun part => treesOfSize f part n) comp) in Hmap;
      [done | done | by intros a b c ??; etrans |].
    intros part c y c' _. apply IH. }
  apply map_subseteq_spec. intros k v Hk.
  rewrite lookup_insert_ne; [by apply (proj1 (map_subseteq_spec _ _) Hsub)|].
  intros <-. congruence.
Qed.

(** A call leaves its result in the table. *)
Lemma treesOfSize_stored (fuel : nat) (size n : Z) (cache : treeCache) ts cache' :
  treesOfSize fuel size n cache = Some (ts, cache') -> cache' !! (size, n) = Some ts.
Proof.
  destruct fuel as [|f]; [done|].
  rewrite treesOfSize_S. destruct (cache !! (size, n)) as [cached|] eqn:Hlook.
  { by intros [= <- <-]. }
  destruct (size =? 1).
  { intros [= <- <-]. by rewrite lookup_insert_eq. }
  match goal with
  | |- (?loops ≫= _) = _ -> _ => destruct loops as [[seen cache1]|]
  end; [|done].
  simpl. intros [= <- <-]. by rewrite lookup_insert_eq.
Qed.

(** What the cursor of [getMaxCachedSizeForN] computes. *)
Lemma getMaxCachedSizeForN_spec (n : Z) (store : treeCache) :
  let m := Async.getMaxCachedSizeForN n store in
  0 <= m /\
  (0 < m -> is_Some (store !! (m, n))) /\
  (forall size, is_Some (store !! (size, n)) -> size <= m).
Proof.
  unfold Async.getMaxCachedSizeForN.
  apply (map_fold_weak_ind (fun m (store : treeCache) =>
    0 <= m /\ (0 < m -> is_Some (store !! (m, n))) /\
    (forall size, is_Some (store !! (size, n)) -> size <= m))).
  - split; [done|]. split; [lia|]. intros size. rewrite lookup_empty. by intros [? ?].
  - intros [s' n'] x st r Hnone (Hr0 & Hin & Hmax). cbn [fst snd].
    destruct ((n' =? n) && (s' >? r)) eqn:E.
    + apply andb_true_iff in E as [->%Z.eqb_eq Hgt%Z.gtb_lt].
      split; [lia|]. split; [intros _; by rewrite lookup_insert_eq|].
      intros size. destruct (decide (size = s')) as [->|Hne]; [lia|].
      rewrite lookup_insert_ne by congruence. intros H%Hmax. lia.
    + split; [done|]. split.
      * intros Hpos. destruct (decide ((s', n') = (r, n))) as [[= -> ->]|Hne].
        -- by rewrite lookup_insert_eq.
        -- rewrite lookup_insert_ne by done. by apply Hin.
      * intros size. destruct (decide ((s', n') = (size, n))) as [[= -> ->]|Hne].
        -- intros _. rewrite Z.eqb_refl in E. simpl in E.
           rewrite Z.gtb_ltb in E. by apply Z.ltb_ge in E.
        -- rewrite lookup_insert_ne by done. apply Hmax.
Qed.

End MemoLaws.

(** X13: [treesOfSize] memoizes: after a call the table holds the returned
    array under [(size, n)], every entry that was in the table before is
    still there unchanged, and a second call returns the same array without
    changing the table. *)
Theorem treesOfSize_memoizes (size n : Z) (extra : nat) (cache : treeCache) :
  cacheReachable cache ->
  exists ts cache',
    treesOfSize (treesOfSizeDepth size + extra) size n cache = Some (ts, cache') /\
    cache' !! (size, n) = Some ts /\
    cache ⊆ cache' /\
    forall fuel, treesOfSize (S fuel) size n cache' = Some (ts, cache').
Proof.
  intros Hreach%cacheReachable_coherent.
  destruct (treesOfSize_value (treesOfSizeDepth size + extra) size n cache Hreach)
    as (cache' & Hcall & _); [lia|].
  exists (treesOfSizeValue size n), cache'. split; [done|].
  pose proof (treesOfSize_stored _ _ _ _ _ _ Hcall) as Hst.
  split; [done|]. split; [by eapply treesOfSize_grows|].
  intros fuel. by rewrite treesOfSize_S, Hst.
Qed.

Lemma treesOfSize_memoizes_witness :
  cacheReachable ∅ /\
  exists ts cache',
    treesOfSize (treesOfSizeDepth 2 + 0) 2 2 ∅ = Some (ts, cache') /\
    cache' !! (2, 2) = Some ts /\
    (∅ : treeCache) ⊆ cache' /\
    forall fuel, treesOfSize (S fuel) 2 2 cache' = Some (ts, cache').
Proof.
  split; [constructor|]. apply (treesOfSize_memoizes 2 2 0 ∅). constructor.
Defined.

(** X14: [getMaxCachedSizeForN(n)] is 0 when the store holds no size above
    0 for [n]; otherwise it is a size stored for [n], and the largest. *)
Theorem getMaxCachedSizeForN_largest (n : Z) (store : treeCache) :
  let m := Async.getMaxCachedSizeForN n store in
  (m = 0 <-> forall size, 0 < size -> store !! (size, n) = None) /\
  (m <> 0 -> 0 < m /\ is_Some (store !! (m, n))) /\
  (forall size, is_Some (store !! (size, n)) -> size <= m).
Proof.
  intros m. destruct (getMaxCachedSizeForN_spec n store) as (H0 & Hin & Hmax).
  fold m in H0, Hin, Hmax. split; [|split; [|done]].
  - split.
    + intros Hm size Hsize. destruct (store !! (size, n)) eqn:E; [|done].
      assert (size <= m) by (apply Hmax; by rewrite E). lia.
    + intros Hnone. destruct (decide (m = 0)) as [|Hne]; [done|].
      destruct (Hin ltac:(lia)) as [v Hv]. rewrite Hnone in Hv by lia. done.
  - intros Hne. split; [lia|]. apply Hin. lia.
Qed.

(** X15: once [treesOfSize(size, n)] has run for a [size >= 1], a generator
    [allTrees(n)] of the IndexedDB variant that starts afterwards starts at
    [size] or beyond: it does not yield the trees of smaller sizes. *)
Theorem allTrees_resumes_beyond (size n : Z) (extra : nat) (store : treeCache) :
  1 <= size -> cacheReachable store ->
  exists ts store',
    treesOfSize (treesOfSizeDepth size + extra) size n store = Some (ts, store') /\
    size <= Async.startSize n store' /\
    Async.startSize n store <= Async.startSize n store'.
Proof.
  intros Hsize Hreach.
  destruct (treesOfSize_memoizes size n extra store Hreach)
    as (ts & store' & Hcall & Hst & Hsub & _).
  exists ts, store'. split; [done|].
  destruct (getMaxCachedSizeForN_spec n store') as (H0' & Hin' & Hmax').
  destruct (getMaxCachedSizeForN_spec n store) as (H0 & Hin & Hmax).
  assert (size <= Async.getMaxCachedSizeForN n store') as Hle
    by (apply Hmax'; by rewrite Hst).
  unfold Async.startSize.
  replace (Async.getMaxCachedSizeForN n store' >? 0) with true
    by (symmetry; apply Z.gtb_lt; lia).
  split; [done|].
  destruct (Async.getMaxCachedSizeForN n store >? 0) eqn:E; [|lia].
  apply Z.gtb_lt in E. destruct (Hin E) as [v Hv].
  apply Hmax'. exists v. by apply (proj1 (map_subseteq_spec _ _) Hsub).
Qed.

Lemma allTrees_resumes_beyond_witness :
  (1 <= 2 /\ cacheReachable ∅) /\
  exists ts store',
    treesOfSize (treesOfSizeDepth 2 + 0) 2 1 ∅ = Some (ts, store') /\
    2 <= Async.startSize 1 store' /\
    Async.startSize 1 ∅ <= Async.startSize 1 store'.
Proof.
  split; [split; [lia | constructor]|].
  apply (allTrees_resumes_beyond 2 1 0 ∅); [lia | constructor].
Defined.

(** ** The worker pool *)

Section PoolLaws.

Import Pool.

Lemma pop_Some {A : Type} (xs ys : list A) (x : A) :
  pop xs = Some (ys, x) -> xs = ys ++ [x].
Proof.
  unfold pop. destruct (last xs) as [y|] eqn:E; [|done]. intros [= <- <-].
  apply last_Some in E as [l' ->]. by rewrite removelast_last.
Qed.

Lemma dispatchLoop_workers (queue : list msg) : forall idle inbox idle' queue' inbox',
  dispatchLoop idle queue inbox = (idle', queue', inbox') ->
  idle' ++ List.map fst inbox' ≡ₚ idle ++ List.map fst inbox.
Proof.
  induction queue as [|task queue IH]; intros idle inbox idle' queue' inbox'; simpl.
  { by intros [= <- <- <-]. }
  destruct (pop idle) as [[idle1 wk]|] eqn:Hpop; [|by intros [= <- <- <-]].
  intros H%IH. apply pop_Some in Hpop as ->. rewrite H, List.map_app. simpl.
  rewrite <- !app_assoc. apply Permutation_app_head, Permutation_app_comm.
Qed.

Lemma dispatch_workers (w : world) :
  workers (pool (_dispatch w)) = workers (pool w) /\
  idleWorkers (pool (_dispatch w)) ++ List.map fst (inbox (_dispatch w))
  ≡ₚ idleWorkers (pool w) ++ List.map fst (inbox w).
Proof.
  unfold _dispatch.
  destruct (dispatchLoop (idleWorkers (pool w)) (queue (pool w)) (inbox w))
    as [[idle' queue'] inbox'] eqn:E.
  apply dispatchLoop_workers in E. by simpl.
Qed.

Lemma reachable_workers (w : world) :
  reachable w ->
  idleWorkers (pool w) ++ List.map fst (inbox w) ≡ₚ workers (pool w) /\
  NoDup (workers (pool w)).
Proof.
  induction 1 as [size | s t w _ [IHp IHn] | k w w' _ [IHp IHn] Hd | w _ IH].
  - simpl. rewrite app_nil_r. split; [done | apply NoDup_seq].
  - unfold submitEmbed. simpl.
    match goal with |- context [_dispatch ?w1] =>
      destruct (dispatch_workers w1) as [-> ->] end.
    by simpl.
  - unfold deliver in Hd. destruct (inbox w !! k) as [[wk m]|] eqn:Hk; [|done].
    injection Hd as <-. unfold _onWorkerMessage. simpl.
    destruct (decide (id m ∈ callbacks (pool w)));
      (match goal with |- context [_dispatch ?w1] =>
         destruct (dispatch_workers w1) as [-> ->] end);
      simpl; (split; [|done]); rewrite <- IHp;
      rewrite (delete_Permutation (inbox w) k (wk, m) Hk) at 2; simpl;
      rewrite <- app_assoc; simpl; by rewrite <- Permutation_middle.
  - simpl. split; [done | constructor].
Qed.

Lemma dispatch_nextId (w : world) : nextId (pool (_dispatch w)) = nextId (pool w).
Proof. apply dispatch_fields. Qed.

Lemma submitAll_ids (t : tree) (seq : list tree) : forall w : world,
  fst (submitAll seq t w) = seqZ (nextId (pool w)) (Z.of_nat (length seq)) /\
  nextId (pool (snd (submitAll seq t w))) = nextId (pool w) + Z.of_nat (length seq).
Proof.
  induction seq as [|prev seq IH]; intros w.
  { simpl. split; [done | lia]. }
  rewrite submitAll_cons. cbn [fst snd].
  destruct (IH (snd (submitEmbed prev t w))) as [-> ->].
  unfold submitEmbed. cbn [fst snd]. rewrite dispatch_nextId. cbn [nextId pool].
  split; [|simpl length; lia].
  rewrite (seqZ_cons (nextId (pool w))) by (simpl length; lia).
  f_equal. f_equal; simpl length; lia.
Qed.

End PoolLaws.

(** X16: the ids that [submitEmbed] gives out are consecutive: the calls of
    [seq.map((prev) => pool.submitEmbed(prev, t))] return the ids
    [nextId, nextId + 1, ...], and on a new pool they are [1, 2, ...]. *)
Theorem submitEmbed_ids_consecutive (seq : list tree) (t : tree) (w : Pool.world)
    (size : nat) :
  fst (Pool.submitAll seq t w)
  = seqZ (Pool.nextId (Pool.pool w)) (Z.of_nat (length seq)) /\
  Pool.nextId (Pool.pool (snd (Pool.submitAll seq t w)))
  = Pool.nextId (Pool.pool w) + Z.of_nat (length seq) /\
  fst (Pool.submitAll seq t (Pool.newPool size)) = seqZ 1 (Z.of_nat (length seq)).
Proof.
  destruct (submitAll_ids t seq w) as [H1 H2]. split; [done|]. split; [done|].
  by destruct (submitAll_ids t seq (Pool.newPool size)) as [-> _].
Qed.

(** X17: in every state of a pool, each worker is either idle or has exactly
    one posted task that it has not answered: no worker holds two tasks,
    and no worker is lost. *)
Theorem pool_workers_conserved (w : Pool.world) :
  Pool.reachable w ->
  Pool.idleWorkers (Pool.pool w) ++ List.map fst (Pool.inbox w)
  ≡ₚ Pool.workers (Pool.pool w) /\
  NoDup (Pool.idleWorkers (Pool.pool w) ++ List.map fst (Pool.inbox w)).
Proof.
  intros [Hp Hn]%reachable_workers. split; [done|]. by rewrite Hp.
Qed.

Lemma pool_workers_conserved_witness :
  let w := snd (Pool.submitEmbed (leaf 1) (leaf 2) (Pool.newPool 2)) in
  Pool.reachable w /\
  Pool.idleWorkers (Pool.pool w) ++ List.map fst (Pool.inbox w)
  ≡ₚ Pool.workers (Pool.pool w) /\
  NoDup (Pool.idleWorkers (Pool.pool w) ++ List.map fst (Pool.inbox w)).
Proof.
  intros w.
  assert (Pool.reachable w) as Hw by apply Pool.reach_submit, Pool.reach_new.
  split; [exact Hw|]. apply (pool_workers_conserved w Hw).
Defined.

(** X18: in every state of a pool, a task waits in the queue only while no
    worker is idle; and the tasks queued or posted have pairwise different
    ids, all below [nextId], with their callbacks registered and their
    promises not settled. *)
Theorem pool_queue_only_when_busy (w : Pool.world) :
  Pool.reachable w ->
  (Pool.queue (Pool.pool w) <> [] -> Pool.idleWorkers (Pool.pool w) = []) /\
  NoDup (List.map Pool.id (Pool.outstanding w)) /\
  (forall m, m ∈ Pool.outstanding w ->
     Pool.id m < Pool.nextId (Pool.pool w) /\
     Pool.id m ∈ Pool.callbacks (Pool.pool w) /\
     Pool.settled w !! Pool.id m = None).
Proof.
  intros Hinv%reachable_inv. split; [apply Hinv|]. split; [apply Hinv|].
  intros m Hm. split; [by apply Hinv|]. split; by apply Hinv.
Qed.

Lemma pool_queue_only_when_busy_witness :
  let w := snd (Pool.submitAll [leaf 1; leaf 2; leaf 3] (leaf 2) (Pool.newPool 2)) in
  Pool.reachable w /\
  (Pool.queue (Pool.pool w) <> [] -> Pool.idleWorkers (Pool.pool w) = []) /\
  NoDup (List.map Pool.id (Pool.outstanding w)) /\
  (forall m, m ∈ Pool.outstanding w ->
     Pool.id m < Pool.nextId (Pool.pool w) /\
     Pool.id m ∈ Pool.callbacks (Pool.pool w) /\
     Pool.settled w !! Pool.id m = None).
Proof.
  intros w.
  assert (Pool.reachable w) as Hw.
  { unfold w. rewrite !submitAll_cons. cbn [snd Pool.submitAll].
    do 3 apply Pool.reach_submit. apply Pool.reach_new. }
  split; [exact Hw|]. apply (pool_queue_only_when_busy w Hw).
Defined.

Section PoolRuns.

Import Pool.

Lemma deliver_nextId (k : nat) (w w' : world) :
  deliver k w = Some w' -> nextId (pool w') = nextId (pool w).
Proof.
  unfold deliver. destruct (inbox w !! k) as [[wk m]|]; [|done]. intros [= <-].
  unfold _onWorkerMessage. simpl.
  destruct (decide (id m ∈ callbacks (pool w))); by rewrite dispatch_nextId.
Qed.

(** What the events handled during an [await] keep. *)
Lemma await_keeps (t : tree) (sched : list nat) : forall (w : world) (p : Z) v w' sched',
  reachable w -> await sched p w = Some (v, w', sched') ->
  reachable w' /\ nextId (pool w') = nextId (pool w) /\
  (forall ps, tracked t w ps -> tracked t w' ps).
Proof.
  induction sched as [|k sched IH]; intros w p v w' sched' Hw; rewrite await_unfold;
    destruct (settled w !! p) as [v0|]; try done; try (by intros [= _ <- _]).
  destruct (deliver (k mod length (inbox w)) w) as [w1|] eqn:Hd; [|done]. simpl.
  intros Haw. apply IH in Haw as (Hw' & Hn & Htr); [|by eapply reach_deliver].
  split; [done|]. split; [by rewrite Hn, (deliver_nextId _ _ _ Hd)|].
  intros ps Hps. apply Htr. by apply (tracked_deliver t _ w w1 ps (reachable_inv w Hw) Hd).
Qed.

Lemma awaitAll_keeps (t : tree) (ps : list Z) : forall (sched : list nat) (w : world) b w' sched',
  reachable w -> awaitAll sched ps w = Some (b, w', sched') ->
  reachable w' /\ nextId (pool w') = nextId (pool w) /\
  (forall q, tracked t w q -> tracked t w' q).
Proof.
  induction ps as [|p ps IH]; intros sched w b w' sched' Hw; simpl.
  { by intros [= _ <- _]. }
  destruct (await sched p w) as [[[v w1] sched1]|] eqn:Haw; [|done]. simpl.
  destruct (await_keeps t sched w p v w1 sched1 Hw Haw) as (Hw1 & Hn1 & Htr1).
  destruct v; [by intros [= _ <- _]|].
  intros H. apply IH in H as (Hw' & Hn & Htr); [|done].
  split; [done|]. split; [by rewrite Hn|]. intros q Hq. by apply Htr, Htr1.
Qed.

Lemma submitAll_reachable (t : tree) (seq : list tree) : forall w : world,
  reachable w -> reachable (snd (submitAll seq t w)).
Proof.
  induction seq as [|prev seq IH]; intros w Hw; [done|].
  rewrite submitAll_cons. cbn [snd]. by apply IH, reach_submit.
Qed.

Lemma submitAll_tracked (t : tree) (seq : list tree) : forall (w : world) (i : nat) (s : tree),
  reachable w -> seq !! i = Some s ->
  tracked t (snd (submitAll seq t w)) (nextId (pool w) + Z.of_nat i, s).
Proof.
  induction seq as [|prev seq IH]; intros w i s Hw Hi; [done|].
  rewrite submitAll_cons. cbn [snd].
  pose proof (reachable_inv w Hw) as Hinv.
  destruct (submitEmbed_spec prev t w Hinv) as (Hp & Hinv1 & Hout & _).
  destruct (submitAll_spec t seq (snd (submitEmbed prev t w)) Hinv1)
    as (_ & _ & _ & _ & _ & _ & Hpres & _).
  destruct i as [|i]; simpl in Hi.
  - injection Hi as ->. apply Hpres. right. cbn [fst snd].
    rewrite Hout, Z.add_0_r. by left.
  - replace (nextId (pool w) + Z.of_nat (S i))
      with (nextId (pool (snd (submitEmbed prev t w))) + Z.of_nat i).
    + apply IH; [by apply reach_submit | done].
    + unfold submitEmbed. cbn [snd]. rewrite dispatch_nextId. simpl. lia.
Qed.

Lemma dispatchLoop_no_idle (queue : list msg) (inbox : list (worker * msg)) :
  dispatchLoop [] queue inbox = ([], queue, inbox).
Proof. by destruct queue. Qed.

Lemma submitAll_dead (t : tree) (seq : list tree) : forall w : world,
  idleWorkers (pool w) = [] -> inbox w = [] ->
  idleWorkers (pool (snd (submitAll seq t w))) = [] /\
  inbox (snd (submitAll seq t w)) = [] /\
  settled (snd (submitAll seq t w)) = settled w.
Proof.
  induction seq as [|prev seq IH]; intros w Hidle Hin; [done|].
  rewrite submitAll_cons. cbn [snd].
  assert (idleWorkers (pool (snd (submitEmbed prev t w))) = [] /\
          inbox (snd (submitEmbed prev t w)) = [] /\
          settled (snd (submitEmbed prev t w)) = settled w) as (H1 & H2 & H3).
  { unfold submitEmbed, _dispatch. simpl. rewrite Hidle, dispatchLoop_no_idle. by simpl. }
  destruct (IH _ H1 H2) as (? & ? & ->). by rewrite H3.
Qed.

Lemma isValidExtension_dead (sched : list nat) (seq : list tree) (t : tree) (w : world) :
  reachable w -> idleWorkers (pool w) = [] -> inbox w = [] -> seq <> [] ->
  isValidExtension sched seq t w = None.
Proof.
  intros Hw Hidle Hin Hseq. unfold isValidExtension.
  destruct seq as [|s0 seq]; [done|].
  destruct (submitAll_ids t (s0 :: seq) w) as [Hids _].
  destruct (submitAll_dead t (s0 :: seq) w Hidle Hin) as (_ & Hin1 & Hs1).
  destruct (submitAll (s0 :: seq) t w) as [ps w1]. simpl in Hids, Hin1, Hs1.
  rewrite seqZ_cons in Hids by lia. subst ps. simpl.
  rewrite await_unfold, Hs1.
  destruct (settled w !! nextId (pool w)) as [v|] eqn:E.
  { apply (inv_settled w (reachable_inv w Hw)) in E. lia. }
  destruct sched as [|k sched]; [done|].
  unfold deliver. by rewrite Hin1.
Qed.

End PoolRuns.

(** X19: the answer of a worker settles the promise of its own task, which
    was not settled before, with [embeds(pattern, target)]; no other
    promise changes, the task leaves the tasks to answer, and no id is
    given out. *)
Theorem worker_answer_routing (k : nat) (w w' : Pool.world) :
  Pool.reachable w -> Pool.deliver k w = Some w' ->
  exists wk m,
    Pool.inbox w !! k = Some (wk, m) /\
    Pool.settled w !! Pool.id m = None /\
    Pool.settled w'
    = <[Pool.id m := Matcher.embedsResult (Pool.pattern m) (Pool.target m)]> (Pool.settled w) /\
    m :: Pool.outstanding w' ≡ₚ Pool.outstanding w /\
    Pool.nextId (Pool.pool w') = Pool.nextId (Pool.pool w).
Proof.
  intros Hinv%reachable_inv Hd.
  destruct (deliver_spec k w w' Hinv Hd) as (wk & m & Hk & _ & Hout & Hs & _).
  exists wk, m. split; [done|]. split.
  - apply (Pool.inv_pending w Hinv). rewrite <- Hout. by left.
  - split; [done|]. split; [done|]. by apply (deliver_nextId k).
Qed.

Lemma worker_answer_routing_witness :
  let w := snd (Pool.submitEmbed (leaf 1) (Node 2 [leaf 1]) (Pool.newPool 1)) in
  exists w',
    (Pool.reachable w /\ Pool.deliver 0 w = Some w') /\
    exists wk m,
      Pool.inbox w !! 0%nat = Some (wk, m) /\
      Pool.settled w !! Pool.id m = None /\
      Pool.settled w'
      = <[Pool.id m := Matcher.embedsResult (Pool.pattern m) (Pool.target m)]> (Pool.settled w) /\
      m :: Pool.outstanding w' ≡ₚ Pool.outstanding w /\
      Pool.nextId (Pool.pool w') = Pool.nextId (Pool.pool w).
Proof.
  intros w.
  assert (Pool.reachable w) as Hw by apply Pool.reach_submit, Pool.reach_new.
  destruct (Pool.deliver 0 w) as [w'|] eqn:Hd; [|by vm_compute in Hd].
  exists w'. split; [done|]. exact (worker_answer_routing 0 w w' Hw Hd).
Defined.

(** X20: a pool without a worker that is idle or at work never answers: on
    a terminated pool, and on a pool created with no worker,
    [isValidExtension] with a sequence that is not empty does not return,
    whatever the schedule. *)
Theorem isValidExtension_dead_pool (sched : list nat) (seq : list tree) (t : tree)
    (w : Pool.world) :
  Pool.reachable w -> seq <> [] ->
  Pool.isValidExtension sched seq t (Pool.terminate w) = None /\
  Pool.isValidExtension sched seq t (Pool.newPool 0) = None.
Proof.
  intros Hw Hseq. split.
  - apply isValidExtension_dead; [by apply Pool.reach_terminate | done..].
  - apply isValidExtension_dead; [apply Pool.reach_new | done..].
Qed.

Lemma isValidExtension_dead_pool_witness :
  let w := snd (Pool.submitEmbed (leaf 1) (leaf 2) (Pool.newPool 2)) in
  (Pool.reachable w /\ [leaf 1] <> []) /\
  Pool.isValidExtension [0; 0; 0]%nat [leaf 1] (leaf 2) (Pool.terminate w) = None /\
  Pool.isValidExtension [0; 0; 0]%nat [leaf 1] (leaf 2) (Pool.newPool 0) = None.
Proof.
  intros w.
  assert (Pool.reachable w) as Hw by apply Pool.reach_submit, Pool.reach_new.
  split; [done|]. by apply (isValidExtension_dead_pool [0; 0; 0]%nat [leaf 1] (leaf 2) w Hw).
Defined.

(** X21: [isValidExtension] submits one task for every tree of the sequence
    before it awaits any, and cancels none: when it returns, also with
    [false] at the first tree that embeds, [nextId] has advanced by the
    length of the sequence, and the promise of every tree [s] of the
    sequence is settled with [embeds(s, t)] or its task is still queued or
    posted. *)
Theorem isValidExtension_submits_all (sched : list nat) (seq : list tree) (t : tree)
    (w w' : Pool.world) (b : bool) (sched' : list nat) :
  Pool.reachable w -> seq <> [] ->
  Pool.isValidExtension sched seq t w = Some (b, w', sched') ->
  Pool.reachable w' /\
  Pool.nextId (Pool.pool w') = Pool.nextId (Pool.pool w) + Z.of_nat (length seq) /\
  forall (i : nat) (s : tree), seq !! i = Some s ->
    Pool.tracked t w' (Pool.nextId (Pool.pool w) + Z.of_nat i, s).
Proof.
  intros Hw Hseq. unfold Pool.isValidExtension.
  destruct seq as [|s0 seq0]; [done|]. set (seq := s0 :: seq0).
  pose proof (submitAll_reachable t seq w Hw) as Hw1.
  pose proof (submitAll_ids t seq w) as [_ Hn1].
  pose proof (fun i s => submitAll_tracked t seq w i s Hw) as Htr1.
  destruct (Pool.submitAll seq t w) as [ps w1]. simpl in Hw1, Hn1, Htr1.
  intros Haw. destruct (awaitAll_keeps t ps sched w1 b w' sched' Hw1 Haw) as (Hw' & Hn & Htr).
  split; [done|]. split; [by rewrite Hn|]. intros i s Hi. by apply Htr, Htr1.
Qed.

Lemma isValidExtension_submits_all_witness :
  let seq := [leaf 1; leaf 2; leaf 3] in
  let t := Node 1 [leaf 3] in
  let w := Pool.newPool 1 in
  exists b w' sched',
    (Pool.reachable w /\ seq <> [] /\
     Pool.isValidExtension [0; 0]%nat seq t w = Some (b, w', sched')) /\
    Pool.reachable w' /\
    Pool.nextId (Pool.pool w') = Pool.nextId (Pool.pool w) + Z.of_nat (length seq) /\
    forall (i : nat) (s : tree), seq !! i = Some s ->
      Pool.tracked t w' (Pool.nextId (Pool.pool w) + Z.of_nat i, s).
Proof.
  intros seq t w.
  destruct (Pool.isValidExtension [0; 0]%nat seq t w) as [[[b w'] sched']|] eqn:E;
    [|by vm_compute in E].
  exists b, w', sched'.
  assert (Pool.reachable w) as Hw by apply Pool.reach_new.
  split; [done|].
  exact (isValidExtension_submits_all [0; 0]%nat seq t w w' b sched' Hw ltac:(done) E).
Defined.

(** X22: the promise of [submitEmbed(s, t)] stands for [embeds(s, t)] from
    the call on, through every later [submitEmbed] and every answer of a
    worker; and awaiting such a promise gives [embeds(s, t)] whatever the
    order of the answers: with a worker alive it returns once the schedule
    has as many events as there are tasks to answer. *)
Theorem submitted_promise_value (s t : tree) (w : Pool.world) :
  Pool.reachable w ->
  let p := fst (Pool.submitEmbed s t w) in
  Pool.tracked t (snd (Pool.submitEmbed s t w)) (p, s) /\
  forall w2, Pool.reachable w2 -> Pool.tracked t w2 (p, s) ->
    (forall s' t', Pool.tracked t (snd (Pool.submitEmbed s' t' w2)) (p, s)) /\
    (forall k w3, Pool.deliver k w2 = Some w3 -> Pool.tracked t w3 (p, s)) /\
    (forall sched,
       match Pool.await sched p w2 with
       | Some (v, _, _) => v = Matcher.embedsResult s t
       | None => Pool.alive w2 -> (length sched < length (Pool.outstanding w2))%nat
       end).
Proof.
  intros Hinv%reachable_inv p. split.
  - destruct (submitEmbed_spec s t w Hinv) as (Hp & _ & Hout & _).
    right. unfold p. cbn [fst snd]. rewrite Hout, Hp. by left.
  - intros w2 Hinv2%reachable_inv Htr. split; [|split].
    + intros s' t'. by apply tracked_submit.
    + intros k w3 Hd. by apply (tracked_deliver t k w2 w3).
    + intros sched. pose proof (await_spec t sched w2 p s Hinv2 Htr) as H.
      destruct (Pool.await sched p w2) as [[[v w3] sched3]|]; [apply H | done].
Qed.

Lemma submitted_promise_value_witness :
  let s := leaf 1 in
  let t := Node 2 [leaf 1] in
  let w := Pool.newPool 1 in
  Pool.reachable w /\
  let p := fst (Pool.submitEmbed s t w) in
  Pool.tracked t (snd (Pool.submitEmbed s t w)) (p, s) /\
  forall w2, Pool.reachable w2 -> Pool.tracked t w2 (p, s) ->
    (forall s' t', Pool.tracked t (snd (Pool.submitEmbed s' t' w2)) (p, s)) /\
    (forall k w3, Pool.deliver k w2 = Some w3 -> Pool.tracked t w3 (p, s)) /\
    (forall sched,
       match Pool.await sched p w2 with
       | Some (v, _, _) => v = Matcher.embedsResult s t
       | None => Pool.alive w2 -> (length sched < length (Pool.outstanding w2))%nat
       end).
Proof.
  intros s t w. split; [apply Pool.reach_new|].
  apply (submitted_promise_value s t w). apply Pool.reach_new.
Defined.


(** ** The search *)

Section SearchFacts.

Import Search.

Variable start : Z -> treeCache -> Z.
Variable n : Z.

Lemma enter_fields (st : state) :
  best (enter st) = Nat.max (best st) (length (seq st)) /\
  seq (enter st) = seq st /\ cache (enter st) = cache st /\
  world (enter st) = world st /\ sched (enter st) = sched st.
Proof.
  unfold enter. destruct (Nat.ltb_spec (best st) (length (seq st))); simpl;
    repeat split; lia.
Qed.

(** *** A property kept by every step is kept by the search

    [I] is kept when the table is filled, when a tree is rejected, and when
    a tree is accepted and the next call is entered; [T] holds of the trees
    that the table gives. Then no call returns, and [I] holds of every state
    that the search comes to. *)

Section Invariant.

Variable I : state -> Prop.
Variable T : tree -> Prop.

Hypothesis I_cache : forall st size ts cache1,
  I st -> treesOfSize (treesOfSizeDepth size) size n (cache st) = Some (ts, cache1) ->
  I (mkState (best st) (seq st) cache1 (world st) (sched st)) /\ Forall T ts.

Hypothesis I_reject : forall st t w' sched',
  I st -> T t ->
  Pool.isValidExtension (sched st) (seq st) t (world st) = Some (false, w', sched') ->
  I (mkState (best st) (seq st) (cache st) w' sched').

Hypothesis I_accept : forall st t w' sched',
  I st -> T t ->
  Pool.isValidExtension (sched st) (seq st) t (world st) = Some (true, w', sched') ->
  I (enter (mkState (best st) (seq st ++ [t]) (cache st) w' sched')).

Lemma forTrees_inv (bt : state -> outcome) :
  (forall st, I (enter st) -> unfinished I (bt st)) ->
  forall ts st, I st -> Forall T ts -> I (stateOf (forTrees bt ts st)).
Proof.
  intros Hbt. induction ts as [|t ts IH]; intros st HI HT; [done|].
  apply Forall_cons in HT as [Ht HT]. cbn [forTrees].
  destruct (Pool.isValidExtension (sched st) (seq st) t (world st))
    as [[[ok w'] sched']|] eqn:E; [|done].
  destruct ok.
  - pose proof (Hbt _ (I_accept st t w' sched' HI Ht E)) as H.
    by destruct (bt _).
  - apply IH; [by eapply I_reject | done].
Qed.

Lemma forSizes_inv (fuel : nat) : forall (size : Z) (st : state),
  I st -> unfinished I (forSizes start n fuel size st).
Proof.
  induction fuel as [|f IH]; intros size st HI; [done|].
  cbn [forSizes].
  destruct (treesOfSize (treesOfSizeDepth size) size n (cache st))
    as [[ts cache1]|] eqn:E; [|done].
  destruct (I_cache st size ts cache1 HI E) as [HI1 HT].
  pose proof (forTrees_inv
    (fun st' => forSizes start n f (start n (cache st')) (enter st'))
    (fun st' H => IH _ _ H) ts _ HI1 HT) as H.
  destruct (forTrees _ ts _) as [st2|st2|st2]; [by apply IH | done | done].
Qed.

End Invariant.

Lemma unfinished_returned (P : state -> Prop) (o : outcome) :
  unfinished P o -> returned o = None /\ P (stateOf o).
Proof. by destruct o. Qed.

(** The search only ever appends to the sequence. *)
Lemma backtrack_grows (fuel : nat) (st : state) :
  unfinished
    (fun st' =>
       seq st `prefix_of` seq st' /\
       best st' = Nat.max (best st) (length (seq st')))
    (backtrack start n fuel st).
Proof.
  unfold backtrack.
  apply (forSizes_inv
    (fun st' =>
       seq st `prefix_of` seq st' /\
       best st' = Nat.max (best st) (length (seq st')))
    (fun _ => True)).
  - intros st1 size ts cache1 HI _. split; [done|]. by apply Forall_true.
  - by intros st1 t w' sched' HI _ _.
  - intros st1 t w' sched' [Hpre Hbest] _ _.
    destruct (enter_fields (mkState (best st1) (seq st1 ++ [t]) (cache st1) w' sched'))
      as (-> & -> & _). simpl. split; [by apply prefix_app_r|].
    rewrite length_app. simpl. lia.
  - destruct (enter_fields st) as (-> & -> & _). done.
Qed.

Lemma isValidExtension_reachable (sch : list nat) (sq : list tree) (t : tree)
    (w w' : Pool.world) (b : bool) (sch' : list nat) :
  Pool.reachable w -> Pool.isValidExtension sch sq t w = Some (b, w', sch') ->
  Pool.reachable w'.
Proof.
  intros Hw. unfold Pool.isValidExtension. destruct sq as [|s0 sq0].
  { by intros [= _ <- _]. }
  pose proof (submitAll_reachable t (s0 :: sq0) w Hw) as Hw1.
  destruct (Pool.submitAll (s0 :: sq0) t w) as [ps w1]. simpl in Hw1.
  intros Haw. by destruct (awaitAll_keeps t ps sch w1 b w' sch' Hw1 Haw).
Qed.

Lemma isValidExtension_value (sch : list nat) (sq : list tree) (t : tree)
    (w w' : Pool.world) (b : bool) (sch' : list nat) :
  Pool.reachable w -> Pool.isValidExtension sch sq t w = Some (b, w', sch') ->
  b = negb (existsb (fun s => Matcher.embedsResult s t) sq).
Proof.
  intros Hw%reachable_inv E.
  pose proof (isValidExtension_spec sch sq t w Hw) as H. by rewrite E in H.
Qed.

Lemma bad_snoc (sq : list tree) (t : tree) :
  bad sq -> existsb (fun s => Matcher.embedsResult s t) sq = false -> bad (sq ++ [t]).
Proof.
  intros Hbad Hex i j s u Hij Hi Hj.
  assert (j < length (sq ++ [t]))%nat as Hlen by (apply lookup_lt_is_Some; eauto).
  rewrite length_app in Hlen. simpl in Hlen.
  destruct (decide (j = length sq)) as [->|Hne].
  - rewrite lookup_app_l in Hi by lia.
    rewrite lookup_app_r, Nat.sub_diag in Hj by lia. injection Hj as <-.
    destruct (Matcher.embedsResult s t) eqn:E; [|done].
    rewrite <- Hex. symmetry. apply existsb_exists. exists s.
    split; [|done]. apply list_elem_of_In. by eapply list_elem_of_lookup_2.
  - rewrite lookup_app_l in Hi by lia. rewrite lookup_app_l in Hj by lia.
    by apply (Hbad i j).
Qed.

Lemma treesOfSize_search (size : Z) (cache0 : treeCache) :
  cacheReachable cache0 ->
  exists cache1,
    treesOfSize (treesOfSizeDepth size) size n cache0
    = Some (treesOfSizeValue size n, cache1) /\
    cacheReachable cache1.
Proof.
  intros Hreach.
  destruct (treesOfSize_value (treesOfSizeDepth size) size n cache0
              (cacheReachable_coherent _ Hreach)) as (cache1 & E & _); [lia|].
  exists cache1. split; [done|].
  apply (reach_call size n 0 cache0 (treesOfSizeValue size n) cache1 Hreach).
  by rewrite Nat.add_0_r.
Qed.

(** The sequence stays bad, and what is appended comes from the table. *)
Lemma backtrack_bad (fuel : nat) (st : state) :
  Pool.reachable (world st) -> cacheReachable (cache st) -> bad (seq st) ->
  unfinished
    (fun st' =>
       Pool.reachable (world st') /\ cacheReachable (cache st') /\ bad (seq st') /\
       forall t, t ∈ seq st' -> t ∈ seq st \/ labelsWithin n t = true)
    (backtrack start n fuel st).
Proof.
  intros Hw Hc Hbad. unfold backtrack.
  apply (forSizes_inv
    (fun st' =>
       Pool.reachable (world st') /\ cacheReachable (cache st') /\ bad (seq st') /\
       forall t, t ∈ seq st' -> t ∈ seq st \/ labelsWithin n t = true)
    (fun t => labelsWithin n t = true)).
  - intros st1 size ts cache1 (Hw1 & Hc1 & Hb1 & Hl1) E. simpl.
    destruct (treesOfSize_search size (cache st1) Hc1) as (cache2 & E2 & Hc2).
    rewrite E in E2. injection E2 as -> ->.
    split; [done|]. apply Forall_forall. intros t. apply treesOfSizeValue_labels.
  - intros st1 t w' sched' (Hw1 & Hc1 & Hb1 & Hl1) _ E. simpl.
    split; [|done]. by eapply isValidExtension_reachable.
  - intros st1 t w' sched' (Hw1 & Hc1 & Hb1 & Hl1) Ht E.
    pose proof (isValidExtension_value _ _ _ _ _ _ _ Hw1 E) as Hv.
    destruct (enter_fields (mkState (best st1) (seq st1 ++ [t]) (cache st1) w' sched'))
      as (_ & -> & -> & -> & _). simpl.
    split; [by eapply isValidExtension_reachable|]. split; [done|]. split.
    + apply bad_snoc; [done|]. symmetry in Hv. by apply negb_true_iff in Hv.
    + intros u [Hu| ->%list_elem_of_singleton]%elem_of_app; [by apply Hl1 | by right].
  - destruct (enter_fields st) as (_ & -> & -> & -> & _).
    split; [done|]. split; [done|]. split; [done|]. intros t Ht. by left.
Qed.

End SearchFacts.

(** X23: [TREE(n, pool)] never returns, for any [n], and no call of
    [backtrack] does: the loop over [allTrees(n)] has no end, so
    [seq.pop()] never runs. The search is a descent that only appends to
    [seq], and [best] is the larger of its first value and the length of
    [seq]. *)
Theorem backtrack_never_returns (start : Z -> treeCache -> Z) (n : Z) (fuel : nat)
    (st : Search.state) :
  (forall cache w sched, Search.returned (Search.TREE start n fuel cache w sched) = None) /\
  Search.returned (Search.backtrack start n fuel st) = None /\
  let st' := Search.stateOf (Search.backtrack start n fuel st) in
  Search.seq st `prefix_of` Search.seq st' /\
  Search.best st' = Nat.max (Search.best st) (length (Search.seq st')).
Proof.
  split.
  - intros cache w sched. unfold Search.TREE.
    by destruct (unfinished_returned _ _ (backtrack_grows start n fuel
      (Search.mkState 0 [] cache w sched))).
  - by destruct (unfinished_returned _ _ (backtrack_grows start n fuel st)).
Qed.

(** X24: from a bad sequence, with a pool and a table as the program has
    them, the search keeps [seq] a bad sequence: no tree of it embeds into
    a later one, whatever the order in which the workers answer; and every
    tree it appends has its labels in [1..n]. *)
Theorem backtrack_keeps_bad (start : Z -> treeCache -> Z) (n : Z) (fuel : nat)
    (st : Search.state) :
  Pool.reachable (Search.world st) -> cacheReachable (Search.cache st) ->
  Search.bad (Search.seq st) ->
  let st' := Search.stateOf (Search.backtrack start n fuel st) in
  Search.bad (Search.seq st') /\
  (forall t, t ∈ Search.seq st' -> t ∈ Search.seq st \/ labelsWithin n t = true) /\
  Pool.reachable (Search.world st') /\ cacheReachable (Search.cache st').
Proof.
  intros Hw Hc Hbad.
  destruct (unfinished_returned _ _ (backtrack_bad start n fuel st Hw Hc Hbad))
    as (_ & Hw' & Hc' & Hbad' & Hl).
  done.
Qed.

Lemma backtrack_keeps_bad_witness :
  let st := Search.mkState 0 [] ∅ (Pool.newPool 2) [0; 1; 0; 0; 1; 0]%nat in
  let st' := Search.stateOf (Search.backtrack Async.startSize 3 4 st) in
  Search.bad (Search.seq st') /\
  (forall t, t ∈ Search.seq st' -> t ∈ Search.seq st \/ labelsWithin 3 t = true) /\
  Pool.reachable (Search.world st') /\ cacheReachable (Search.cache st').
Proof.
  intros st.
  apply (backtrack_keeps_bad Async.startSize 3 4 st).
  - apply Pool.reach_new.
  - apply reach_empty.
  - intros i j s t _ Hi. done.
Defined.


(** *** Started with an empty table, the search stops growing at [n] trees *)

Section SearchStalls.

Import Search.

Variable start : Z -> treeCache -> Z.
Variable n : Z.

(** The generator starts at size 1 as long as the table holds no size above
    1 for [n]. *)
Hypothesis start_low : forall cache0 : treeCache,
  (forall size ts, cache0 !! (size, n) = Some ts -> size <= 1) -> start n cache0 = 1.

Lemma fromTo_cons (lo hi : Z) : lo <= hi -> fromTo lo hi = lo :: fromTo (lo + 1) hi.
Proof.
  intros H. unfold fromTo. rewrite seqZ_cons by lia. f_equal. f_equal; lia.
Qed.

Lemma leaves_snoc (k : Z) :
  0 <= k -> List.map leaf (fromTo 1 (k + 1)) = List.map leaf (fromTo 1 k) ++ [leaf (k + 1)].
Proof.
  intros H. unfold fromTo.
  replace (k + 1 - 1 + 1) with ((k - 1 + 1) + 1) by lia.
  rewrite seqZ_app by lia. rewrite List.map_app. f_equal.
  rewrite seqZ_cons by lia. rewrite seqZ_nil by lia. simpl. do 2 f_equal. lia.
Qed.

Lemma leaves_length (k : Z) : length (List.map leaf (fromTo 1 k)) = Z.to_nat k.
Proof. unfold fromTo. rewrite length_map, length_seqZ. lia. Qed.

Lemma embedsResult_leaves (k : Z) (t : tree) :
  existsb (fun s => Matcher.embedsResult s t) (List.map leaf (fromTo 1 k))
  = existsb (fun l => Matcher.embedsResult (leaf l) t) (fromTo 1 k).
Proof. induction (fromTo 1 k) as [|l ls IH]; [done|]. simpl. by rewrite IH. Qed.

(** A tree with its labels in [1..n] is rejected once [leaf 1 .. leaf k]
    are in the sequence, [k >= n]. *)
Lemma leaves_reject (k : Z) (t : tree) :
  n <= k -> labelsWithin n t = true ->
  existsb (fun s => Matcher.embedsResult s t) (List.map leaf (fromTo 1 k)) = true.
Proof.
  intros Hk Ht. destruct t as [l c]. simpl in Ht.
  apply andb_true_iff in Ht as [[H1%Z.leb_le H2%Z.leb_le]%andb_true_iff _].
  apply existsb_exists. exists (leaf l). split.
  - apply in_map, list_elem_of_In. unfold fromTo. apply elem_of_seqZ. lia.
  - by apply embedsResult_leaf.
Qed.

Lemma leaf_reject (k j : Z) :
  1 <= j <= k ->
  existsb (fun s => Matcher.embedsResult s (leaf j)) (List.map leaf (fromTo 1 k)) = true.
Proof.
  intros Hj. apply existsb_exists. exists (leaf j). split.
  - apply in_map, list_elem_of_In. unfold fromTo. apply elem_of_seqZ. lia.
  - by apply embedsResult_leaf.
Qed.

Lemma leaf_accept (k : Z) :
  existsb (fun s => Matcher.embedsResult s (leaf (k + 1))) (List.map leaf (fromTo 1 k))
  = false.
Proof.
  rewrite embedsResult_leaves.
  destruct (existsb _ (fromTo 1 k)) eqn:E; [|done].
  apply existsb_exists in E as (l & Hl%list_elem_of_In & Hemb).
  unfold fromTo in Hl. apply elem_of_seqZ in Hl.
  rewrite embedsResult_eq, rootEmbedsResult_leaf in Hemb. simpl in Hemb.
  rewrite orb_false_r in Hemb. apply Z.eqb_eq in Hemb. lia.
Qed.

Lemma treesOfSize_low (cache0 : treeCache) (ts : list tree) (cache1 : treeCache) :
  (forall size ts0, cache0 !! (size, n) = Some ts0 -> size <= 1) ->
  treesOfSize (treesOfSizeDepth 1) 1 n cache0 = Some (ts, cache1) ->
  forall size ts0, cache1 !! (size, n) = Some ts0 -> size <= 1.
Proof.
  intros Hlow. change (treesOfSizeDepth 1) with 3%nat. rewrite treesOfSize_S.
  destruct (cache0 !! (1, n)) as [cached|]; [by intros [= _ <-]|].
  simpl. intros [= _ <-] size ts0.
  intros [[Heq _]|[_ H]]%lookup_insert_Some; [|by eapply Hlow].
  inversion Heq. lia.
Qed.

Lemma await_alive (sch : list nat) : forall (w : Pool.world) (p : Z) v w' sch',
  Pool.poolInv w -> Pool.await sch p w = Some (v, w', sch') ->
  Pool.poolInv w' /\ (Pool.alive w -> Pool.alive w').
Proof.
  induction sch as [|k sch IH]; intros w p v w' sch' Hinv; rewrite await_unfold;
    destruct (Pool.settled w !! p) as [v0|]; try done; try (by intros [= _ <- _]).
  destruct (Pool.deliver (k mod length (Pool.inbox w)) w) as [w1|] eqn:Hd; [|done]. simpl.
  destruct (deliver_spec _ w w1 Hinv Hd) as (_ & _ & _ & Hinv1 & _ & _ & Hal1).
  intros Haw. apply IH in Haw as [Hinv' Hal']; [|done]. split; [done|]. auto.
Qed.

Lemma awaitAll_alive (ps : list Z) : forall (sch : list nat) (w : Pool.world) b w' sch',
  Pool.poolInv w -> Pool.awaitAll sch ps w = Some (b, w', sch') ->
  Pool.alive w -> Pool.alive w'.
Proof.
  induction ps as [|p ps IH]; intros sch w b w' sch' Hinv; simpl.
  { by intros [= _ <- _]. }
  destruct (Pool.await sch p w) as [[[v w1] sch1]|] eqn:Haw; [|done]. simpl.
  destruct (await_alive sch w p v w1 sch1 Hinv Haw) as [Hinv1 Hal1].
  destruct v; [intros [= _ <- _]; done|].
  intros H Hal. eapply IH; eauto.
Qed.

(** A call of [isValidExtension] that returns has used one event for every
    task answered, and has left a worker alive if there was one. *)
Lemma isValidExtension_events (sch : list nat) (sq : list tree) (t : tree)
    (w w' : Pool.world) (b : bool) (sch' : list nat) :
  Pool.reachable w -> Pool.isValidExtension sch sq t w = Some (b, w', sch') ->
  (Pool.alive w -> Pool.alive w') /\
  (length sch' + length (Pool.outstanding w) + length sq
   = length sch + length (Pool.outstanding w'))%nat.
Proof.
  intros Hinv%reachable_inv. unfold Pool.isValidExtension.
  destruct sq as [|s0 sq0].
  { intros [= _ <- <-]. split; [done | simpl; lia]. }
  set (sq := s0 :: sq0).
  destruct (submitAll_spec t sq w Hinv)
    as (trk & Hfst & Hsnd & Hinv1 & Htr & Hlen & _ & Halive1).
  destruct (Pool.submitAll sq t w) as [ps w1]. simpl in *. subst ps.
  intros Haw. split.
  - intros Hal. eapply awaitAll_alive; eauto.
  - pose proof (awaitAll_spec t trk sch w1 Hinv1 Htr) as H. rewrite Haw in H.
    destruct H as (_ & _ & H). fold sq. lia.
Qed.

(** The trees of size 1, from [leaf j] on, when [leaf 1 .. leaf k] are in
    the sequence and [k < n]: the leaves up to [leaf k] are rejected, and
    [leaf (k + 1)] is accepted. [G] stands for a pool with a worker alive
    and enough events to come. *)
Lemma forTrees_climb (bt : state -> outcome) (R : outcome -> Prop) (G : Prop) (k a : Z)
    (cache0 : treeCache) :
  0 <= k < n -> 0 <= a ->
  (forall st, ~ R (Done st)) ->
  (forall st, seq st = List.map leaf (fromTo 1 k) -> best st = Z.to_nat k -> ~ G ->
     R (Waiting st)) ->
  (forall st, seq st = List.map leaf (fromTo 1 (k + 1)) -> best st = Z.to_nat k ->
     cache st = cache0 -> Pool.reachable (world st) ->
     (G -> Pool.alive (world st) /\
           Z.of_nat (length (Pool.outstanding (world st))) + a
           <= Z.of_nat (length (sched st))) ->
     R (bt st)) ->
  forall (m : nat) (st : state),
    Z.of_nat m <= k ->
    seq st = List.map leaf (fromTo 1 k) -> best st = Z.to_nat k ->
    cache st = cache0 -> Pool.reachable (world st) ->
    (G -> Pool.alive (world st) /\
          Z.of_nat (length (Pool.outstanding (world st))) + k * (Z.of_nat m + 1) + a
          <= Z.of_nat (length (sched st))) ->
    R (forTrees bt (List.map leaf (fromTo (k + 1 - Z.of_nat m) n)) st).
Proof.
  intros Hk Ha Hdone Hwait Hbt.
  induction m as [|m IH]; intros st Hm Hseq Hbest Hcache Hw HG;
    rewrite fromTo_cons by lia; cbn [List.map forTrees];
    match goal with
    | |- context [Pool.isValidExtension ?a ?b ?c ?d] =>
        pose proof (isValidExtension_spec a b c d (reachable_inv _ Hw)) as Hnone
    end;
    destruct (Pool.isValidExtension (sched st) (seq st) _ (world st))
      as [[[ok w'] sched']|] eqn:E.
  - clear Hnone.
    pose proof (isValidExtension_value _ _ _ _ _ _ _ Hw E) as Hv.
    pose proof (isValidExtension_reachable _ _ _ _ _ _ _ Hw E) as Hw'.
    destruct (isValidExtension_events _ _ _ _ _ _ _ Hw E) as [Hal' Hev].
    rewrite Hseq in Hv. rewrite Hseq, leaves_length in Hev.
    replace (k + 1 - Z.of_nat 0) with (k + 1) in * by lia.
    rewrite leaf_accept in Hv. simpl in Hv. subst ok. cbv iota.
    match goal with
    | |- R (match bt ?stp with _ => _ end) =>
        assert (R (bt stp)) as HR;
          [|destruct (bt stp) as [st2|st2|st2]; [by apply Hdone in HR | done | done]]
    end.
    apply Hbt; simpl; [by rewrite Hseq, leaves_snoc by lia | done..|].
    intros [Hal Hb]%HG. split; [auto | lia].
  - rewrite Hseq, leaves_length in Hnone.
    apply Hwait; [done..|]. intros [Hal Hb]%HG. specialize (Hnone Hal). nia.
  - clear Hnone.
    pose proof (isValidExtension_value _ _ _ _ _ _ _ Hw E) as Hv.
    pose proof (isValidExtension_reachable _ _ _ _ _ _ _ Hw E) as Hw'.
    destruct (isValidExtension_events _ _ _ _ _ _ _ Hw E) as [Hal' Hev].
    rewrite Hseq in Hv. rewrite Hseq, leaves_length in Hev.
    rewrite leaf_reject in Hv by lia. simpl in Hv. subst ok. cbv iota.
    replace (k + 1 - Z.of_nat (S m) + 1) with (k + 1 - Z.of_nat m) by lia.
    apply IH; simpl; [lia | done..|].
    intros [Hal Hb]%HG. split; [auto | nia].
  - rewrite Hseq, leaves_length in Hnone.
    apply Hwait; [done..|]. intros [Hal Hb]%HG. specialize (Hnone Hal). nia.
Qed.

(** From [leaf 1 .. leaf k] the search goes on to [leaf 1 .. leaf n] and
    stays there. *)
Lemma forSizes_climb (G : Prop) (fuel : nat) : forall (k : Z) (st : state),
  0 <= k ->
  seq st = List.map leaf (fromTo 1 k) -> best st = Z.to_nat k ->
  Pool.reachable (world st) -> cacheReachable (cache st) ->
  (k < n -> forall size ts, cache st !! (size, n) = Some ts -> size <= 1) ->
  (G -> Pool.alive (world st) /\
        Z.of_nat (length (Pool.outstanding (world st))) + (n - k) * n * n
        <= Z.of_nat (length (sched st))) ->
  match forSizes start n fuel (start n (cache st)) st with
  | Done _ => False
  | Running st' =>
      exists k', k <= k' <= Z.max k n /\
        seq st' = List.map leaf (fromTo 1 k') /\ best st' = Z.to_nat k' /\
        (n <= k + Z.of_nat fuel -> n <= k')
  | Waiting st' =>
      exists k', k <= k' <= Z.max k n /\
        seq st' = List.map leaf (fromTo 1 k') /\ best st' = Z.to_nat k' /\
        (G -> n <= k')
  end.
Proof.
  induction fuel as [|f IH]; intros k st Hk Hseq Hbest Hw Hc Hlow HG.
  { simpl. exists k. split; [lia|]. split; [done|]. split; [done | lia]. }
  destruct (decide (n <= k)) as [Hnk|Hnk].
  - (* every label is in the sequence: nothing is accepted any more *)
    pose proof (forSizes_inv start n
      (fun st' => seq st' = seq st /\ best st' = best st /\
                  Pool.reachable (world st') /\ cacheReachable (cache st'))
      (fun t => labelsWithin n t = true)) as Hinv.
    match type of Hinv with
    | ?A -> ?B -> ?C -> _ =>
        assert A as HA; [|assert B as HB; [|assert C as HC]]
    end.
    + intros st1 size ts cache1 (Hs1 & Hb1 & Hw1 & Hc1) E. simpl.
      destruct (treesOfSize_search n size (cache st1) Hc1) as (cache2 & E2 & Hc2).
      rewrite E in E2. injection E2 as -> ->.
      split; [done|]. apply Forall_forall. intros t. apply treesOfSizeValue_labels.
    + intros st1 t w' sched' (Hs1 & Hb1 & Hw1 & Hc1) _ E. simpl.
      split; [done|]. split; [done|]. split; [|done].
      by eapply isValidExtension_reachable.
    + intros st1 t w' sched' (Hs1 & Hb1 & Hw1 & Hc1) Ht E.
      pose proof (isValidExtension_value _ _ _ _ _ _ _ Hw1 E) as Hv.
      rewrite Hs1, Hseq, leaves_reject in Hv by done. done.
    + specialize (Hinv HA HB HC (S f) (start n (cache st)) st
        (conj eq_refl (conj eq_refl (conj Hw Hc)))).
      destruct (forSizes start n (S f) _ st) as [st'|st'|st']; [done|..];
        destruct Hinv as (Hs & Hb & _); exists k; rewrite Hs, Hb;
        (split; [lia|]); (split; [done|]); (split; [done | lia]).
  - (* [leaf (k + 1)] is still to come *)
    rewrite (start_low _ (Hlow ltac:(lia))). cbn [forSizes].
    destruct (treesOfSize_search n 1 (cache st) Hc) as (cache1 & E & Hc1).
    pose proof (treesOfSize_low _ _ _ (Hlow ltac:(lia)) E) as Hlow1.
    rewrite E. change (treesOfSizeValue 1 n) with (List.map leaf (fromTo 1 n)).
    pose proof (forTrees_climb
      (fun st' => forSizes start n f (start n (cache st')) (enter st'))
      (fun o =>
         match o with
         | Done _ => False
         | Running st' =>
             exists k', k <= k' <= Z.max k n /\
               seq st' = List.map leaf (fromTo 1 k') /\ best st' = Z.to_nat k' /\
               (n <= k + Z.of_nat (S f) -> n <= k')
         | Waiting st' =>
             exists k', k <= k' <= Z.max k n /\
               seq st' = List.map leaf (fromTo 1 k') /\ best st' = Z.to_nat k' /\
               (G -> n <= k')
         end)
      G k ((n - (k + 1)) * n * n) cache1 ltac:(lia) ltac:(nia)) as Hclimb.
    match type of Hclimb with
    | ?A -> ?B -> ?C -> _ =>
        assert A as HA; [|assert B as HB; [|assert C as HC]]
    end.
    + intros st1 HR. exact HR.
    + intros st1 Hs1 Hb1 HnG. exists k. split; [lia|]. done.
    + intros st1 Hs1 Hb1 Hc1' Hw1 HG1.
      destruct (enter_fields st1) as (Hb2 & Hs2 & Hc2 & Hw2 & Hsch2).
      specialize (IH (k + 1) (enter st1)).
      rewrite Hc2, Hs2, Hb2, Hw2, Hsch2, Hs1, Hb1, leaves_length, Hc1' in IH.
      specialize (IH ltac:(lia) eq_refl ltac:(lia) Hw1 Hc1 (fun _ => Hlow1) HG1).
      rewrite Hc1'.
      destruct (forSizes start n f (start n cache1) (enter st1)) as [st'|st'|st'];
        [done|..]; destruct IH as (k' & Hk' & Hs' & Hb' & Hf); exists k';
        (split; [lia|]); (split; [done|]); (split; [done|]); [lia | done].
    + specialize (Hclimb HA HB HC (Z.to_nat k)
        (mkState (best st) (seq st) cache1 (world st) (sched st))
        ltac:(lia) Hseq Hbest eq_refl Hw).
      replace (k + 1 - Z.of_nat (Z.to_nat k)) with 1 in Hclimb by lia.
      assert (G -> Pool.alive (world st) /\
        Z.of_nat (length (Pool.outstanding (world st)))
        + k * (Z.of_nat (Z.to_nat k) + 1) + (n - (k + 1)) * n * n
        <= Z.of_nat (length (sched st))) as HG1
        by (intros [Hal Hb]%HG; split; [done | nia]).
      specialize (Hclimb HG1). by destruct (forTrees _ _ _).
Qed.

Lemma startSize_low (cache0 : treeCache) :
  (forall size ts, cache0 !! (size, n) = Some ts -> size <= 1) ->
  Async.startSize n cache0 = 1.
Proof.
  intros Hlow. unfold Async.startSize.
  destruct (getMaxCachedSizeForN_spec n cache0) as (H0 & Hin & _).
  destruct (Async.getMaxCachedSizeForN n cache0 >? 0) eqn:E; [|done].
  rewrite Z.gtb_ltb in E. apply Z.ltb_lt in E.
  destruct (Hin E) as [ts Hts]. apply Hlow in Hts. lia.
Qed.

Lemma TREE_climb (fuel : nat) (w : Pool.world) (sch : list nat) :
  Pool.reachable w ->
  exists k : Z,
    0 <= k <= Z.max 0 n /\
    seq (stateOf (TREE start n fuel ∅ w sch)) = List.map leaf (fromTo 1 k) /\
    best (stateOf (TREE start n fuel ∅ w sch)) = Z.to_nat k /\
    (n <= Z.of_nat fuel -> Pool.alive w ->
     Z.of_nat (length (Pool.outstanding w)) + n * n * n <= Z.of_nat (length sch) ->
     k = Z.max 0 n).
Proof.
  intros Hw. unfold TREE, backtrack.
  change (enter (mkState 0 [] ∅ w sch)) with (mkState 0 [] ∅ w sch).
  pose proof (forSizes_climb
    (Pool.alive w /\
     Z.of_nat (length (Pool.outstanding w)) + n * n * n <= Z.of_nat (length sch))
    fuel 0 (mkState 0 [] ∅ w sch) ltac:(lia) eq_refl eq_refl Hw reach_empty) as H.
  simpl in H.
  assert (0 < n -> forall (size : Z) (ts : list tree),
            (∅ : treeCache) !! (size, n) = Some ts -> size <= 1) as Hlow
    by (intros _ size ts; by rewrite lookup_empty).
  specialize (H Hlow). rewrite Z.sub_0_r in H. specialize (H (fun HG => HG)).
  destruct (forSizes start n fuel _ _) as [st'|st'|st']; [done|..];
    destruct H as (k & Hk & Hs & Hb & Hn); exists k; simpl;
    (split; [lia|]); (split; [done|]); (split; [done|]); intros Hf Hal Hev;
    first [specialize (Hn (conj Hal Hev)) | specialize (Hn ltac:(lia))]; lia.
Qed.

End SearchStalls.

(** X25: started with an empty table, in both variants, the search never
    has more than [n] trees: [seq] is always [leaf 1, ..., leaf k] for some
    [k <= n], and [best] is [k]. With a worker alive and [n * n * n] events
    to come beyond the tasks to answer, after [n] turns it has exactly
    [leaf 1, ..., leaf n] and [best = n], and it stays there: every later
    tree has one of the labels [1..n] at its root, so the leaf with that
    label embeds into it. *)
Theorem TREE_stops_at_n (n : Z) (fuel : nat) (w : Pool.world) (sched : list nat)
    (o : Search.outcome) :
  Pool.reachable w ->
  o = Search.TREE Search.startSync n fuel ∅ w sched \/
  o = Search.TREE Async.startSize n fuel ∅ w sched ->
  exists k : Z,
    0 <= k <= Z.max 0 n /\
    Search.seq (Search.stateOf o) = List.map leaf (fromTo 1 k) /\
    Search.best (Search.stateOf o) = Z.to_nat k /\
    (n <= Z.of_nat fuel -> Pool.alive w ->
     Z.of_nat (length (Pool.outstanding w)) + n * n * n <= Z.of_nat (length sched) ->
     k = Z.max 0 n).
Proof.
  intros Hw [-> | ->].
  - by apply TREE_climb.
  - apply TREE_climb; [|done]. apply startSize_low.
Qed.

Lemma TREE_stops_at_n_witness :
  let w := Pool.newPool 2 in
  let sched := repeat 0%nat 30 in
  let o := Search.TREE Search.startSync 3 4 ∅ w sched in
  exists k : Z,
    0 <= k <= Z.max 0 3 /\
    Search.seq (Search.stateOf o) = List.map leaf (fromTo 1 k) /\
    Search.best (Search.stateOf o) = Z.to_nat k /\
    (3 <= Z.of_nat 4 -> Pool.alive w ->
     Z.of_nat (length (Pool.outstanding w)) + 3 * 3 * 3 <= Z.of_nat (length sched) ->
     k = Z.max 0 3).
Proof.
  intros w sched o.
  apply (TREE_stops_at_n 3 4 w sched o); [apply Pool.reach_new | by left].
Defined.


(** ** What the generator yields *)

Section AllTreesLaws.

Lemma yielded_spec (n : Z) (rounds : nat) : forall b : Z,
  let l := concat (List.map (fun s => treesOfSizeValue s n) (seqZ b (Z.of_nat rounds))) in
  NoDup l /\
  (forall t, t ∈ l <->
     labelsWithin n t = true /\ b <= Z.of_nat (nodeCount t) < b + Z.of_nat rounds) /\
  (forall (i j : nat) (s t : tree), (i <= j)%nat -> l !! i = Some s -> l !! j = Some t ->
     (nodeCount s <= nodeCount t)%nat).
Proof.
  induction rounds as [|r IH]; intros b; cbv zeta.
  { simpl. split; [constructor|]. split.
    - intros t. split; [by intros ?%elem_of_nil | lia].
    - by intros i j s t _ Hi. }
  rewrite seqZ_cons by lia.
  replace (Z.pred (Z.of_nat (S r))) with (Z.of_nat r) by lia.
  replace (Z.succ b) with (b + 1) by lia. cbn [List.map concat].
  destruct (IH (b + 1)) as (Hnd & Hel & Hsort).
  set (l' := concat (List.map (fun s => treesOfSizeValue s n) (seqZ (b + 1) (Z.of_nat r))))
    in *.
  split; [|split].
  - apply NoDup_app. split; [|split; [|done]].
    + apply (NoDup_fmap_1 treeKey), treesOfSizeValue_NoDup_keys.
    + intros t Ht%treesOfSizeValue_iff Ht'%Hel. lia.
  - intros t. rewrite elem_of_app, treesOfSizeValue_iff, Hel. split.
    + intros [[? ?]|[? ?]]; (split; [done | lia]).
    + intros [? ?]. destruct (decide (Z.of_nat (nodeCount t) = b)); [left | right];
        (split; [done || lia | done || lia]).
  - intros i j s t Hij [Hi|[Hi Hi']]%lookup_app_Some [Hj|[Hj Hj']]%lookup_app_Some.
    + apply list_elem_of_lookup_2, treesOfSizeValue_iff in Hi.
      apply list_elem_of_lookup_2, treesOfSizeValue_iff in Hj. lia.
    + apply list_elem_of_lookup_2, treesOfSizeValue_iff in Hi.
      apply list_elem_of_lookup_2, Hel in Hj'. lia.
    + apply lookup_lt_Some in Hj. lia.
    + apply (Hsort (i - length (treesOfSizeValue b n))%nat
                   (j - length (treesOfSizeValue b n))%nat); [lia | done..].
Qed.

End AllTreesLaws.

(** X26: [allTrees(n)] yields every tree with labels in [1..n] exactly
    once, the trees with fewer nodes first: what it yields during [rounds]
    turns of its loop has no tree twice, is ordered by the number of nodes,
    and holds exactly the trees with labels in [1..n] and [s0 <= nodes <
    s0 + rounds], where [s0] is 1 with the [Map] and the start size with
    the IndexedDB store (the trees with fewer than [s0] nodes are not
    yielded there). *)
Theorem allTrees_each_tree_once (n : Z) (rounds extra : nat) (cache : treeCache) :
  cacheReachable cache ->
  let s0 := Async.startSize n cache in
  let ok (b : Z) (l : list tree) :=
    NoDup l /\
    (forall t, t ∈ l <->
       labelsWithin n t = true /\ b <= Z.of_nat (nodeCount t) < b + Z.of_nat rounds) /\
    (forall (i j : nat) (s t : tree), (i <= j)%nat -> l !! i = Some s -> l !! j = Some t ->
       (nodeCount s <= nodeCount t)%nat) in
  (exists l cache',
     Sync.allTrees (treesOfSizeDepth (1 + Z.of_nat rounds) + extra) rounds n cache
     = Some (l, cache') /\ ok 1 l) /\
  (exists l store',
     Async.allTrees (treesOfSizeDepth (s0 + Z.of_nat rounds) + extra) rounds n cache
     = Some (l, store') /\ ok s0 l).
Proof.
  intros Hcoh%cacheReachable_coherent s0 ok. split.
  - destruct (allTreesFrom_value n (treesOfSizeDepth (1 + Z.of_nat rounds) + extra)
                rounds 1 cache Hcoh) as (c & Hc & _); [lia|].
    eexists _, c. split; [exact Hc|]. apply yielded_spec.
  - destruct (allTreesFrom_value n (treesOfSizeDepth (s0 + Z.of_nat rounds) + extra)
                rounds s0 cache Hcoh) as (c & Hc & _); [lia|].
    eexists _, c. split; [exact Hc|]. apply yielded_spec.
Qed.

Lemma allTrees_each_tree_once_witness :
  let n := 2 in
  let rounds := 3%nat in
  let cache : treeCache := ∅ in
  let s0 := Async.startSize n cache in
  let ok (b : Z) (l : list tree) :=
    NoDup l /\
    (forall t, t ∈ l <->
       labelsWithin n t = true /\ b <= Z.of_nat (nodeCount t) < b + Z.of_nat rounds) /\
    (forall (i j : nat) (s t : tree), (i <= j)%nat -> l !! i = Some s -> l !! j = Some t ->
       (nodeCount s <= nodeCount t)%nat) in
  (exists l cache',
     Sync.allTrees (treesOfSizeDepth (1 + Z.of_nat rounds) + 0) rounds n cache
     = Some (l, cache') /\ ok 1 l) /\
  (exists l store',
     Async.allTrees (treesOfSizeDepth (s0 + Z.of_nat rounds) + 0) rounds n cache
     = Some (l, store') /\ ok s0 l).
Proof.
  intros n rounds cache.
  apply (allTrees_each_tree_once n rounds 0 cache). apply reach_empty.
Defined.
